(** * Order matching engine: order book on binary heaps, matching loop

  Shallow embedding of [order_book.py] and [matching_engine.py].

  - Order nodes are mutable Python objects shared between the two heaps
    and the id index; they live in an object store ([nodes]) and the
    heaps and the index hold references (positions in the store).
  - [heapq.heappush] / [heapq.heappop] are modelled on lists used as
    arrays, following the array algorithm of the [heapq] module.
  - Prices are exact numbers (integer ticks); timestamps are clock
    readings passed in by the caller of [submit_order] / [modify_order].
  - The database session is an oracle telling, for each commit, whether
    it succeeds. *)

From Stdlib Require Import ZArith Lia.
From stdpp Require Import base option list sorting gmap strings.

Local Open Scope Z_scope.
Local Open Scope nat_scope.

(** ** The [heapq] module on a comparison [lt] (Python's [__lt__]) *)

Module heapq.
Section defs.
Context {A : Type} (lt : A → A → bool).

(** [(pos - 1) >> 1] *)
Definition parentpos_of (pos : nat) : nat := Nat.shiftr (pos - 1) 1.

(** The [while pos > startpos] loop of [_siftdown]: the hole at [pos]
    moves towards the root while [newitem < parent]. *)
Fixpoint _siftdown_loop (fuel : nat) (heap : list A) (startpos pos : nat)
    (newitem : A) : list A :=
  match fuel with
  | O => <[pos := newitem]> heap
  | S fuel' =>
      if decide (startpos < pos) then
        let parentpos := parentpos_of pos in
        match heap !! parentpos with
        | Some parent =>
            if lt newitem parent
            then _siftdown_loop fuel' (<[pos := parent]> heap) startpos parentpos newitem
            else <[pos := newitem]> heap
        | None => <[pos := newitem]> heap
        end
      else <[pos := newitem]> heap
  end.

Definition _siftdown (heap : list A) (startpos pos : nat) : list A :=
  match heap !! pos with
  | Some newitem => _siftdown_loop pos heap startpos pos newitem
  | None => heap
  end.

(** [heap.append(item); _siftdown(heap, 0, len(heap)-1)] *)
Definition heappush (heap : list A) (item : A) : list A :=
  _siftdown (heap ++ [item]) 0 (length (heap ++ [item]) - 1).

(** [rightpos = childpos + 1; if rightpos < endpos and not
    heap[childpos] < heap[rightpos]: childpos = rightpos] *)
Definition smaller_child (heap : list A) (endpos childpos : nat) : nat :=
  let rightpos := childpos + 1 in
  if decide (rightpos < endpos) then
    match heap !! childpos, heap !! rightpos with
    | Some child, Some rightitem =>
        if negb (lt child rightitem) then rightpos else childpos
    | _, _ => childpos
    end
  else childpos.

(** The [while childpos < endpos] loop of [_siftup]: the smaller child
    bubbles up until the hole reaches a leaf; returns the array and the
    final position of the hole. *)
Fixpoint _siftup_loop (fuel : nat) (heap : list A) (endpos pos : nat)
    : list A * nat :=
  match fuel with
  | O => (heap, pos)
  | S fuel' =>
      let childpos := 2 * pos + 1 in
      if decide (childpos < endpos) then
        let childpos' := smaller_child heap endpos childpos in
        match heap !! childpos' with
        | Some c => _siftup_loop fuel' (<[pos := c]> heap) endpos childpos'
        | None => (heap, pos)
        end
      else (heap, pos)
  end.

Definition _siftup (heap : list A) (pos : nat) : list A :=
  match heap !! pos with
  | Some newitem =>
      let '(heap', pos') := _siftup_loop (length heap) heap (length heap) pos in
      _siftdown (<[pos' := newitem]> heap') pos pos'
  | None => heap
  end.

(** [heappop]: [None] stands for the [IndexError] on an empty heap. *)
Definition heappop (heap : list A) : option (A * list A) :=
  match last heap with
  | None => None
  | Some lastelt =>
      let heap' := removelast heap in
      match heap' with
      | returnitem :: _ => Some (returnitem, _siftup (<[0 := lastelt]> heap') 0)
      | [] => Some (lastelt, [])
      end
  end.

(** *** The heap order, for the statements about [heapq] *)

(** [j] is a child of [i] in the array layout. *)
Definition is_child (i j : nat) : Prop := j = 2 * i + 1 ∨ j = 2 * i + 2.

(** No child is smaller than its parent. *)
Definition heap_ok (h : list A) : Prop :=
  ∀ i j x y, is_child i j → h !! i = Some x → h !! j = Some y → lt y x = false.

(** The heap order holds around a hole at [p], whose content is ignored. *)
Definition hole_ok (h : list A) (p : nat) : Prop :=
  (∀ i j x y, is_child i j → i ≠ p → j ≠ p →
     h !! i = Some x → h !! j = Some y → lt y x = false)
  ∧ (∀ g c x y, is_child g p → is_child p c →
     h !! g = Some x → h !! c = Some y → lt y x = false).
End defs.
End heapq.


(** ** [order_book.py]: order nodes *)

Inductive OrderSide := BUY | SELL.

#[global] Instance OrderSide_eq_dec : EqDecision OrderSide.
Proof. solve_decision. Defined.

(** The dataclass [OrderNode]. [price] is an exact number of ticks and
    [timestamp] a clock reading (microseconds). *)
Record OrderNode := mkOrderNode {
  order_id : string;
  user_id : string;
  symbol : string;
  side : OrderSide;
  quantity : Z;
  price : Z;
  timestamp : Z;
  filled_quantity : Z;
}.

#[global] Instance OrderNode_inhabited : Inhabited OrderNode :=
  populate (mkOrderNode "" "" "" BUY 0 0 0 0).

(** [OrderNode.__lt__] *)
Definition OrderNode_lt (self other : OrderNode) : bool :=
  match side self with
  | BUY =>
      if negb (price self =? price other)%Z
      then (price self >? price other)%Z
      else (timestamp self <? timestamp other)%Z
  | SELL =>
      if negb (price self =? price other)%Z
      then (price self <? price other)%Z
      else (timestamp self <? timestamp other)%Z
  end.

Definition remaining_quantity (self : OrderNode) : Z :=
  (quantity self - filled_quantity self)%Z.

Definition is_filled (self : OrderNode) : bool :=
  (remaining_quantity self <=? 0)%Z.

(** The assignment [order.filled_quantity = v]. *)
Definition set_filled_quantity (v : Z) (self : OrderNode) : OrderNode :=
  mkOrderNode (order_id self) (user_id self) (symbol self) (side self)
    (quantity self) (price self) (timestamp self) v.

(** ** [order_book.py]: the order book

    [nodes] is the object store: position [r] holds the current contents
    of the node referenced by [r]. [buy_orders] and [sell_orders] are the
    two [heapq] arrays and [orders_by_id] the id index; all three hold
    references, so a node marked through the index is seen marked in its
    heap. *)
Record OrderBook := mkOrderBook {
  book_symbol : string;
  nodes : list OrderNode;
  buy_orders : list nat;
  sell_orders : list nat;
  orders_by_id : gmap string nat;
}.

Definition OrderBook_init (sym : string) : OrderBook :=
  mkOrderBook sym [] [] [] ∅.

Definition node_at (store : list OrderNode) (r : nat) : OrderNode := store !!! r.

(** Comparison of two references: [__lt__] on the nodes they point to. *)
Definition ref_lt (store : list OrderNode) (r1 r2 : nat) : bool :=
  OrderNode_lt (node_at store r1) (node_at store r2).

Definition with_nodes (b : OrderBook) (ns : list OrderNode) : OrderBook :=
  mkOrderBook (book_symbol b) ns (buy_orders b) (sell_orders b) (orders_by_id b).
Definition with_buy_orders (b : OrderBook) (h : list nat) : OrderBook :=
  mkOrderBook (book_symbol b) (nodes b) h (sell_orders b) (orders_by_id b).
Definition with_sell_orders (b : OrderBook) (h : list nat) : OrderBook :=
  mkOrderBook (book_symbol b) (nodes b) (buy_orders b) h (orders_by_id b).
Definition with_orders_by_id (b : OrderBook) (m : gmap string nat) : OrderBook :=
  mkOrderBook (book_symbol b) (nodes b) (buy_orders b) (sell_orders b) m.

(** [node.filled_quantity = v] on the node referenced by [r]. *)
Definition store_filled (b : OrderBook) (r : nat) (v : Z) : OrderBook :=
  with_nodes b (<[r := set_filled_quantity v (node_at (nodes b) r)]> (nodes b)).

(** Construction of an [OrderNode] object: it gets a fresh reference. *)
Definition new_node (b : OrderBook) (n : OrderNode) : nat * OrderBook :=
  (length (nodes b), with_nodes b (nodes b ++ [n])).

(** The two branches [heapq.heappush(self.buy_orders, order)] /
    [heapq.heappush(self.sell_orders, order)] on [order.side]. *)
Definition push_by_side (b : OrderBook) (r : nat) : OrderBook :=
  match side (node_at (nodes b) r) with
  | BUY => with_buy_orders b (heapq.heappush (ref_lt (nodes b)) (buy_orders b) r)
  | SELL => with_sell_orders b (heapq.heappush (ref_lt (nodes b)) (sell_orders b) r)
  end.

(** [OrderBook.add_order], for the node referenced by [r]. *)
Definition add_order (b : OrderBook) (r : nat) : bool * OrderBook :=
  let oid := order_id (node_at (nodes b) r) in
  match orders_by_id b !! oid with
  | Some _ => (false, b)
  | None => (true, push_by_side (with_orders_by_id b (<[oid := r]> (orders_by_id b))) r)
  end.

(** [OrderBook.remove_order]: the node stays in its heap and is marked
    filled. *)
Definition remove_order (b : OrderBook) (oid : string) : bool * OrderBook :=
  match orders_by_id b !! oid with
  | None => (false, b)
  | Some r =>
      let b1 := with_orders_by_id b (delete oid (orders_by_id b)) in
      (true, store_filled b1 r (quantity (node_at (nodes b1) r)))
  end.

(** [OrderBook.modify_order]; [now] is the reading of [datetime.utcnow()]. *)
Definition modify_order (b : OrderBook) (oid : string) (new_quantity : Z)
    (new_price : Z) (now : Z) : bool * OrderBook :=
  match orders_by_id b !! oid with
  | None => (false, b)
  | Some r =>
      let order := node_at (nodes b) r in
      let b1 := store_filled b r (quantity order) in
      let '(r', b2) :=
        new_node b1 (mkOrderNode (order_id order) (user_id order) (symbol order)
                       (side order) new_quantity new_price now 0) in
      let b3 := with_orders_by_id b2 (<[oid := r']> (orders_by_id b2)) in
      (true, push_by_side b3 r')
  end.

(** The loop shared by [get_best_buy_price] and [get_best_sell_price]:
    filled nodes on top of the heap are popped. [None] is fuel
    exhaustion. *)
Fixpoint best_price_loop (fuel : nat) (store : list OrderNode) (heap : list nat)
    : option (option Z * list nat) :=
  match fuel with
  | O => None
  | S fuel' =>
      match heap with
      | [] => Some (None, heap)
      | order :: _ =>
          if negb (is_filled (node_at store order))
          then Some (Some (price (node_at store order)), heap)
          else
            match heapq.heappop (ref_lt store) heap with
            | Some (_, heap') => best_price_loop fuel' store heap'
            | None => Some (None, heap)
            end
      end
  end.

Definition get_best_buy_price (b : OrderBook) : option (option Z * OrderBook) :=
  '(p, h) ← best_price_loop (S (length (buy_orders b))) (nodes b) (buy_orders b);
  Some (p, with_buy_orders b h).

Definition get_best_sell_price (b : OrderBook) : option (option Z * OrderBook) :=
  '(p, h) ← best_price_loop (S (length (sell_orders b))) (nodes b) (sell_orders b);
  Some (p, with_sell_orders b h).

(** One side of [get_market_depth]: the [while heap and len(depth) < levels]
    loop. The state is the heap, the depth list and the popped nodes. *)
Fixpoint depth_loop (fuel : nat) (store : list OrderNode) (levels : Z)
    (heap : list nat) (depth : list (Z * Z)) (temp : list nat)
    : option (list nat * list (Z * Z) * list nat) :=
  match fuel with
  | O => None
  | S fuel' =>
      if negb (bool_decide (heap = [])) && (Z.of_nat (length depth) <? levels)%Z then
        match heapq.heappop (ref_lt store) heap with
        | Some (order, heap') =>
            let n := node_at store order in
            let depth' :=
              if negb (is_filled n)
              then depth ++ [(price n, remaining_quantity n)]
              else depth in
            depth_loop fuel' store levels heap' depth' (temp ++ [order])
        | None => Some (heap, depth, temp)
        end
      else Some (heap, depth, temp)
  end.

(** The loop followed by [for order in temp: heapq.heappush(heap, order)]. *)
Definition depth_side (store : list OrderNode) (levels : Z) (heap : list nat)
    : option (list (Z * Z) * list nat) :=
  '(heap', depth, temp) ← depth_loop (S (length heap)) store levels heap [] [];
  Some (depth, foldl (heapq.heappush (ref_lt store)) heap' temp).

(** [OrderBook.get_market_depth]: the pair is [('buy', 'sell')]. *)
Definition get_market_depth (b : OrderBook) (levels : Z)
    : option (list (Z * Z) * list (Z * Z) * OrderBook) :=
  '(buy_depth, bh) ← depth_side (nodes b) levels (buy_orders b);
  let b1 := with_buy_orders b bh in
  '(sell_depth, sh) ← depth_side (nodes b1) levels (sell_orders b1);
  Some (buy_depth, sell_depth, with_sell_orders b1 sh).

(** [OrderBook.get_order] *)
Definition get_order (b : OrderBook) (oid : string) : option OrderNode :=
  node_at (nodes b) <$> orders_by_id b !! oid.

(** One side of [cleanup_filled_orders]: the [while heap:] loop pops every
    node and keeps the ones that are not filled. *)
Fixpoint cleanup_loop (fuel : nat) (store : list OrderNode) (heap : list nat)
    (temp : list nat) : option (list nat * list nat) :=
  match fuel with
  | O => None
  | S fuel' =>
      if negb (bool_decide (heap = [])) then
        match heapq.heappop (ref_lt store) heap with
        | Some (order, heap') =>
            cleanup_loop fuel' store heap'
              (if negb (is_filled (node_at store order)) then temp ++ [order] else temp)
        | None => Some (heap, temp)
        end
      else Some (heap, temp)
  end.

(** The loop followed by [for order in temp: heapq.heappush(heap, order)]. *)
Definition cleanup_side (store : list OrderNode) (heap : list nat) : option (list nat) :=
  '(heap', temp) ← cleanup_loop (S (length heap)) store heap [];
  Some (foldl (heapq.heappush (ref_lt store)) heap' temp).

(** [OrderBook.cleanup_filled_orders] *)
Definition cleanup_filled_orders (b : OrderBook) : option OrderBook :=
  bh ← cleanup_side (nodes b) (buy_orders b);
  let b1 := with_buy_orders b bh in
  sh ← cleanup_side (nodes b1) (sell_orders b1);
  Some (with_sell_orders b1 sh).

(** ** [matching_engine.py] *)

(** The dict returned by [_execute_trade]; [trade_id] and [executed_at]
    are generated by the database and left out. *)
Record Trade := mkTrade {
  buy_order_id : string;
  sell_order_id : string;
  trade_symbol : string;
  trade_quantity : Z;
  trade_price : Z;
}.

(** [MatchingEngine._execute_trade]: the trade row is added and committed;
    when the session raises the transaction is rolled back and [None] is
    returned. [commit_ok] is the outcome of the database transaction. *)
Definition _execute_trade (commit_ok : bool) (buy_order sell_order : OrderNode)
    (quantity : Z) (price : Z) : option Trade :=
  if commit_ok
  then Some (mkTrade (order_id buy_order) (order_id sell_order)
               (symbol buy_order) quantity price)
  else None.

(** Outcomes of the successive database transactions of one call; past
    the end of the list they succeed. *)
Definition next_commit (commits : list bool) : bool * list bool :=
  match commits with
  | [] => (true, [])
  | ok :: rest => (ok, rest)
  end.

(** [if trade_data: executed_trades.append(trade_data)] *)
Definition append_trade (executed_trades : list Trade) (trade_data : option Trade)
    : list Trade :=
  match trade_data with
  | Some t => executed_trades ++ [t]
  | None => executed_trades
  end.

(** The [while] loop of [MatchingEngine._match_buy_order]; [buy_order] is
    the reference of the incoming order. [None] is fuel exhaustion. *)
Fixpoint _match_buy_loop (fuel : nat) (commits : list bool) (b : OrderBook)
    (buy_order : nat) (executed_trades : list Trade)
    : option (OrderBook * list Trade) :=
  match fuel with
  | O => None
  | S fuel' =>
      if negb (is_filled (node_at (nodes b) buy_order)) then
        match sell_orders b with
        | [] => Some (b, executed_trades)
        | sell_order :: _ =>
            if (price (node_at (nodes b) sell_order)
                <=? price (node_at (nodes b) buy_order))%Z then
              if is_filled (node_at (nodes b) sell_order) then
                match heapq.heappop (ref_lt (nodes b)) (sell_orders b) with
                | Some (_, h) =>
                    _match_buy_loop fuel' commits (with_sell_orders b h)
                      buy_order executed_trades
                | None => Some (b, executed_trades)
                end
              else
                let trade_quantity :=
                  Z.min (remaining_quantity (node_at (nodes b) buy_order))
                        (remaining_quantity (node_at (nodes b) sell_order)) in
                let trade_price := price (node_at (nodes b) sell_order) in
                let '(ok, commits') := next_commit commits in
                let trade_data :=
                  _execute_trade ok (node_at (nodes b) buy_order)
                    (node_at (nodes b) sell_order) trade_quantity trade_price in
                let executed_trades' := append_trade executed_trades trade_data in
                let b1 := store_filled b buy_order
                  (filled_quantity (node_at (nodes b) buy_order) + trade_quantity)%Z in
                let b2 := store_filled b1 sell_order
                  (filled_quantity (node_at (nodes b1) sell_order) + trade_quantity)%Z in
                if is_filled (node_at (nodes b2) sell_order) then
                  match heapq.heappop (ref_lt (nodes b2)) (sell_orders b2) with
                  | Some (_, h) =>
                      _match_buy_loop fuel' commits' (with_sell_orders b2 h)
                        buy_order executed_trades'
                  | None => Some (b2, executed_trades')
                  end
                else _match_buy_loop fuel' commits' b2 buy_order executed_trades'
            else Some (b, executed_trades)
        end
      else Some (b, executed_trades)
  end.

(** The [while] loop of [MatchingEngine._match_sell_order]. *)
Fixpoint _match_sell_loop (fuel : nat) (commits : list bool) (b : OrderBook)
    (sell_order : nat) (executed_trades : list Trade)
    : option (OrderBook * list Trade) :=
  match fuel with
  | O => None
  | S fuel' =>
      if negb (is_filled (node_at (nodes b) sell_order)) then
        match buy_orders b with
        | [] => Some (b, executed_trades)
        | buy_order :: _ =>
            if (price (node_at (nodes b) buy_order)
                >=? price (node_at (nodes b) sell_order))%Z then
              if is_filled (node_at (nodes b) buy_order) then
                match heapq.heappop (ref_lt (nodes b)) (buy_orders b) with
                | Some (_, h) =>
                    _match_sell_loop fuel' commits (with_buy_orders b h)
                      sell_order executed_trades
                | None => Some (b, executed_trades)
                end
              else
                let trade_quantity :=
                  Z.min (remaining_quantity (node_at (nodes b) sell_order))
                        (remaining_quantity (node_at (nodes b) buy_order)) in
                let trade_price := price (node_at (nodes b) buy_order) in
                let '(ok, commits') := next_commit commits in
                let trade_data :=
                  _execute_trade ok (node_at (nodes b) buy_order)
                    (node_at (nodes b) sell_order) trade_quantity trade_price in
                let executed_trades' := append_trade executed_trades trade_data in
                let b1 := store_filled b sell_order
                  (filled_quantity (node_at (nodes b) sell_order) + trade_quantity)%Z in
                let b2 := store_filled b1 buy_order
                  (filled_quantity (node_at (nodes b1) buy_order) + trade_quantity)%Z in
                if is_filled (node_at (nodes b2) buy_order) then
                  match heapq.heappop (ref_lt (nodes b2)) (buy_orders b2) with
                  | Some (_, h) =>
                      _match_sell_loop fuel' commits' (with_buy_orders b2 h)
                        sell_order executed_trades'
                  | None => Some (b2, executed_trades')
                  end
                else _match_sell_loop fuel' commits' b2 sell_order executed_trades'
            else Some (b, executed_trades)
        end
      else Some (b, executed_trades)
  end.

(** An iteration either pops a node of the opposite heap or fills the
    incoming order, so twice the heap length plus two bounds the loop. *)
Definition _match_buy_order (commits : list bool) (b : OrderBook) (buy_order : nat)
    : option (OrderBook * list Trade) :=
  _match_buy_loop (2 * length (sell_orders b) + 2) commits b buy_order [].

Definition _match_sell_order (commits : list bool) (b : OrderBook) (sell_order : nat)
    : option (OrderBook * list Trade) :=
  _match_sell_loop (2 * length (buy_orders b) + 2) commits b sell_order [].

(** [MatchingEngine._match_order] *)
Definition _match_order (commits : list bool) (b : OrderBook) (incoming_order : nat)
    : option (OrderBook * list Trade) :=
  match side (node_at (nodes b) incoming_order) with
  | BUY => _match_buy_order commits b incoming_order
  | SELL => _match_sell_order commits b incoming_order
  end.

(** The engine: [order_books] maps a symbol to its book. *)
Record MatchingEngine := mkMatchingEngine {
  order_books : gmap string OrderBook;
}.

Definition MatchingEngine_init : MatchingEngine := mkMatchingEngine ∅.

(** [MatchingEngine.get_order_book]: the book is created on first use. *)
Definition get_order_book (eng : MatchingEngine) (sym : string)
    : OrderBook * MatchingEngine :=
  match order_books eng !! sym with
  | Some ob => (ob, eng)
  | None =>
      (OrderBook_init sym,
       mkMatchingEngine (<[sym := OrderBook_init sym]> (order_books eng)))
  end.

(** Books are values here, so an operation stores the book it changed. *)
Definition put_order_book (eng : MatchingEngine) (sym : string) (ob : OrderBook)
    : MatchingEngine :=
  mkMatchingEngine (<[sym := ob]> (order_books eng)).

(** The [order_data] dict, with its [side] already an [OrderSide]. *)
Record OrderData := mkOrderData {
  od_order_id : string;
  od_user_id : string;
  od_symbol : string;
  od_side : OrderSide;
  od_quantity : Z;
  od_price : Z;
}.

(** [MatchingEngine.submit_order]; [now] is the reading of
    [datetime.utcnow()]. A node rejected by [add_order] is referenced from
    nowhere and is dropped. *)
Definition submit_order (eng : MatchingEngine) (order_data : OrderData) (now : Z)
    (commits : list bool)
    : option ((bool * string * list Trade) * MatchingEngine) :=
  let order_node :=
    mkOrderNode (od_order_id order_data) (od_user_id order_data)
      (od_symbol order_data) (od_side order_data) (od_quantity order_data)
      (od_price order_data) now 0 in
  let '(order_book, eng1) := get_order_book eng (od_symbol order_data) in
  let '(r, ob1) := new_node order_book order_node in
  match add_order ob1 r with
  | (false, _) => Some ((false, "Order already exists", []), eng1)
  | (true, ob2) =>
      '(ob3, executed_trades) ← _match_order commits ob2 r;
      Some ((true, "Order submitted successfully", executed_trades),
            put_order_book eng1 (od_symbol order_data) ob3)
  end.

(** [MatchingEngine.cancel_order]; [db_ok] tells whether the database
    update of the order row goes through (the book is changed before). *)
Definition cancel_order (eng : MatchingEngine) (oid : string) (sym : string)
    (db_ok : bool) : (bool * string) * MatchingEngine :=
  let '(order_book, eng1) := get_order_book eng sym in
  match remove_order order_book oid with
  | (true, ob1) =>
      let eng2 := put_order_book eng1 sym ob1 in
      if db_ok then ((true, "Order cancelled successfully"), eng2)
      else ((false, "Error cancelling order"), eng2)
  | (false, _) => ((false, "Order not found or already filled"), eng1)
  end.

(** [MatchingEngine.modify_order] *)
Definition engine_modify_order (eng : MatchingEngine) (oid : string) (sym : string)
    (new_quantity : Z) (new_price : Z) (now : Z) (db_ok : bool)
    : (bool * string) * MatchingEngine :=
  let '(order_book, eng1) := get_order_book eng sym in
  match modify_order order_book oid new_quantity new_price now with
  | (true, ob1) =>
      let eng2 := put_order_book eng1 sym ob1 in
      if db_ok then ((true, "Order modified successfully"), eng2)
      else ((false, "Error modifying order"), eng2)
  | (false, _) => ((false, "Order not found or already filled"), eng1)
  end.

(** The ['status'] entry computed by [MatchingEngine.get_order_status]. *)
Definition status_of (n : OrderNode) : string :=
  if is_filled n then "FILLED"
  else if (filled_quantity n >? 0)%Z then "PARTIALLY_FILLED"
  else "PENDING".

(** [MatchingEngine.get_order_status]: the node found in the book, with
    the status computed from it, or else the answer of the database.
    [db_order] is what [Order.query.get(order_id)] finds, as the dict that
    [to_dict] makes of it: [None] when there is no such row or the
    session raises. *)
Definition get_order_status {D : Type} (eng : MatchingEngine) (oid : string)
    (sym : string) (db_order : option D)
    : option (OrderNode * string + D) * MatchingEngine :=
  let '(order_book, eng1) := get_order_book eng sym in
  match get_order order_book oid with
  | Some order_node => (Some (inl (order_node, status_of order_node)), eng1)
  | None => (inr <$> db_order, eng1)
  end.

Record MarketData := mkMarketData {
  best_bid : option Z;
  best_ask : option Z;
  market_depth : list (Z * Z) * list (Z * Z);
}.

(** [MatchingEngine.get_market_data]: depth first, then the best prices. *)
Definition get_market_data (eng : MatchingEngine) (sym : string)
    : option (MarketData * MatchingEngine) :=
  let '(order_book, eng1) := get_order_book eng sym in
  '(buy_depth, sell_depth, ob1) ← get_market_depth order_book 10;
  '(bid, ob2) ← get_best_buy_price ob1;
  '(ask, ob3) ← get_best_sell_price ob2;
  Some (mkMarketData bid ask (buy_depth, sell_depth), put_order_book eng1 sym ob3).

(** Requests reaching the engine, with the clock readings and database
    outcomes they meet. *)
Inductive Request :=
  | Submit (order_data : OrderData) (now : Z) (commits : list bool)
  | Cancel (oid : string) (sym : string) (db_ok : bool)
  | Modify (oid : string) (sym : string) (new_quantity : Z) (new_price : Z)
      (now : Z) (db_ok : bool).

Definition handle (eng : MatchingEngine) (req : Request)
    : option (list Trade * MatchingEngine) :=
  match req with
  | Submit order_data now commits =>
      '(res, eng') ← submit_order eng order_data now commits;
      Some (snd res, eng')
  | Cancel oid sym db_ok => Some ([], snd (cancel_order eng oid sym db_ok))
  | Modify oid sym q p now db_ok =>
      Some ([], snd (engine_modify_order eng oid sym q p now db_ok))
  end.

(** A sequence of requests: the trades emitted, in order, and the final
    engine. *)
Fixpoint run (eng : MatchingEngine) (reqs : list Request)
    : option (list Trade * MatchingEngine) :=
  match reqs with
  | [] => Some ([], eng)
  | req :: rest =>
      '(ts, eng') ← handle eng req;
      '(ts', eng'') ← run eng' rest;
      Some (ts ++ ts', eng'')
  end.

(** A row of the [orders] table as [rebuild_from_db] reads it, with its
    [side] already an [OrderSide]; [row_now] is the reading of
    [datetime.utcnow()] taken when the row has no [created_at]. *)
Record OrderRow := mkOrderRow {
  row_id : string;
  row_user_id : string;
  row_symbol : string;
  row_side : OrderSide;
  row_quantity : Z;
  row_price : Z;
  row_created_at : option Z;
  row_filled_quantity : option Z;
  row_now : Z;
}.

(** The node built for a row: [o.created_at or datetime.utcnow()] and
    [o.filled_quantity or 0]. *)
Definition row_node (o : OrderRow) : OrderNode :=
  mkOrderNode (row_id o) (row_user_id o) (row_symbol o) (row_side o)
    (row_quantity o) (row_price o)
    (default (row_now o) (row_created_at o))
    (default 0%Z (row_filled_quantity o)).

(** The body of the loop of [rebuild_from_db]: the result of [add_order]
    is not looked at. *)
Definition rebuild_row (eng : MatchingEngine) (o : OrderRow) : MatchingEngine :=
  let '(ob, eng1) := get_order_book eng (row_symbol o) in
  let '(r, ob1) := new_node ob (row_node o) in
  match add_order ob1 r with
  | (true, ob2) => put_order_book eng1 (row_symbol o) ob2
  | (false, _) => eng1
  end.

Fixpoint rebuild_loop (eng : MatchingEngine) (count : nat) (active_orders : list OrderRow)
    : nat * MatchingEngine :=
  match active_orders with
  | [] => (count, eng)
  | o :: rest => rebuild_loop (rebuild_row eng o) (S count) rest
  end.

(** [MatchingEngine.rebuild_from_db] on the rows the query returns. *)
Definition rebuild_from_db (eng : MatchingEngine) (active_orders : list OrderRow)
    : nat * MatchingEngine :=
  rebuild_loop eng 0 active_orders.

(** ** Notions used in the statements *)

(** The reference [r] is allocated and its node is on side [s]. *)
Definition on_side (store : list OrderNode) (s : OrderSide) (r : nat) : Prop :=
  r < length store ∧ side (node_at store r) = s.

(** A book as the operations build it: each heap holds allocated nodes of
    its own side, in heap order for [__lt__]. *)
Record book_wf (b : OrderBook) : Prop := mk_book_wf {
  wf_buy_side : Forall (on_side (nodes b) BUY) (buy_orders b);
  wf_sell_side : Forall (on_side (nodes b) SELL) (sell_orders b);
  wf_buy_heap : heapq.heap_ok (ref_lt (nodes b)) (buy_orders b);
  wf_sell_heap : heapq.heap_ok (ref_lt (nodes b)) (sell_orders b);
}.

(** [x] comes strictly before [r] in price-time priority: a better price
    (higher for a bid, lower for an ask), or the same price and an earlier
    timestamp. *)
Definition priority_over (x r : OrderNode) : Prop :=
  match side x with
  | BUY => (price r < price x)%Z
  | SELL => (price x < price r)%Z
  end
  ∨ (price x = price r ∧ (timestamp x < timestamp r)%Z).

(** The heap an incoming order of side [s] is matched against. *)
Definition opp_orders (s : OrderSide) (b : OrderBook) : list nat :=
  match s with
  | BUY => sell_orders b
  | SELL => buy_orders b
  end.

Definition own_orders (s : OrderSide) (b : OrderBook) : list nat :=
  match s with
  | BUY => buy_orders b
  | SELL => sell_orders b
  end.

Definition with_opp_orders (s : OrderSide) (b : OrderBook) (h : list nat) : OrderBook :=
  match s with
  | BUY => with_sell_orders b h
  | SELL => with_buy_orders b h
  end.

Definition opposite (s : OrderSide) : OrderSide :=
  match s with
  | BUY => SELL
  | SELL => BUY
  end.

(** The crossing tests of the two loops. *)
Definition crosses (s : OrderSide) (resting incoming : OrderNode) : bool :=
  match s with
  | BUY => (price resting <=? price incoming)%Z
  | SELL => (price resting >=? price incoming)%Z
  end.

(** [_execute_trade(buy_order, sell_order, ...)] with the incoming order
    on side [s]. *)
Definition execute_for (s : OrderSide) (ok : bool) (incoming resting : OrderNode)
    (q p : Z) : option Trade :=
  match s with
  | BUY => _execute_trade ok incoming resting q p
  | SELL => _execute_trade ok resting incoming q p
  end.

(** Quantity of the trade between the incoming order and the order on
    top of the opposite heap. *)
Definition trade_qty (b : OrderBook) (incoming resting : nat) : Z :=
  Z.min (remaining_quantity (node_at (nodes b) incoming))
        (remaining_quantity (node_at (nodes b) resting)).

(** The two updates [x.filled_quantity += trade_quantity], the incoming
    order first. *)
Definition fill_pair (b : OrderBook) (incoming resting : nat) : OrderBook :=
  let q := trade_qty b incoming resting in
  let b1 := store_filled b incoming
    (filled_quantity (node_at (nodes b) incoming) + q)%Z in
  store_filled b1 resting (filled_quantity (node_at (nodes b1) resting) + q)%Z.

(** One iteration of either matching loop, for an incoming order of side
    [s]: [None] when the loop condition fails. *)
Definition match_step (s : OrderSide) (commits : list bool) (b : OrderBook)
    (incoming : nat) (executed_trades : list Trade)
    : option (list bool * OrderBook * list Trade) :=
  if negb (is_filled (node_at (nodes b) incoming)) then
    match opp_orders s b with
    | [] => None
    | resting :: _ =>
        if crosses s (node_at (nodes b) resting) (node_at (nodes b) incoming) then
          if is_filled (node_at (nodes b) resting) then
            match heapq.heappop (ref_lt (nodes b)) (opp_orders s b) with
            | Some (_, h) => Some (commits, with_opp_orders s b h, executed_trades)
            | None => None
            end
          else
            let '(ok, commits') := next_commit commits in
            let executed_trades' :=
              append_trade executed_trades
                (execute_for s ok (node_at (nodes b) incoming)
                   (node_at (nodes b) resting) (trade_qty b incoming resting)
                   (price (node_at (nodes b) resting))) in
            let b2 := fill_pair b incoming resting in
            if is_filled (node_at (nodes b2) resting) then
              match heapq.heappop (ref_lt (nodes b2)) (opp_orders s b2) with
              | Some (_, h) => Some (commits', with_opp_orders s b2 h, executed_trades')
              | None => None
              end
            else Some (commits', b2, executed_trades')
        else None
    end
  else None.

(** The loop as iterated steps. *)
Fixpoint match_loop (s : OrderSide) (fuel : nat) (commits : list bool)
    (b : OrderBook) (incoming : nat) (executed_trades : list Trade)
    : option (OrderBook * list Trade) :=
  match fuel with
  | O => None
  | S fuel' =>
      match match_step s commits b incoming executed_trades with
      | None => Some (b, executed_trades)
      | Some (commits', b', executed_trades') =>
          match_loop s fuel' commits' b' incoming executed_trades'
      end
  end.

(** Sum of [filled_quantity] over the nodes of side [s]. *)
Definition filled_on (s : OrderSide) (store : list OrderNode) : Z :=
  foldr (fun n acc => if decide (side n = s) then (filled_quantity n + acc)%Z else acc)
    0%Z store.

(** Every database transaction of the call goes through. *)
Definition journaled (commits : list bool) : Prop :=
  Forall (λ ok, ok = true) commits.

(** Total quantity of a list of trades. *)
Definition volume (ts : list Trade) : Z :=
  foldr (fun t acc => (trade_quantity t + acc)%Z) 0%Z ts.

(** [t] is a trade between the incoming order of side [s] and the resting
    order [resting] of the opposite heap of [b], at the resting order's
    price. *)
Definition passive_trade (s : OrderSide) (b : OrderBook) (incoming resting : nat)
    (t : Trade) : Prop :=
  resting ∈ opp_orders s b
  ∧ crosses s (node_at (nodes b) resting) (node_at (nodes b) incoming) = true
  ∧ trade_price t = price (node_at (nodes b) resting)
  ∧ match s with
    | BUY => buy_order_id t = order_id (node_at (nodes b) incoming)
             ∧ sell_order_id t = order_id (node_at (nodes b) resting)
             ∧ trade_symbol t = symbol (node_at (nodes b) incoming)
    | SELL => sell_order_id t = order_id (node_at (nodes b) incoming)
              ∧ buy_order_id t = order_id (node_at (nodes b) resting)
              ∧ trade_symbol t = symbol (node_at (nodes b) resting)
    end.

(** The pair a depth query lists for the node referenced by [r]. *)
Definition depth_entry (store : list OrderNode) (r : nat) : Z * Z :=
  (price (node_at store r), remaining_quantity (node_at store r)).

(** The node referenced by [r] still has quantity to trade. *)
Definition live (store : list OrderNode) (r : nat) : Prop :=
  is_filled (node_at store r) = false.

(** [popped] are the successive results of [heappop] on [heap], leaving
    [heap']. *)
Inductive pops (store : list OrderNode) : list nat → list nat → list nat → Prop :=
  | pops_nil heap : pops store heap [] heap
  | pops_cons heap x heap1 popped heap' :
      heapq.heappop (ref_lt store) heap = Some (x, heap1) →
      pops store heap1 popped heap' →
      pops store heap (x :: popped) heap'.

(** The cases of [match_step]: a filled node is popped from the top, or
    the top is traded against, and popped when it got filled. *)
Inductive step_case (s : OrderSide) (b : OrderBook) (incoming : nat)
    : OrderBook → Prop :=
  | step_ghost resting rest x h :
      opp_orders s b = resting :: rest →
      is_filled (node_at (nodes b) incoming) = false →
      crosses s (node_at (nodes b) resting) (node_at (nodes b) incoming) = true →
      is_filled (node_at (nodes b) resting) = true →
      heapq.heappop (ref_lt (nodes b)) (opp_orders s b) = Some (x, h) →
      step_case s b incoming (with_opp_orders s b h)
  | step_trade resting rest :
      opp_orders s b = resting :: rest →
      is_filled (node_at (nodes b) incoming) = false →
      crosses s (node_at (nodes b) resting) (node_at (nodes b) incoming) = true →
      is_filled (node_at (nodes b) resting) = false →
      is_filled (node_at (nodes (fill_pair b incoming resting)) resting) = false →
      step_case s b incoming (fill_pair b incoming resting)
  | step_trade_pop resting rest x h :
      opp_orders s b = resting :: rest →
      is_filled (node_at (nodes b) incoming) = false →
      crosses s (node_at (nodes b) resting) (node_at (nodes b) incoming) = true →
      is_filled (node_at (nodes b) resting) = false →
      is_filled (node_at (nodes (fill_pair b incoming resting)) resting) = true →
      heapq.heappop (ref_lt (nodes (fill_pair b incoming resting)))
        (opp_orders s (fill_pair b incoming resting)) = Some (x, h) →
      step_case s b incoming (with_opp_orders s (fill_pair b incoming resting) h).

(** The measure that decreases along the matching loop. *)
Definition loop_measure (s : OrderSide) (b : OrderBook) (incoming : nat) : nat :=
  2 * length (opp_orders s b)
  + (if is_filled (node_at (nodes b) incoming) then 0 else 1).

(** What an iteration of the loop for an incoming order of side [s] leaves
    unchanged between [b] and [b']. *)
Record step_frame (s : OrderSide) (b b' : OrderBook) : Prop := mk_step_frame {
  frame_length : length (nodes b') = length (nodes b);
  frame_order_id : ∀ r, order_id (node_at (nodes b') r) = order_id (node_at (nodes b) r);
  frame_node_symbol : ∀ r, symbol (node_at (nodes b') r) = symbol (node_at (nodes b) r);
  frame_side : ∀ r, side (node_at (nodes b') r) = side (node_at (nodes b) r);
  frame_quantity : ∀ r, quantity (node_at (nodes b') r) = quantity (node_at (nodes b) r);
  frame_price : ∀ r, price (node_at (nodes b') r) = price (node_at (nodes b) r);
  frame_timestamp : ∀ r,
    timestamp (node_at (nodes b') r) = timestamp (node_at (nodes b) r);
  frame_filled : ∀ r,
    (filled_quantity (node_at (nodes b) r) ≤ filled_quantity (node_at (nodes b') r))%Z;
  frame_opp : opp_orders s b' ⊆ opp_orders s b;
  frame_own : own_orders s b' = own_orders s b;
  frame_index : orders_by_id b' = orders_by_id b;
  frame_symbol : book_symbol b' = book_symbol b;
}.

(** The state of the loop started in [b0]: what left the opposite heap is
    filled, and an order that received a fill has every order that comes
    before it filled. *)
Record prio_inv (s : OrderSide) (b0 b : OrderBook) : Prop := mk_prio_inv {
  pi_wf : book_wf b;
  pi_frame : step_frame s b0 b;
  pi_popped : ∀ x, x ∈ opp_orders s b0 → x ∉ opp_orders s b →
    is_filled (node_at (nodes b) x) = true;
  pi_prio : ∀ r x, r ∈ opp_orders s b0 → x ∈ opp_orders s b0 →
    filled_quantity (node_at (nodes b) r) ≠ filled_quantity (node_at (nodes b0) r) →
    ref_lt (nodes b0) x r = true →
    is_filled (node_at (nodes b) x) = true;
}.

#[global] Instance live_dec store r : Decision (live store r).
Proof. unfold live. apply _. Defined.

(** The node [modify_order] builds in place of [order]. *)
Definition replacement_node (order : OrderNode) (new_quantity new_price now : Z)
    : OrderNode :=
  mkOrderNode (order_id order) (user_id order) (symbol order) (side order)
    new_quantity new_price now 0.

(** ** Invariants of the books of an engine *)

(** The book kept under the key [sym]: it is well formed, its nodes carry
    the symbol, an id of the index designates a node carrying that id, and
    a node with quantity left to trade is the one its id designates. *)
Record book_inv (sym : string) (b : OrderBook) : Prop := mk_book_inv {
  inv_wf : book_wf b;
  inv_symbol : ∀ r, r < length (nodes b) → symbol (node_at (nodes b) r) = sym;
  inv_index_ids : ∀ oid r, orders_by_id b !! oid = Some r →
    r < length (nodes b) ∧ order_id (node_at (nodes b) r) = oid;
  inv_index_live : ∀ r, live (nodes b) r →
    orders_by_id b !! order_id (node_at (nodes b) r) = Some r;
}.

Definition engine_inv (eng : MatchingEngine) : Prop :=
  ∀ sym b, order_books eng !! sym = Some b → book_inv sym b.

(** Sum of [filled_quantity] over the orders of side [s] for [sym]; a
    symbol without a book has no orders. *)
Definition book_filled (s : OrderSide) (eng : MatchingEngine) (sym : string) : Z :=
  match order_books eng !! sym with
  | Some b => filled_on s (nodes b)
  | None => 0%Z
  end.

(** Total quantity of the trades of [sym]. *)
Definition symbol_volume (sym : string) (ts : list Trade) : Z :=
  volume (filter (λ t, trade_symbol t = sym) ts).

Definition is_submit (req : Request) : Prop :=
  match req with
  | Submit _ _ _ => True
  | _ => False
  end.

(** A request all of whose database transactions go through. *)
Definition journaled_request (req : Request) : Prop :=
  match req with
  | Submit _ _ commits => journaled commits
  | Cancel _ _ db_ok => db_ok = true
  | Modify _ _ _ _ _ db_ok => db_ok = true
  end.

(** ** Scenarios on the symbol [X] *)

Definition limit_order (oid : string) (s : OrderSide) (q p : Z) : OrderData :=
  mkOrderData oid "u" "X" s q p.

(** A bid at 90 rests below an ask at 100 and is then modified to 110. *)
Definition crossing_modify : list Request :=
  [Submit (limit_order "s1" SELL 5 100) 1 [];
   Submit (limit_order "b1" BUY 5 90) 2 [];
   Modify "b1" "X" 5 110 3 true].

(** A bid and an ask of the same quantity trade in full. *)
Definition filled_pair : list Request :=
  [Submit (limit_order "b1" BUY 5 100) 1 [];
   Submit (limit_order "s1" SELL 5 100) 2 []].

(** Two bids rest at the same price. *)
Definition two_bids : list Request :=
  [Submit (limit_order "b1" BUY 5 100) 1 [];
   Submit (limit_order "b2" BUY 7 100) 2 []].

(** Two asks rest at 100, the second one later; a third rests at 101. *)
Definition three_asks : list Request :=
  [Submit (limit_order "s1" SELL 5 100) 1 [];
   Submit (limit_order "s2" SELL 5 100) 2 [];
   Submit (limit_order "s3" SELL 5 101) 3 []].

(** An ask rests alone. *)
Definition resting_ask : list Request :=
  [Submit (limit_order "s1" SELL 5 100) 1 []].

(** A bid of 10 is filled for 4. *)
Definition partial_fill : list Request :=
  [Submit (limit_order "b1" BUY 10 100) 1 [];
   Submit (limit_order "s1" SELL 4 100) 2 []].

(** A resting bid is cancelled. *)
Definition cancelled_bid : list Request :=
  [Submit (limit_order "b1" BUY 5 100) 1 [];
   Cancel "b1" "X" true].

(** The engine and the book of [X] after a sequence of requests. *)
Definition engine_after (reqs : list Request) : MatchingEngine :=
  default MatchingEngine_init (snd <$> run MatchingEngine_init reqs).

Definition book_after (reqs : list Request) : OrderBook :=
  default (OrderBook_init "X") (order_books (engine_after reqs) !! "X").

(** The book of [three_asks] with a bid of 7 at 100 entered as node 3, as
    [submit_order] hands it to the matching loop. *)
Definition bid_on_three_asks : OrderBook :=
  (add_order
     (new_node (book_after three_asks) (mkOrderNode "b1" "u" "X" BUY 7 100 4 0)).2
     3).2.

(** ** Further notions *)

(** No bid with quantity left is priced at or above an ask with quantity
    left. *)
Definition uncrossed (b : OrderBook) : Prop :=
  ∀ x y, x ∈ buy_orders b → y ∈ sell_orders b →
    live (nodes b) x → live (nodes b) y →
    (price (node_at (nodes b) x) < price (node_at (nodes b) y))%Z.

(** The same, seen from side [s]: no order of the opposite heap crosses
    an order of the own heap. *)
Definition uncrossed_for (s : OrderSide) (b : OrderBook) : Prop :=
  ∀ x y, x ∈ own_orders s b → y ∈ opp_orders s b →
    live (nodes b) x → live (nodes b) y →
    crosses s (node_at (nodes b) y) (node_at (nodes b) x) = false.

Definition engine_uncrossed (eng : MatchingEngine) : Prop :=
  ∀ sym b, order_books eng !! sym = Some b → uncrossed b.

Definition is_modify (req : Request) : bool :=
  match req with
  | Modify _ _ _ _ _ _ => true
  | _ => false
  end.

(** The filled quantity of [n] is between 0 and its quantity. *)
Definition fill_bounded (n : OrderNode) : Prop :=
  (0 ≤ filled_quantity n ≤ quantity n)%Z.

(** The quantities a request brings in are not negative. *)
Definition request_quantity_ok (req : Request) : Prop :=
  match req with
  | Submit order_data _ _ => (0 ≤ od_quantity order_data)%Z
  | Cancel _ _ _ => True
  | Modify _ _ new_quantity _ _ _ => (0 ≤ new_quantity)%Z
  end.

Definition engine_bounded (eng : MatchingEngine) : Prop :=
  ∀ sym b, order_books eng !! sym = Some b → Forall fill_bounded (nodes b).

(** The filled nodes of [store] are in [store'] as they are in [store]. *)
Definition keeps_filled (store store' : list OrderNode) : Prop :=
  ∀ r n, store !! r = Some n → is_filled n = true → store' !! r = Some n.

Definition engine_keeps_filled (eng eng' : MatchingEngine) : Prop :=
  ∀ sym b, order_books eng !! sym = Some b →
    ∃ b', order_books eng' !! sym = Some b' ∧ keeps_filled (nodes b) (nodes b').

(** [req] cancels the id [oid] on the book of [sym]. *)
Definition cancels (oid sym : string) (req : Request) : bool :=
  match req with
  | Cancel oid' sym' _ => bool_decide (oid' = oid ∧ sym' = sym)
  | _ => false
  end.

(** The id [oid] is in the id index of the book of [sym]. *)
Definition indexed (eng : MatchingEngine) (sym oid : string) : Prop :=
  ∃ b r, order_books eng !! sym = Some b ∧ orders_by_id b !! oid = Some r.

(** The node [submit_order] builds from [order_data]. *)
Definition submitted_node (order_data : OrderData) (now : Z) : OrderNode :=
  mkOrderNode (od_order_id order_data) (od_user_id order_data)
    (od_symbol order_data) (od_side order_data) (od_quantity order_data)
    (od_price order_data) now 0.

(** What a trade made for the submitted order shows: a quantity above
    zero, the symbol and the id of the order on its side, and a price
    within the limit of the order. *)
Definition trade_of (order_data : OrderData) (t : Trade) : Prop :=
  (0 < trade_quantity t)%Z
  ∧ trade_symbol t = od_symbol order_data
  ∧ match od_side order_data with
    | BUY => buy_order_id t = od_order_id order_data
             ∧ (trade_price t ≤ od_price order_data)%Z
    | SELL => sell_order_id t = od_order_id order_data
              ∧ (od_price order_data ≤ trade_price t)%Z
    end.

(** An ask rests at 100 and a bid at 90. *)
Definition resting_spread : list Request :=
  [Submit (limit_order "s1" SELL 5 100) 1 [];
   Submit (limit_order "b1" BUY 5 90) 2 []].

(** No heap holds a node twice, and every node with quantity left is in
    the heap of its side. *)
Record book_full (b : OrderBook) : Prop := mk_book_full {
  full_nodup : ∀ s, NoDup (own_orders s b);
  full_live : ∀ r, live (nodes b) r → r ∈ own_orders (side (node_at (nodes b) r)) b;
}.

Definition engine_full (eng : MatchingEngine) : Prop :=
  ∀ sym b, order_books eng !! sym = Some b → book_full b.

(** The id [oid] designates the node [n] in the book of [sym]. *)
Definition holds (eng : MatchingEngine) (sym oid : string) (n : OrderNode) : Prop :=
  ∃ b r, order_books eng !! sym = Some b ∧ orders_by_id b !! oid = Some r
    ∧ nodes b !! r = Some n.

(** Two rows of the [orders] table: a bid filled for 2 and an ask that
    has no [created_at]. *)
Definition two_rows : list OrderRow :=
  [mkOrderRow "b1" "u" "X" BUY 5 90 (Some 1%Z) (Some 2%Z) 7;
   mkOrderRow "s1" "v" "X" SELL 5 100 None None 8].

(** [req] submits the id [oid] for the book of [sym]. *)
Definition submits (oid sym : string) (req : Request) : Prop :=
  match req with
  | Submit order_data _ _ => od_order_id order_data = oid ∧ od_symbol order_data = sym
  | _ => False
  end.

(** Among [reqs] there is a submit of [oid] for [sym] that no later
    request cancels. *)
Definition submitted_not_cancelled (oid sym : string) (reqs : list Request) : Prop :=
  ∃ reqs1 req reqs2,
    reqs = reqs1 ++ req :: reqs2
    ∧ submits oid sym req
    ∧ Forall (λ req', cancels oid sym req' = false) reqs2.

(** The book refers to the node [r], from a heap or from the id index. *)
Definition referenced (b : OrderBook) (r : nat) : Prop :=
  r ∈ buy_orders b ∨ r ∈ sell_orders b ∨ ∃ oid, orders_by_id b !! oid = Some r.

(** Four asks are accepted at the same price with the same clock
    reading. *)
Definition tied_asks : list Request :=
  [Submit (limit_order "s1" SELL 5 100) 1 [];
   Submit (limit_order "s2" SELL 5 100) 1 [];
   Submit (limit_order "s3" SELL 5 100) 1 [];
   Submit (limit_order "s4" SELL 5 100) 1 []].

(** * Facts about [heapq] *)

Module heapq_facts.
Import heapq.

Lemma parentpos_of_div2 pos : parentpos_of pos = (pos - 1) / 2.
Proof. unfold parentpos_of. simpl. apply Nat.div2_div. Qed.

Lemma parentpos_is_child pos : 0 < pos → is_child (parentpos_of pos) pos.
Proof.
rewrite parentpos_of_div2. unfold is_child. intros Hpos.
pose proof (Nat.div_mod_eq (pos - 1) 2).
pose proof (Nat.mod_upper_bound (pos - 1) 2). lia.
Qed.

Lemma is_child_parentpos i j : is_child i j → parentpos_of j = i ∧ i < j.
Proof.
rewrite parentpos_of_div2. unfold is_child. intros Hc.
pose proof (Nat.div_mod_eq (j - 1) 2).
pose proof (Nat.mod_upper_bound (j - 1) 2). lia.
Qed.

(** ** The heap functions permute their array *)
Section perm.
Context {A : Type} (lt : A → A → bool).
Implicit Types (h : list A) (x y : A).

Lemma move_up_perm h q x y :
  h !! q = Some y → y :: <[q := x]> h ≡ₚ x :: h.
Proof.
  revert q. induction h as [|a h IH]; intros [|q] Hq; simplify_eq/=.
  - apply Permutation_swap.
  - etrans; [apply Permutation_swap|].
    etrans; [apply perm_skip, (IH _ Hq)|]. apply Permutation_swap.
Qed.

(** Copying the item at [q] into the hole at [p] moves the hole to [q]. *)
Lemma hole_move_perm h p q x y :
  p < length h → h !! q = Some y →
  <[q := x]> (<[p := y]> h) ≡ₚ <[p := x]> h.
Proof.
  revert p q. induction h as [|a h IH]; intros p q Hp Hq; [simpl in Hp; lia|].
  destruct p as [|p], q as [|q]; simplify_eq/=.
  - done.
  - by apply move_up_perm.
  - rewrite <-(list_insert_insert_eq h p y x).
    apply move_up_perm. rewrite list_lookup_insert_eq; [done | lia].
  - f_equiv. apply IH; [lia | done].
Qed.

Lemma _siftdown_loop_perm fuel h startpos pos x :
  pos < length h →
  _siftdown_loop lt fuel h startpos pos x ≡ₚ <[pos := x]> h.
Proof.
  revert h pos. induction fuel as [|fuel IH]; intros h pos Hpos; simpl; [done|].
  case_decide; [|done].
  destruct (h !! parentpos_of pos) as [parent|] eqn:Hpar; [|done].
  destruct (lt x parent); [|done].
  rewrite IH.
  - by apply hole_move_perm.
  - rewrite length_insert. by eapply lookup_lt_Some.
Qed.

Lemma _siftdown_perm h startpos pos : _siftdown lt h startpos pos ≡ₚ h.
Proof.
  unfold _siftdown. destruct (h !! pos) as [x|] eqn:Hx; [|done].
  rewrite _siftdown_loop_perm by (by eapply lookup_lt_Some).
  by rewrite list_insert_id.
Qed.

Lemma heappush_perm h x : heappush lt h x ≡ₚ x :: h.
Proof.
  unfold heappush. rewrite _siftdown_perm.
  by rewrite Permutation_app_comm.
Qed.

Lemma _siftup_loop_perm fuel h endpos pos h' pos' :
  pos < length h →
  _siftup_loop lt fuel h endpos pos = (h', pos') →
  pos' < length h' ∧ ∀ x, <[pos' := x]> h' ≡ₚ <[pos := x]> h.
Proof.
  revert h pos. induction fuel as [|fuel IH]; intros h pos Hpos Hloop;
    cbn [_siftup_loop] in Hloop; [by simplify_eq|].
  case_decide; [|by simplify_eq].
  destruct (h !! smaller_child lt h endpos (2 * pos + 1)) as [c|] eqn:Hc;
    [|by simplify_eq].
  apply IH in Hloop as [Hlt Hperm].
  - split; [done|]. intros x. rewrite Hperm. by apply hole_move_perm.
  - rewrite length_insert. by eapply lookup_lt_Some.
Qed.

Lemma _siftup_perm h pos : _siftup lt h pos ≡ₚ h.
Proof.
  unfold _siftup. destruct (h !! pos) as [x|] eqn:Hx; [|done].
  destruct (_siftup_loop lt (length h) h (length h) pos) as [h' pos'] eqn:Hloop.
  apply _siftup_loop_perm in Hloop as [_ Hperm]; [|by eapply lookup_lt_Some].
  rewrite _siftdown_perm, Hperm. by rewrite list_insert_id.
Qed.

Lemma heappop_Some h x h' : heappop lt h = Some (x, h') → head h = Some x ∧ h ≡ₚ x :: h'.
Proof.
  unfold heappop. destruct (last h) as [lastelt|] eqn:Hlast; [|done].
  apply last_Some in Hlast as [l ->].
  rewrite removelast_last.
  destruct l as [|r l]; intros ?; simplify_eq/=; [done|].
  split; [done|]. rewrite _siftup_perm. simpl.
  by rewrite <-Permutation_cons_append.
Qed.

Lemma heappop_None h : heappop lt h = None ↔ h = [].
Proof.
  unfold heappop. split; [|by intros ->].
  destruct (last h) eqn:Hlast.
  - by destruct (removelast h).
  - intros _. by apply last_None.
Qed.

Lemma heappop_is_Some h : h ≠ [] → is_Some (heappop lt h).
Proof.
  intros Hne. destruct (heappop lt h) eqn:Hpop; [done|].
  by apply heappop_None in Hpop.
Qed.

Lemma heappop_length h x h' : heappop lt h = Some (x, h') → length h = S (length h').
Proof. intros [_ Hperm]%heappop_Some. by rewrite Hperm. Qed.

Lemma foldl_heappush_perm h l : foldl (heappush lt) h l ≡ₚ h ++ l.
Proof.
  revert h. induction l as [|a l IH]; intros h; simpl.
  - by rewrite app_nil_r.
  - rewrite IH, heappush_perm. simpl. apply Permutation_middle.
Qed.
End perm.

(** ** The heap functions keep the heap order

  [P] describes the items the heap holds (here: the nodes of one side);
  on them [lt] is asymmetric and its complement is transitive. *)
Section order.
Context {A : Type} (lt : A → A → bool) (P : A → Prop).
Hypothesis lt_asym : ∀ a b, P a → P b → lt a b = true → lt b a = false.
Hypothesis le_trans : ∀ a b c, P a → P b → P c →
  lt b a = false → lt c b = false → lt c a = false.
Implicit Types (h : list A) (x y : A).

Local Abbreviation heap_ok := (heap_ok lt).
Local Abbreviation hole_ok := (hole_ok lt).

Lemma lt_irrefl x : P x → lt x x = false.
Proof. intros Hx. destruct (lt x x) eqn:E; [|done]. by rewrite (lt_asym x x) in E. Qed.

Lemma lt_le x y : P x → P y → lt x y = true → lt y x = false.
Proof. apply lt_asym. Qed.

Local Ltac idx := exfalso; unfold is_child in *; lia.
Local Ltac ne := first [assumption | congruence | unfold is_child in *; lia].

Local Ltac look :=
  repeat match goal with
  | H : <[_ := _]> _ !! _ = Some _ |- _ =>
      apply list_lookup_insert_Some in H as [(? & ? & ?)|[? ?]]
  | H : Forall P ?h, H' : ?h !! _ = Some ?x |- _ =>
      lazymatch goal with
      | _ : P x |- _ => fail
      | _ => pose proof (Forall_lookup_1 _ _ _ _ H H')
      end
  end.

(** Uses of the two halves of [hole_ok] and of the heap order. *)
Local Ltac by_pairs H1 := eapply H1; [| | |eassumption|eassumption]; ne.
Local Ltac by_around H2 := eapply H2; [| |eassumption|eassumption]; ne.
Local Ltac by_ok Hok := eapply Hok; [|eassumption|eassumption]; ne.
Local Ltac by_one H := eapply H; [|eassumption]; ne.
Local Ltac by_trans z :=
  match goal with
  | |- lt ?y ?x = false => apply (le_trans x z y); [assumption|assumption|assumption| |]
  end.

Lemma heap_ok_hole h p : Forall P h → heap_ok h → hole_ok h p.
Proof.
  intros HP Hok. split.
  { intros i j x y Hc _ _ Hx Hy. by_ok Hok. }
  intros g c x y Hg Hc Hx Hy.
  destruct (lookup_lt_is_Some_2 h p) as [z Hz].
  { apply lookup_lt_Some in Hy. unfold is_child in *. lia. }
  look. by_trans z; by_ok Hok.
Qed.

Lemma hole_ok_insert h p x : hole_ok h p → hole_ok (<[p := x]> h) p.
Proof.
  intros [H1 H2]. split.
  - intros i j x' y' Hc Hi Hj Hx Hy. look; simplify_eq. by_pairs H1.
  - intros g c x' y' Hg Hc Hx Hy.
    look; simplify_eq; try idx. by_around H2.
Qed.

(** Filling the hole with an item between its parent and its children. *)
Lemma fill_ok h p x :
  hole_ok h p →
  (∀ g y, is_child g p → h !! g = Some y → lt x y = false) →
  (∀ c y, is_child p c → h !! c = Some y → lt y x = false) →
  heap_ok (<[p := x]> h).
Proof.
  intros [H1 H2] Hup Hdown i j x' y' Hc Hx Hy.
  look; simplify_eq; try idx.
  all: first [by_one Hdown | by_one Hup | by_pairs H1].
Qed.

Lemma _siftdown_loop_ok fuel h p x :
  Forall P h → P x → p < length h → p ≤ fuel →
  hole_ok h p →
  (∀ c y, is_child p c → h !! c = Some y → lt y x = false) →
  heap_ok (_siftdown_loop lt fuel h 0 p x).
Proof.
  revert h p. induction fuel as [|fuel IH]; intros h p HP Hx Hp Hfuel Hhole Hdown.
  { simpl. apply fill_ok; [done| |done].
    intros g y Hg. idx. }
  cbn [_siftdown_loop]. case_decide as Hpos.
  2:{ apply fill_ok; [done| |done]. intros g y Hg. idx. }
  pose proof (parentpos_is_child p Hpos) as Hpc.
  destruct (h !! parentpos_of p) as [parent|] eqn:Hpar.
  2:{ apply lookup_ge_None in Hpar. idx. }
  pose proof (Forall_lookup_1 _ _ _ _ HP Hpar) as HPpar.
  destruct (lt x parent) eqn:Hlt.
  2:{ apply fill_ok; [done| |done]. intros g y Hg Hy.
      apply is_child_parentpos in Hg as [<- _]. by simplify_eq. }
  destruct Hhole as [H1 H2].
  assert (parentpos_of p < p) as Hlt_p by (unfold is_child in Hpc; lia).
  apply IH.
  - by apply Forall_insert.
  - done.
  - rewrite length_insert. lia.
  - lia.
  - split.
    + intros i j x' y' Hc Hi Hj Hx' Hy'.
      look; simplify_eq; try idx.
      * by_around H2.
      * by_pairs H1.
    + intros g c x' y' Hg Hc Hx' Hy'.
      look; simplify_eq; try idx.
      * by_pairs H1.
      * by_trans parent; by_pairs H1.
  - intros c y Hc Hy. look; simplify_eq; try idx.
    + by apply lt_asym.
    + by_trans parent; [by apply lt_asym|by_pairs H1].
Qed.

Lemma smaller_child_spec h p :
  Forall P h → 2 * p + 1 < length h →
  let cp := smaller_child lt h (length h) (2 * p + 1) in
  is_child p cp ∧ cp < length h
  ∧ ∀ s x y, is_child p s → h !! cp = Some x → h !! s = Some y → lt y x = false.
Proof.
  intros HP Hlen. unfold smaller_child.
  destruct (lookup_lt_is_Some_2 h (2 * p + 1)) as [child Hchild]; [done|].
  rewrite Hchild. look.
  assert (∀ s, is_child p s → s = 2 * p + 1 ∨ s = 2 * p + 1 + 1) as Hcases
    by (unfold is_child; lia).
  case_decide as Hr.
  - destruct (lookup_lt_is_Some_2 h (2 * p + 1 + 1)) as [r Hright]; [done|].
    rewrite Hright. look.
    destruct (lt child r) eqn:Hlt; cbn [negb].
    + split; [left; lia|]. split; [done|].
      intros s x y [->| ->]%Hcases Hx Hy; simplify_eq.
      * by apply lt_irrefl.
      * by apply lt_asym.
    + split; [right; lia|]. split; [done|].
      intros s x y [->| ->]%Hcases Hx Hy; simplify_eq.
      * done.
      * by apply lt_irrefl.
  - split; [left; lia|]. split; [done|].
    intros s x y [->| ->]%Hcases Hx Hy; simplify_eq.
    + by apply lt_irrefl.
    + apply lookup_lt_Some in Hy. lia.
Qed.

Lemma _siftup_loop_ok fuel h endpos p h' p' :
  Forall P h → endpos = length h → p < length h → length h - p ≤ fuel →
  hole_ok h p →
  _siftup_loop lt fuel h endpos p = (h', p') →
  Forall P h' ∧ p' < length h' ∧ hole_ok h' p'
  ∧ ∀ c, is_child p' c → length h' ≤ c.
Proof.
  intros HP ->. revert h p HP.
  induction fuel as [|fuel IH]; intros h p HP Hp Hfuel Hhole Hloop; [lia|].
  cbn [_siftup_loop] in Hloop. case_decide as Hchild.
  2:{ simplify_eq. split; [done|]. split; [done|]. split; [done|].
      intros c Hc. unfold is_child in Hc. lia. }
  destruct (smaller_child_spec h p HP Hchild) as (Hcp & Hcplt & Hmin).
  set (cp := smaller_child lt h (length h) (2 * p + 1)) in *.
  destruct (lookup_lt_is_Some_2 h _ Hcplt) as [c Hc].
  rewrite Hc in Hloop.
  pose proof (Forall_lookup_1 _ _ _ _ HP Hc) as HPc.
  destruct Hhole as [H1 H2].
  assert (p < cp) as Hlt_p by (unfold is_child in Hcp; lia).
  assert (length (<[p := c]> h) = length h) as Hlen by apply length_insert.
  rewrite <-Hlen in Hloop.
  apply IH in Hloop; [done|by apply Forall_insert|lia|lia|].
  split.
  - intros i j x' y' Hch Hi Hj Hx' Hy'.
    look; simplify_eq; try idx.
    all: first [by_ok Hmin | by_around H2 | by_pairs H1].
  - intros g cc x' y' Hg Hcc Hx' Hy'.
    look; simplify_eq; try idx.
    by_pairs H1.
Qed.

Lemma _siftup_ok h :
  Forall P h → hole_ok h 0 → heap_ok (_siftup lt h 0).
Proof.
  intros HP Hhole. unfold _siftup.
  destruct (h !! 0) as [x|] eqn:Hx.
  2:{ destruct h; [|done]. by intros i j x y _ ?. }
  pose proof (Forall_lookup_1 _ _ _ _ HP Hx) as HPx.
  destruct (_siftup_loop lt (length h) h (length h) 0) as [h' p'] eqn:Hloop.
  apply _siftup_loop_ok in Hloop as (HP' & Hp' & Hhole' & Hleaf);
    [|done|done|by eapply lookup_lt_Some|lia|done].
  unfold _siftdown. rewrite list_lookup_insert_eq by done.
  apply _siftdown_loop_ok.
  - by apply Forall_insert.
  - done.
  - by rewrite length_insert.
  - done.
  - by apply hole_ok_insert.
  - intros c y Hc Hy. apply lookup_lt_Some in Hy.
    rewrite length_insert in Hy. apply Hleaf in Hc. lia.
Qed.

Lemma heappush_ok h x :
  Forall P h → P x → heap_ok h → heap_ok (heappush lt h x).
Proof.
  intros HP Hx Hok. unfold heappush, _siftdown.
  rewrite length_app. simpl.
  replace (length h + 1 - 1) with (length h) by lia.
  rewrite lookup_app_r, Nat.sub_diag by lia. simpl.
  apply _siftdown_loop_ok.
  - apply Forall_app. by repeat constructor.
  - done.
  - rewrite length_app. simpl. lia.
  - done.
  - split.
    + intros i j x' y' Hc Hi Hj Hx' Hy'.
      apply lookup_app_Some in Hx' as [Hx'|[? Hx']]; last first.
      { apply list_lookup_singleton_Some in Hx'. lia. }
      apply lookup_app_Some in Hy' as [Hy'|[? Hy']]; last first.
      { apply list_lookup_singleton_Some in Hy'. lia. }
      eauto.
    + intros g c x' y' Hg Hc Hx' Hy'. apply lookup_lt_Some in Hy'.
      rewrite length_app in Hy'. simpl in Hy'. unfold is_child in Hc. lia.
  - intros c y Hc Hy. apply lookup_lt_Some in Hy.
    rewrite length_app in Hy. simpl in Hy. unfold is_child in Hc. lia.
Qed.

Lemma heappop_ok h x h' :
  Forall P h → heap_ok h → heappop lt h = Some (x, h') → heap_ok h'.
Proof.
  intros HP Hok. unfold heappop.
  destruct (last h) as [lastelt|] eqn:Hlast; [|done].
  apply last_Some in Hlast as [l ->]. rewrite removelast_last.
  apply Forall_app in HP as [HPl HPlast].
  destruct l as [|r l]; intros ?; simplify_eq/=.
  { by intros i j x' y' _ ?. }
  apply _siftup_ok.
  - apply Forall_cons in HPl as [_ HPl].
    apply Forall_cons in HPlast as [HPlast _]. by constructor.
  - split.
    + intros i j x' y' Hc Hi Hj Hx' Hy'.
      destruct i as [|i]; [done|]. destruct j as [|j]; [done|]. simpl in *.
      apply (Hok (S i) (S j)); [done|simpl..].
      * by apply lookup_app_l_Some.
      * by apply lookup_app_l_Some.
    + intros g c x' y' Hg. unfold is_child in Hg. lia.
Qed.

(** The root is a minimum. *)
Lemma heap_ok_top h x j y :
  Forall P h → heap_ok h → h !! 0 = Some x → h !! j = Some y → lt y x = false.
Proof.
  intros HP Hok Hx. revert y.
  induction (lt_wf j) as [j _ IH]; intros y Hy.
  pose proof (Forall_lookup_1 _ _ _ _ HP Hx) as HPx.
  pose proof (Forall_lookup_1 _ _ _ _ HP Hy) as HPy.
  destruct (decide (j = 0)) as [->|Hj].
  { simplify_eq. by apply lt_irrefl. }
  pose proof (parentpos_is_child j ltac:(lia)) as Hc.
  destruct (lookup_lt_is_Some_2 h (parentpos_of j)) as [z Hz].
  { apply lookup_lt_Some in Hy. unfold is_child in Hc. lia. }
  pose proof (Forall_lookup_1 _ _ _ _ HP Hz) as HPz.
  apply (le_trans x z y); [done..| |by eapply Hok].
  apply (IH (parentpos_of j)); [unfold is_child in Hc; lia|done].
Qed.
End order.
End heapq_facts.

(** * Facts about the order book *)

Module book_facts.
Import heapq heapq_facts.

(** ** [__lt__] on the nodes of one side *)

Local Ltac cmp :=
  rewrite ?Z.gtb_ltb, ?Z.geb_leb in *;
  repeat match goal with
  | H : context [(?a =? ?b)%Z] |- _ => destruct (Z.eqb_spec a b); simpl in H
  | |- context [(?a =? ?b)%Z] => destruct (Z.eqb_spec a b); simpl
  | H : context [(?a <? ?b)%Z] |- _ => destruct (Z.ltb_spec a b); simpl in H
  | |- context [(?a <? ?b)%Z] => destruct (Z.ltb_spec a b); simpl
  | H : context [(?a <=? ?b)%Z] |- _ => destruct (Z.leb_spec a b); simpl in H
  | |- context [(?a <=? ?b)%Z] => destruct (Z.leb_spec a b); simpl
  end;
  try done; try lia.

Lemma OrderNode_lt_asym n m :
  side n = side m → OrderNode_lt n m = true → OrderNode_lt m n = false.
Proof. unfold OrderNode_lt. intros <-. destruct (side n); cmp. Qed.

Lemma OrderNode_le_trans a b c :
  side a = side b → side b = side c →
  OrderNode_lt b a = false → OrderNode_lt c b = false → OrderNode_lt c a = false.
Proof. unfold OrderNode_lt. intros <- <-. destruct (side a); cmp. Qed.

Lemma OrderNode_lt_priority x r :
  OrderNode_lt x r = true ↔ priority_over x r.
Proof.
  unfold OrderNode_lt, priority_over. destruct (side x); cmp; split; intros; lia.
Qed.

(** What [__lt__ = False] tells for a bid and for an ask. *)
Lemma OrderNode_not_lt_BUY x r :
  side x = BUY → OrderNode_lt x r = false →
  (price x ≤ price r)%Z ∧ (price x = price r → (timestamp r ≤ timestamp x)%Z).
Proof. unfold OrderNode_lt. intros ->. cmp. Qed.

Lemma OrderNode_not_lt_SELL x r :
  side x = SELL → OrderNode_lt x r = false →
  (price r ≤ price x)%Z ∧ (price x = price r → (timestamp r ≤ timestamp x)%Z).
Proof. unfold OrderNode_lt. intros ->. cmp. Qed.

Lemma ref_lt_asym store s a b :
  on_side store s a → on_side store s b →
  ref_lt store a b = true → ref_lt store b a = false.
Proof. intros [_ Ha] [_ Hb]. apply OrderNode_lt_asym. congruence. Qed.

Lemma ref_le_trans store s a b c :
  on_side store s a → on_side store s b → on_side store s c →
  ref_lt store b a = false → ref_lt store c b = false → ref_lt store c a = false.
Proof. intros [_ Ha] [_ Hb] [_ Hc]. apply OrderNode_le_trans; congruence. Qed.

(** ** The store *)

Lemma node_at_lookup store r n : store !! r = Some n → node_at store r = n.
Proof. intros H. unfold node_at. by apply list_lookup_total_correct. Qed.

Lemma node_at_app_l store n r : r < length store → node_at (store ++ [n]) r = node_at store r.
Proof.
  intros Hr. destruct (lookup_lt_is_Some_2 store r Hr) as [m Hm].
  rewrite (node_at_lookup store r m Hm).
  apply node_at_lookup. by apply lookup_app_l_Some.
Qed.

Lemma node_at_app_new store n : node_at (store ++ [n]) (length store) = n.
Proof.
  apply node_at_lookup. rewrite lookup_app_r by lia.
  by rewrite Nat.sub_diag.
Qed.

Lemma node_at_app_new_eq store n r : r = length store → node_at (store ++ [n]) r = n.
Proof. intros ->. apply node_at_app_new. Qed.

Lemma node_at_insert_eq store r n : r < length store → node_at (<[r := n]> store) r = n.
Proof. intros Hr. apply node_at_lookup. by apply list_lookup_insert_eq. Qed.

Lemma node_at_insert_ne store r r' n : r ≠ r' → node_at (<[r := n]> store) r' = node_at store r'.
Proof. intros Hr. unfold node_at. by apply list_lookup_total_insert_ne. Qed.

(** The node at [r'] after [node.filled_quantity = v] on the node at [r]. *)
Lemma node_at_store_filled b r v r' :
  node_at (nodes (store_filled b r v)) r'
  = if decide (r = r' ∧ r < length (nodes b))
    then set_filled_quantity v (node_at (nodes b) r')
    else node_at (nodes b) r'.
Proof.
  unfold store_filled. simpl. case_decide as Hd.
  - destruct Hd as [-> Hlt]. by apply node_at_insert_eq.
  - destruct (decide (r = r')) as [->|Hne].
    + rewrite list_insert_ge; [done|lia].
    + by apply node_at_insert_ne.
Qed.

Lemma store_filled_length b r v : length (nodes (store_filled b r v)) = length (nodes b).
Proof. unfold store_filled. simpl. apply length_insert. Qed.

Lemma store_filled_side b r v r' :
  side (node_at (nodes (store_filled b r v)) r') = side (node_at (nodes b) r').
Proof. rewrite node_at_store_filled. by case_decide. Qed.

Lemma store_filled_price b r v r' :
  price (node_at (nodes (store_filled b r v)) r') = price (node_at (nodes b) r').
Proof. rewrite node_at_store_filled. by case_decide. Qed.

Lemma store_filled_timestamp b r v r' :
  timestamp (node_at (nodes (store_filled b r v)) r') = timestamp (node_at (nodes b) r').
Proof. rewrite node_at_store_filled. by case_decide. Qed.

Lemma store_filled_quantity b r v r' :
  quantity (node_at (nodes (store_filled b r v)) r') = quantity (node_at (nodes b) r').
Proof. rewrite node_at_store_filled. by case_decide. Qed.

Lemma store_filled_order_id b r v r' :
  order_id (node_at (nodes (store_filled b r v)) r') = order_id (node_at (nodes b) r').
Proof. rewrite node_at_store_filled. by case_decide. Qed.

Lemma store_filled_symbol b r v r' :
  symbol (node_at (nodes (store_filled b r v)) r') = symbol (node_at (nodes b) r').
Proof. rewrite node_at_store_filled. by case_decide. Qed.

Lemma store_filled_ref_lt b r v a c :
  ref_lt (nodes (store_filled b r v)) a c = ref_lt (nodes b) a c.
Proof.
  unfold ref_lt, OrderNode_lt.
  by rewrite !store_filled_side, !store_filled_price, !store_filled_timestamp.
Qed.

Lemma store_filled_on_side b r v s r' :
  on_side (nodes (store_filled b r v)) s r' ↔ on_side (nodes b) s r'.
Proof. unfold on_side. by rewrite store_filled_length, store_filled_side. Qed.

Lemma app_on_side store n s r : on_side store s r → on_side (store ++ [n]) s r.
Proof.
  intros [Hr Hs]. split.
  - rewrite length_app. lia.
  - by rewrite node_at_app_l.
Qed.

Lemma app_ref_lt store n a c :
  a < length store → c < length store →
  ref_lt (store ++ [n]) a c = ref_lt store a c.
Proof. intros Ha Hc. unfold ref_lt. by rewrite !node_at_app_l. Qed.

(** ** Heap order under a change of comparison *)

Lemma heap_ok_ext {A} (lt1 lt2 : A → A → bool) (h : list A) :
  (∀ a c, a ∈ h → c ∈ h → lt1 a c = lt2 a c) →
  heap_ok lt1 h → heap_ok lt2 h.
Proof.
  intros Hext Hok i j x y Hc Hx Hy.
  rewrite <-Hext; [by eapply Hok| |]; eapply list_elem_of_lookup_2; eauto.
Qed.

Lemma heap_ok_nil {A} (lt : A → A → bool) : heap_ok lt [].
Proof. by intros i j x y _ ?. Qed.

(** ** Heaps of one side *)

Section side_heap.
Context (store : list OrderNode) (s : OrderSide).
Implicit Types (h : list nat).

Lemma side_heappush h r :
  Forall (on_side store s) h → on_side store s r → heap_ok (ref_lt store) h →
  Forall (on_side store s) (heappush (ref_lt store) h r)
  ∧ heap_ok (ref_lt store) (heappush (ref_lt store) h r).
Proof.
  intros HP Hr Hok. split.
  - rewrite heappush_perm. by constructor.
  - eapply heappush_ok; eauto using ref_lt_asym, ref_le_trans.
Qed.

Lemma side_heappop h x h' :
  Forall (on_side store s) h → heap_ok (ref_lt store) h →
  heappop (ref_lt store) h = Some (x, h') →
  Forall (on_side store s) h' ∧ heap_ok (ref_lt store) h'.
Proof.
  intros HP Hok Hpop. split.
  - apply heappop_Some in Hpop as [_ Hperm]. rewrite Hperm in HP.
    by apply Forall_cons in HP as [_ ?].
  - eapply heappop_ok; eauto using ref_lt_asym, ref_le_trans.
Qed.

(** The root of a heap comes first in [__lt__]. *)
Lemma side_heap_top h top x :
  Forall (on_side store s) h → heap_ok (ref_lt store) h →
  head h = Some top → x ∈ h → ref_lt store x top = false.
Proof.
  intros HP Hok Htop [j Hj]%list_elem_of_lookup.
  eapply heap_ok_top; eauto using ref_lt_asym, ref_le_trans.
  by rewrite <-head_lookup.
Qed.
End side_heap.
End book_facts.

(** * The operations keep the book well formed *)

Module wf_facts.
Import heapq heapq_facts book_facts.

Lemma book_wf_init sym : book_wf (OrderBook_init sym).
Proof. split; simpl; auto using heap_ok_nil. Qed.

Lemma book_wf_with_orders_by_id b m : book_wf b → book_wf (with_orders_by_id b m).
Proof. by intros []. Qed.

Lemma book_wf_store_filled b r v : book_wf b → book_wf (store_filled b r v).
Proof.
  intros [Hb Hs Hbh Hsh]. split.
  - eapply Forall_impl; [exact Hb|]. intros x. by apply store_filled_on_side.
  - eapply Forall_impl; [exact Hs|]. intros x. by apply store_filled_on_side.
  - eapply heap_ok_ext; [|exact Hbh]. intros. symmetry. apply store_filled_ref_lt.
  - eapply heap_ok_ext; [|exact Hsh]. intros. symmetry. apply store_filled_ref_lt.
Qed.

Lemma side_heap_app store n s h :
  Forall (on_side store s) h → heap_ok (ref_lt store) h →
  Forall (on_side (store ++ [n]) s) h ∧ heap_ok (ref_lt (store ++ [n])) h.
Proof.
  intros HP Hok. split.
  - eapply Forall_impl; [exact HP|]. intros x. apply app_on_side.
  - eapply heap_ok_ext; [|exact Hok]. intros a c Ha Hc. symmetry.
    rewrite Forall_forall in HP.
    apply app_ref_lt; by apply HP.
Qed.

Lemma book_wf_new_node b n : book_wf b → book_wf (new_node b n).2.
Proof.
  intros [Hb Hs Hbh Hsh].
  destruct (side_heap_app (nodes b) n BUY _ Hb Hbh).
  destruct (side_heap_app (nodes b) n SELL _ Hs Hsh).
  by split.
Qed.

Lemma book_wf_push_by_side b r :
  book_wf b → r < length (nodes b) → book_wf (push_by_side b r).
Proof.
  intros [Hb Hs Hbh Hsh] Hr. unfold push_by_side.
  destruct (side (node_at (nodes b) r)) eqn:Hside.
  - destruct (side_heappush (nodes b) BUY (buy_orders b) r) as [? ?]; [done..|].
    by split.
  - destruct (side_heappush (nodes b) SELL (sell_orders b) r) as [? ?]; [done..|].
    by split.
Qed.

Lemma book_wf_add_order b r :
  book_wf b → r < length (nodes b) → book_wf (add_order b r).2.
Proof.
  intros Hwf Hr. unfold add_order.
  destruct (orders_by_id b !! _); [done|]. simpl.
  apply book_wf_push_by_side; [|done]. by apply book_wf_with_orders_by_id.
Qed.

Lemma book_wf_remove_order b oid : book_wf b → book_wf (remove_order b oid).2.
Proof.
  intros Hwf. unfold remove_order.
  destruct (orders_by_id b !! oid); [|done]. simpl.
  by apply book_wf_store_filled, book_wf_with_orders_by_id.
Qed.

Lemma book_wf_modify_order b oid q p now :
  book_wf b → book_wf (modify_order b oid q p now).2.
Proof.
  intros Hwf. unfold modify_order.
  destruct (orders_by_id b !! oid) as [r|]; [|done]. simpl.
  apply book_wf_push_by_side.
  - apply book_wf_with_orders_by_id.
    apply (book_wf_new_node (store_filled b r _)).
    by apply book_wf_store_filled.
  - simpl. rewrite length_app, length_insert. simpl. lia.
Qed.

(** Popping the heap an incoming order of side [s] is matched against. *)
Lemma opp_orders_wf s b :
  book_wf b →
  Forall (on_side (nodes b) (opposite s)) (opp_orders s b)
  ∧ heap_ok (ref_lt (nodes b)) (opp_orders s b).
Proof. intros []. by destruct s. Qed.

Lemma book_wf_with_opp_orders s b h :
  book_wf b →
  Forall (on_side (nodes b) (opposite s)) h → heap_ok (ref_lt (nodes b)) h →
  book_wf (with_opp_orders s b h).
Proof. intros [] ??. by destruct s. Qed.

Lemma book_wf_pop_opp s b x h :
  book_wf b → heappop (ref_lt (nodes b)) (opp_orders s b) = Some (x, h) →
  book_wf (with_opp_orders s b h).
Proof.
  intros Hwf Hpop. destruct (opp_orders_wf s b Hwf) as [HP Hok].
  destruct (side_heappop _ _ _ _ _ HP Hok Hpop).
  by apply book_wf_with_opp_orders.
Qed.

Lemma opp_orders_store_filled s b r v :
  opp_orders s (store_filled b r v) = opp_orders s b.
Proof. by destruct s. Qed.

Lemma nodes_with_opp_orders s b h : nodes (with_opp_orders s b h) = nodes b.
Proof. by destruct s. Qed.

Lemma opp_orders_with_opp_orders s b h : opp_orders s (with_opp_orders s b h) = h.
Proof. by destruct s. Qed.

Lemma own_orders_with_opp_orders s b h :
  own_orders s (with_opp_orders s b h) = own_orders s b.
Proof. by destruct s. Qed.

Lemma orders_by_id_with_opp_orders s b h :
  orders_by_id (with_opp_orders s b h) = orders_by_id b.
Proof. by destruct s. Qed.

(** ** The two loops are [match_loop] *)

Lemma _match_buy_loop_eq fuel commits b buy_order trades :
  _match_buy_loop fuel commits b buy_order trades
  = match_loop BUY fuel commits b buy_order trades.
Proof.
  revert commits b trades. induction fuel as [|fuel IH]; intros commits b trades; [done|].
  cbn [_match_buy_loop match_loop]. unfold match_step, fill_pair, trade_qty.
  cbn [opp_orders crosses].
  destruct (negb (is_filled (node_at (nodes b) buy_order))); [|done].
  destruct (sell_orders b) as [|sell_order rest] eqn:Hheap; [done|].
  destruct (_ <=? _)%Z; [|done].
  destruct (is_filled (node_at (nodes b) sell_order)).
  { destruct (heappop _ _) as [[? h]|]; [|done]. apply IH. }
  destruct (next_commit commits) as [ok commits'].
  cbn [execute_for opp_orders with_opp_orders].
  destruct (is_filled _).
  - destruct (heappop _ _) as [[? h]|] eqn:Hpop; [apply IH|].
    apply heappop_None in Hpop. simpl in Hpop. congruence.
  - apply IH.
Qed.

Lemma _match_sell_loop_eq fuel commits b sell_order trades :
  _match_sell_loop fuel commits b sell_order trades
  = match_loop SELL fuel commits b sell_order trades.
Proof.
  revert commits b trades. induction fuel as [|fuel IH]; intros commits b trades; [done|].
  cbn [_match_sell_loop match_loop]. unfold match_step, fill_pair, trade_qty.
  cbn [opp_orders crosses].
  destruct (negb (is_filled (node_at (nodes b) sell_order))); [|done].
  destruct (buy_orders b) as [|buy_order rest] eqn:Hheap; [done|].
  destruct (_ >=? _)%Z; [|done].
  destruct (is_filled (node_at (nodes b) buy_order)).
  { destruct (heappop _ _) as [[? h]|]; [|done]. apply IH. }
  destruct (next_commit commits) as [ok commits'].
  cbn [execute_for opp_orders with_opp_orders].
  destruct (is_filled _).
  - destruct (heappop _ _) as [[? h]|] eqn:Hpop; [apply IH|].
    apply heappop_None in Hpop. simpl in Hpop. congruence.
  - apply IH.
Qed.

Lemma _match_order_eq commits b incoming :
  _match_order commits b incoming
  = match_loop (side (node_at (nodes b) incoming))
      (2 * length (opp_orders (side (node_at (nodes b) incoming)) b) + 2)
      commits b incoming [].
Proof.
  unfold _match_order, _match_buy_order, _match_sell_order.
  destruct (side _); simpl opp_orders.
  - apply _match_buy_loop_eq.
  - apply _match_sell_loop_eq.
Qed.

(** ** One step of the loop *)

Lemma match_step_case s commits b incoming trades commits' b' trades' :
  match_step s commits b incoming trades = Some (commits', b', trades') →
  step_case s b incoming b'.
Proof.
  unfold match_step.
  destruct (is_filled (node_at (nodes b) incoming)) eqn:Hinc; [done|]. cbn [negb].
  destruct (opp_orders s b) as [|resting rest] eqn:Hheap; [done|].
  destruct (crosses _ _ _) eqn:Hcross; [|done].
  destruct (is_filled (node_at (nodes b) resting)) eqn:Hrest.
  { destruct (heappop _ _) as [[x h]|] eqn:Hpop; [|done].
    intros ?; simplify_eq. rewrite <-Hheap in Hpop. by eapply step_ghost. }
  destruct (next_commit commits) as [ok cs]. cbv zeta.
  destruct (is_filled (node_at (nodes (fill_pair b incoming resting)) resting)) eqn:Hfilled2.
  - destruct (heappop _ _) as [[x h]|] eqn:Hpop; [|done].
    intros ?; simplify_eq. by eapply step_trade_pop.
  - intros ?; simplify_eq. by eapply step_trade.
Qed.

Lemma book_wf_fill_pair b incoming resting :
  book_wf b → book_wf (fill_pair b incoming resting).
Proof. intros Hwf. unfold fill_pair. by do 2 apply book_wf_store_filled. Qed.

Lemma book_wf_step_case s b incoming b' :
  book_wf b → step_case s b incoming b' → book_wf b'.
Proof.
  intros Hwf Hstep. destruct Hstep.
  - by eapply book_wf_pop_opp.
  - by apply book_wf_fill_pair.
  - eapply book_wf_pop_opp; [|done]. by apply book_wf_fill_pair.
Qed.

Lemma book_wf_match_loop s fuel commits b incoming trades b' trades' :
  book_wf b →
  match_loop s fuel commits b incoming trades = Some (b', trades') →
  book_wf b'.
Proof.
  revert commits b trades. induction fuel as [|fuel IH]; intros commits b trades Hwf; [done|].
  cbn [match_loop].
  destruct (match_step s commits b incoming trades) as [[[cs b1] ts]|] eqn:Hstep.
  - apply IH. eapply book_wf_step_case; [done|]. by eapply match_step_case.
  - by intros ?; simplify_eq.
Qed.
End wf_facts.

(** * The matching loop *)

Module match_facts.
Import heapq heapq_facts book_facts wf_facts.

(** ** Nodes after a trade *)

Lemma is_filled_valid store r : is_filled (node_at store r) = false → r < length store.
Proof.
  intros Hf. destruct (decide (r < length store)) as [|Hge]; [done|].
  unfold node_at in Hf. rewrite list_lookup_total_alt in Hf.
  rewrite lookup_ge_None_2 in Hf by lia. done.
Qed.

Lemma is_filled_remaining n : is_filled n = false ↔ (0 < remaining_quantity n)%Z.
Proof. unfold is_filled. destruct (Z.leb_spec (remaining_quantity n) 0); split; (done || lia). Qed.

Lemma trade_qty_pos b incoming resting :
  is_filled (node_at (nodes b) incoming) = false →
  is_filled (node_at (nodes b) resting) = false →
  (0 < trade_qty b incoming resting)%Z.
Proof. rewrite !is_filled_remaining. unfold trade_qty. lia. Qed.

(** The filled quantity of any node after the two updates of a trade. *)
Lemma fill_pair_filled b incoming resting x :
  filled_quantity (node_at (nodes (fill_pair b incoming resting)) x)
  = (filled_quantity (node_at (nodes b) x)
     + (if decide (incoming = x ∧ (x < length (nodes b))%nat)
        then trade_qty b incoming resting else 0)
     + (if decide (resting = x ∧ (x < length (nodes b))%nat)
        then trade_qty b incoming resting else 0))%Z.
Proof.
  unfold fill_pair. cbv zeta.
  rewrite !node_at_store_filled, store_filled_length.
  repeat destruct (decide _); simpl; rewrite ?node_at_store_filled;
    repeat destruct (decide _); simpl; try lia; destruct_and?; subst; lia.
Qed.

Lemma fill_pair_length b incoming resting :
  length (nodes (fill_pair b incoming resting)) = length (nodes b).
Proof. unfold fill_pair. cbv zeta. by rewrite !store_filled_length. Qed.

Lemma fill_pair_quantity b incoming resting x :
  quantity (node_at (nodes (fill_pair b incoming resting)) x)
  = quantity (node_at (nodes b) x).
Proof. unfold fill_pair. cbv zeta. by rewrite !store_filled_quantity. Qed.

Lemma fill_pair_side b incoming resting x :
  side (node_at (nodes (fill_pair b incoming resting)) x) = side (node_at (nodes b) x).
Proof. unfold fill_pair. cbv zeta. by rewrite !store_filled_side. Qed.

Lemma fill_pair_price b incoming resting x :
  price (node_at (nodes (fill_pair b incoming resting)) x) = price (node_at (nodes b) x).
Proof. unfold fill_pair. cbv zeta. by rewrite !store_filled_price. Qed.

Lemma fill_pair_timestamp b incoming resting x :
  timestamp (node_at (nodes (fill_pair b incoming resting)) x)
  = timestamp (node_at (nodes b) x).
Proof. unfold fill_pair. cbv zeta. by rewrite !store_filled_timestamp. Qed.

Lemma fill_pair_order_id b incoming resting x :
  order_id (node_at (nodes (fill_pair b incoming resting)) x)
  = order_id (node_at (nodes b) x).
Proof. unfold fill_pair. cbv zeta. by rewrite !store_filled_order_id. Qed.

Lemma fill_pair_symbol b incoming resting x :
  symbol (node_at (nodes (fill_pair b incoming resting)) x)
  = symbol (node_at (nodes b) x).
Proof. unfold fill_pair. cbv zeta. by rewrite !store_filled_symbol. Qed.

Lemma fill_pair_ref_lt b incoming resting a c :
  ref_lt (nodes (fill_pair b incoming resting)) a c = ref_lt (nodes b) a c.
Proof. unfold fill_pair. cbv zeta. by rewrite !store_filled_ref_lt. Qed.

Lemma fill_pair_opp_orders s b incoming resting :
  opp_orders s (fill_pair b incoming resting) = opp_orders s b.
Proof. by destruct s. Qed.

Lemma fill_pair_own_orders s b incoming resting :
  own_orders s (fill_pair b incoming resting) = own_orders s b.
Proof. by destruct s. Qed.

Lemma fill_pair_orders_by_id b incoming resting :
  orders_by_id (fill_pair b incoming resting) = orders_by_id b.
Proof. done. Qed.

(** A trade only adds to filled quantities. *)
Lemma fill_pair_filled_mono b incoming resting x :
  is_filled (node_at (nodes b) incoming) = false →
  is_filled (node_at (nodes b) resting) = false →
  (filled_quantity (node_at (nodes b) x)
   ≤ filled_quantity (node_at (nodes (fill_pair b incoming resting)) x))%Z.
Proof.
  intros Hi Hr. pose proof (trade_qty_pos b incoming resting Hi Hr).
  rewrite fill_pair_filled. repeat destruct (decide _); lia.
Qed.

Lemma fill_pair_is_filled_mono b incoming resting x :
  is_filled (node_at (nodes b) incoming) = false →
  is_filled (node_at (nodes b) resting) = false →
  is_filled (node_at (nodes b) x) = true →
  is_filled (node_at (nodes (fill_pair b incoming resting)) x) = true.
Proof.
  intros Hi Hr Hx. pose proof (fill_pair_filled_mono b incoming resting x Hi Hr).
  unfold is_filled, remaining_quantity in *. rewrite fill_pair_quantity.
  apply Z.leb_le. apply Z.leb_le in Hx. lia.
Qed.

(** After a trade that leaves the resting order unfilled, the incoming
    order is filled. *)
Lemma fill_pair_incoming_filled b incoming resting :
  is_filled (node_at (nodes b) incoming) = false →
  is_filled (node_at (nodes b) resting) = false →
  is_filled (node_at (nodes (fill_pair b incoming resting)) resting) = false →
  is_filled (node_at (nodes (fill_pair b incoming resting)) incoming) = true.
Proof.
  intros Hi Hr Hr'.
  pose proof (is_filled_valid _ _ Hi). pose proof (is_filled_valid _ _ Hr).
  apply is_filled_remaining in Hi, Hr, Hr'.
  unfold is_filled, remaining_quantity in *. apply Z.leb_le.
  rewrite fill_pair_quantity, fill_pair_filled in *.
  unfold trade_qty, remaining_quantity in *.
  repeat destruct (decide _); try lia; naive_solver lia.
Qed.

(** ** The loop terminates within its fuel *)

Lemma step_case_measure s b incoming b' :
  step_case s b incoming b' → loop_measure s b' incoming < loop_measure s b incoming.
Proof.
  intros Hstep. unfold loop_measure. destruct Hstep as
    [resting rest x h Hheap Hinc Hcross Hrest Hpop
    |resting rest Hheap Hinc Hcross Hrest Hrest'
    |resting rest x h Hheap Hinc Hcross Hrest Hrest' Hpop].
  - apply heappop_length in Hpop.
    rewrite opp_orders_with_opp_orders, nodes_with_opp_orders, Hinc. lia.
  - rewrite fill_pair_opp_orders, Hinc.
    rewrite fill_pair_incoming_filled by done. lia.
  - apply heappop_length in Hpop. rewrite fill_pair_opp_orders in Hpop.
    rewrite opp_orders_with_opp_orders, nodes_with_opp_orders, Hinc.
    destruct (is_filled (node_at (nodes (fill_pair b incoming resting)) incoming)); lia.
Qed.

Lemma match_loop_total s fuel commits b incoming trades :
  loop_measure s b incoming < fuel →
  is_Some (match_loop s fuel commits b incoming trades).
Proof.
  revert commits b trades. induction fuel as [|fuel IH]; intros commits b trades Hm; [lia|].
  cbn [match_loop].
  destruct (match_step s commits b incoming trades) as [[[cs b1] ts]|] eqn:Hstep; [|done].
  apply IH. apply match_step_case, step_case_measure in Hstep. lia.
Qed.

Lemma _match_order_total commits b incoming :
  is_Some (_match_order commits b incoming).
Proof.
  rewrite _match_order_eq. apply match_loop_total.
  unfold loop_measure. destruct (is_filled _); lia.
Qed.

(** ** What a step leaves unchanged *)

Lemma step_frame_refl s b : step_frame s b b.
Proof. by split. Qed.

Lemma step_frame_trans s b1 b2 b3 :
  step_frame s b1 b2 → step_frame s b2 b3 → step_frame s b1 b3.
Proof.
  intros [] []. split; intros; try congruence.
  - etrans; eauto.
  - etrans; eauto.
Qed.

Lemma step_frame_fill_pair s b incoming resting :
  is_filled (node_at (nodes b) incoming) = false →
  is_filled (node_at (nodes b) resting) = false →
  step_frame s b (fill_pair b incoming resting).
Proof.
  intros Hi Hr. split; intros;
    rewrite ?fill_pair_length, ?fill_pair_order_id, ?fill_pair_symbol, ?fill_pair_side,
      ?fill_pair_quantity, ?fill_pair_price, ?fill_pair_timestamp,
      ?fill_pair_opp_orders, ?fill_pair_own_orders; try done.
  by apply fill_pair_filled_mono.
Qed.

Lemma step_frame_pop s b x h :
  heappop (ref_lt (nodes b)) (opp_orders s b) = Some (x, h) →
  step_frame s b (with_opp_orders s b h).
Proof.
  intros [_ Hperm]%heappop_Some.
  split; intros; rewrite ?nodes_with_opp_orders, ?opp_orders_with_opp_orders,
    ?own_orders_with_opp_orders, ?orders_by_id_with_opp_orders; try done.
  all: try by destruct s.
  rewrite Hperm. set_solver.
Qed.

Lemma step_case_frame s b incoming b' :
  step_case s b incoming b' → step_frame s b b'.
Proof.
  intros Hstep. destruct Hstep.
  - by eapply step_frame_pop.
  - by apply step_frame_fill_pair.
  - apply (step_frame_trans _ _ (fill_pair b incoming resting));
      [by apply step_frame_fill_pair|by eapply step_frame_pop].
Qed.

Lemma match_loop_frame s fuel commits b incoming trades b' trades' :
  match_loop s fuel commits b incoming trades = Some (b', trades') →
  step_frame s b b'.
Proof.
  revert commits b trades. induction fuel as [|fuel IH]; intros commits b trades; [done|].
  cbn [match_loop].
  destruct (match_step s commits b incoming trades) as [[[cs b1] ts]|] eqn:Hstep.
  - intros Hloop. eapply step_frame_trans; [|by eapply IH].
    by eapply step_case_frame, match_step_case.
  - intros ?; simplify_eq. apply step_frame_refl.
Qed.
End match_facts.

(** * Trades, priority and quantities in the matching loop *)

Module match_claims.
Import heapq heapq_facts book_facts wf_facts match_facts.

(** ** Trades are made at the resting order's price *)

Lemma passive_trade_frame s b0 b incoming resting t :
  step_frame s b0 b → passive_trade s b incoming resting t →
  passive_trade s b0 incoming resting t.
Proof.
  intros Hf (Hin & Hcross & Hprice & Hids). unfold passive_trade, crosses in *.
  rewrite !(frame_price _ _ _ Hf), !(frame_order_id _ _ _ Hf),
    !(frame_node_symbol _ _ _ Hf) in *.
  split; [by apply (frame_opp _ _ _ Hf)|done].
Qed.

Lemma match_step_trades s commits b incoming trades commits' b' trades' :
  match_step s commits b incoming trades = Some (commits', b', trades') →
  trades' = trades
  ∨ ∃ t resting, trades' = trades ++ [t] ∧ passive_trade s b incoming resting t.
Proof.
  unfold match_step.
  destruct (is_filled (node_at (nodes b) incoming)) eqn:Hinc; [done|]. cbn [negb].
  destruct (opp_orders s b) as [|resting rest] eqn:Hheap; [done|].
  destruct (crosses _ _ _) eqn:Hcross; [|done].
  destruct (is_filled (node_at (nodes b) resting)) eqn:Hrest.
  { destruct (heappop _ _) as [[x h]|]; [|done]. intros ?; simplify_eq. by left. }
  destruct (next_commit commits) as [ok cs]. cbv zeta.
  assert (∀ ts, ts = append_trade trades
            (execute_for s ok (node_at (nodes b) incoming) (node_at (nodes b) resting)
               (trade_qty b incoming resting) (price (node_at (nodes b) resting))) →
          ts = trades ∨ ∃ t r, ts = trades ++ [t] ∧ passive_trade s b incoming r t) as Hts.
  { intros ts ->. destruct ok; [|left; by destruct s].
    right. unfold passive_trade. rewrite Hheap.
    destruct s; simpl; eexists _, resting; (split; [done|]);
      (split; [by left|]); done. }
  destruct (is_filled (node_at (nodes (fill_pair b incoming resting)) resting)).
  - destruct (heappop _ _) as [[x h]|]; [|done]. intros ?; simplify_eq. by apply Hts.
  - intros ?; simplify_eq. by apply Hts.
Qed.

Lemma match_loop_trades s fuel commits b incoming trades b' trades' :
  match_loop s fuel commits b incoming trades = Some (b', trades') →
  ∃ new, trades' = trades ++ new
    ∧ Forall (λ t, ∃ resting, passive_trade s b incoming resting t) new.
Proof.
  revert commits b trades. induction fuel as [|fuel IH]; intros commits b trades; [done|].
  cbn [match_loop].
  destruct (match_step s commits b incoming trades) as [[[cs b1] ts]|] eqn:Hstep.
  2:{ intros ?; simplify_eq. exists []. by rewrite app_nil_r. }
  intros Hloop. pose proof (match_step_case _ _ _ _ _ _ _ _ Hstep) as Hcase.
  apply step_case_frame in Hcase.
  apply IH in Hloop as (new & -> & Hnew).
  assert (Forall (λ t, ∃ resting, passive_trade s b incoming resting t) new) as Hnew'.
  { eapply Forall_impl; [exact Hnew|]. intros t [r Hr]. exists r.
    by eapply passive_trade_frame. }
  apply match_step_trades in Hstep as [->|(t & r & -> & Ht)].
  - by exists new.
  - exists (t :: new). rewrite <-app_assoc. split; [done|].
    constructor; [by exists r|done].
Qed.

(** ** The book does not depend on the database outcomes *)



(** ** Resting orders are consumed in priority order *)

Lemma frame_is_filled s b b' x :
  step_frame s b b' →
  is_filled (node_at (nodes b) x) = true → is_filled (node_at (nodes b') x) = true.
Proof.
  intros Hf Hx. pose proof (frame_filled _ _ _ Hf x).
  unfold is_filled, remaining_quantity in *. rewrite (frame_quantity _ _ _ Hf).
  apply Z.leb_le. apply Z.leb_le in Hx. lia.
Qed.

Lemma frame_ref_lt s b b' a c :
  step_frame s b b' → ref_lt (nodes b') a c = ref_lt (nodes b) a c.
Proof.
  intros Hf. unfold ref_lt, OrderNode_lt.
  by rewrite !(frame_side _ _ _ Hf), !(frame_price _ _ _ Hf), !(frame_timestamp _ _ _ Hf).
Qed.

Lemma prio_inv_init s b0 : book_wf b0 → prio_inv s b0 b0.
Proof. intros Hwf. split; [done|apply step_frame_refl|done|done]. Qed.

Lemma prio_inv_pop s b0 b x h :
  prio_inv s b0 b →
  heappop (ref_lt (nodes b)) (opp_orders s b) = Some (x, h) →
  is_filled (node_at (nodes b) x) = true →
  prio_inv s b0 (with_opp_orders s b h).
Proof.
  intros [Hwf Hf Hpopped Hprio] Hpop Hx. split.
  - by eapply book_wf_pop_opp.
  - eapply step_frame_trans; [done|by eapply step_frame_pop].
  - intros y Hy0 Hy. rewrite nodes_with_opp_orders.
    rewrite opp_orders_with_opp_orders in Hy.
    destruct (decide (y ∈ opp_orders s b)) as [Hin|Hnin]; [|by apply Hpopped].
    apply heappop_Some in Hpop as [_ Hperm]. rewrite Hperm in Hin.
    apply elem_of_cons in Hin as [->|Hin]; done.
  - intros r y Hr Hy. rewrite nodes_with_opp_orders. by apply Hprio.
Qed.

Lemma prio_inv_fill s b0 b incoming resting rest :
  book_wf b0 → side (node_at (nodes b0) incoming) = s →
  prio_inv s b0 b →
  opp_orders s b = resting :: rest →
  is_filled (node_at (nodes b) incoming) = false →
  is_filled (node_at (nodes b) resting) = false →
  prio_inv s b0 (fill_pair b incoming resting).
Proof.
  intros Hwf0 Hside [Hwf Hf Hpopped Hprio] Hheap Hinc Hrest.
  pose proof (step_frame_fill_pair s b incoming resting Hinc Hrest) as Hf2.
  split.
  - by apply book_wf_fill_pair.
  - by eapply step_frame_trans.
  - intros y Hy0 Hy. rewrite fill_pair_opp_orders in Hy.
    apply (frame_is_filled s b); [done|]. by apply Hpopped.
  - intros r y Hr Hy Hchanged Hlt.
    destruct (decide (filled_quantity (node_at (nodes b) r)
                      = filled_quantity (node_at (nodes b0) r))) as [Heq|Hne].
    2:{ apply (frame_is_filled s b); [done|]. by apply (Hprio r y). }
    destruct (decide (y ∈ opp_orders s b)) as [Hin|Hnin].
    2:{ apply (frame_is_filled s b); [done|]. by apply Hpopped. }
    exfalso.
    destruct (opp_orders_wf s b0 Hwf0) as [HP0 _].
    rewrite Forall_forall in HP0. destruct (HP0 r Hr) as [_ Hrside].
    assert (r ≠ incoming) as Hri.
    { intros ->. rewrite Hside in Hrside. by destruct s. }
    assert (r = resting) as ->.
    { rewrite <-Heq, fill_pair_filled in Hchanged.
      repeat destruct (decide _); destruct_and?; subst; try done; lia. }
    destruct (opp_orders_wf s b Hwf) as [HP Hok].
    assert (ref_lt (nodes b) y resting = false) as Htop.
    { eapply side_heap_top; [exact HP|exact Hok| |done]. by rewrite Hheap. }
    rewrite (frame_ref_lt _ _ _ _ _ Hf) in Htop. congruence.
Qed.

Lemma prio_inv_step s b0 b incoming b' :
  book_wf b0 → side (node_at (nodes b0) incoming) = s →
  prio_inv s b0 b → step_case s b incoming b' → prio_inv s b0 b'.
Proof.
  intros Hwf0 Hside Hinv Hstep. destruct Hstep as
    [resting rest x h Hheap Hinc Hcross Hrest Hpop
    |resting rest Hheap Hinc Hcross Hrest Hrest'
    |resting rest x h Hheap Hinc Hcross Hrest Hrest' Hpop].
  - eapply prio_inv_pop; [done..|].
    apply heappop_Some in Hpop as [Hhead _]. rewrite Hheap in Hhead. by simplify_eq/=.
  - by eapply prio_inv_fill.
  - eapply prio_inv_pop; [by eapply prio_inv_fill|done|].
    apply heappop_Some in Hpop as [Hhead _].
    rewrite fill_pair_opp_orders, Hheap in Hhead. by simplify_eq/=.
Qed.

Lemma prio_inv_loop s b0 fuel commits b incoming trades b' trades' :
  book_wf b0 → side (node_at (nodes b0) incoming) = s →
  prio_inv s b0 b →
  match_loop s fuel commits b incoming trades = Some (b', trades') →
  prio_inv s b0 b'.
Proof.
  intros Hwf0 Hside. revert commits b trades.
  induction fuel as [|fuel IH]; intros commits b trades Hinv; [done|].
  cbn [match_loop].
  destruct (match_step s commits b incoming trades) as [[[cs b1] ts]|] eqn:Hstep.
  - apply IH. eapply prio_inv_step; [done..|]. by eapply match_step_case.
  - by intros ?; simplify_eq.
Qed.

(** ** Sums of filled quantities *)

Lemma filled_on_insert s store r n v :
  store !! r = Some n →
  filled_on s (<[r := set_filled_quantity v n]> store)
  = (filled_on s store
     + (if decide (side n = s) then v - filled_quantity n else 0))%Z.
Proof.
  revert r. induction store as [|m store IH]; intros [|r] Hr; simplify_eq/=.
  - repeat destruct (decide _); lia.
  - rewrite (IH r Hr). repeat destruct (decide _); lia.
Qed.

Lemma filled_on_app s store n :
  filled_on s (store ++ [n])
  = (filled_on s store + (if decide (side n = s) then filled_quantity n else 0))%Z.
Proof.
  induction store as [|m store IH]; simpl.
  - destruct (decide _); lia.
  - rewrite IH. repeat destruct (decide _); lia.
Qed.

Lemma filled_on_store_filled s b r v :
  r < length (nodes b) →
  filled_on s (nodes (store_filled b r v))
  = (filled_on s (nodes b)
     + (if decide (side (node_at (nodes b) r) = s)
        then v - filled_quantity (node_at (nodes b) r) else 0))%Z.
Proof.
  intros Hr. destruct (lookup_lt_is_Some_2 _ _ Hr) as [n Hn].
  unfold store_filled. simpl. rewrite (node_at_lookup _ _ _ Hn).
  by apply filled_on_insert.
Qed.

Lemma filled_on_fill_pair s b incoming resting :
  incoming < length (nodes b) → resting < length (nodes b) →
  filled_on s (nodes (fill_pair b incoming resting))
  = (filled_on s (nodes b)
     + (if decide (side (node_at (nodes b) incoming) = s)
        then trade_qty b incoming resting else 0)
     + (if decide (side (node_at (nodes b) resting) = s)
        then trade_qty b incoming resting else 0))%Z.
Proof.
  intros Hi Hr. unfold fill_pair. cbv zeta.
  rewrite filled_on_store_filled by (by rewrite store_filled_length).
  rewrite filled_on_store_filled by done.
  rewrite store_filled_side.
  repeat destruct (decide _); lia.
Qed.

(** A step adds the same quantity to both sides, and to the trades when
    the database accepts them. *)
Lemma match_step_conserve s commits b incoming trades commits' b' trades' :
  book_wf b → side (node_at (nodes b) incoming) = s →
  match_step s commits b incoming trades = Some (commits', b', trades') →
  ∃ q, (0 ≤ q)%Z
    ∧ filled_on BUY (nodes b') = (filled_on BUY (nodes b) + q)%Z
    ∧ filled_on SELL (nodes b') = (filled_on SELL (nodes b) + q)%Z
    ∧ (journaled commits →
       journaled commits' ∧ volume trades' = (volume trades + q)%Z).
Proof.
  intros Hwf Hside. unfold match_step.
  destruct (is_filled (node_at (nodes b) incoming)) eqn:Hinc; [done|]. cbn [negb].
  destruct (opp_orders s b) as [|resting rest] eqn:Hheap; [done|].
  destruct (crosses _ _ _) eqn:Hcross; [|done].
  destruct (is_filled (node_at (nodes b) resting)) eqn:Hrest.
  { destruct (heappop _ _) as [[x h]|]; [|done]. intros ?; simplify_eq.
    exists 0%Z. rewrite nodes_with_opp_orders. split; [done|].
    split; [lia|]. split; [lia|]. intros Hj. split; [done|lia]. }
  pose proof (is_filled_valid _ _ Hinc) as Hivalid.
  pose proof (is_filled_valid _ _ Hrest) as Hrvalid.
  pose proof (trade_qty_pos _ _ _ Hinc Hrest) as Hq.
  destruct (opp_orders_wf s b Hwf) as [HP _].
  rewrite Hheap in HP. apply Forall_cons in HP as [[_ Hrside] _].
  assert (∀ h, ∃ q, (0 ≤ q)%Z
    ∧ filled_on BUY (nodes (with_opp_orders s (fill_pair b incoming resting) h))
      = (filled_on BUY (nodes b) + q)%Z
    ∧ filled_on SELL (nodes (with_opp_orders s (fill_pair b incoming resting) h))
      = (filled_on SELL (nodes b) + q)%Z
    ∧ filled_on BUY (nodes (fill_pair b incoming resting))
      = (filled_on BUY (nodes b) + q)%Z
    ∧ filled_on SELL (nodes (fill_pair b incoming resting))
      = (filled_on SELL (nodes b) + q)%Z
    ∧ (journaled commits →
       volume (append_trade trades
         (execute_for s (next_commit commits).1 (node_at (nodes b) incoming)
            (node_at (nodes b) resting) (trade_qty b incoming resting)
            (price (node_at (nodes b) resting))))
       = (volume trades + q)%Z)) as Hsum.
  { intros h. exists (trade_qty b incoming resting).
    rewrite nodes_with_opp_orders, !filled_on_fill_pair by done.
    rewrite Hside, Hrside.
    assert (∀ t, volume (trades ++ [t]) = (volume trades + trade_quantity t)%Z) as Hvol.
    { intros t. induction trades as [|t' ts IH]; simpl; [lia|]. rewrite IH. lia. }
    split; [lia|].
    destruct s; simpl; repeat destruct (decide _); try done;
      (split; [lia|]); (split; [lia|]); (split; [lia|]); (split; [lia|]);
      intros Hj; (assert ((next_commit commits).1 = true) as ->;
        [destruct commits; [done|by apply Forall_cons in Hj as [? _]]|]);
      simpl; by rewrite Hvol. }
  destruct (next_commit commits) as [ok cs] eqn:Hnext. cbv zeta.
  assert (journaled commits → journaled cs) as Hcs.
  { intros Hj. destruct commits; simplify_eq/=; [done|].
    by apply Forall_cons in Hj as [_ ?]. }
  destruct (is_filled (node_at (nodes (fill_pair b incoming resting)) resting)).
  - destruct (heappop _ _) as [[x h]|]; [|done]. intros ?; simplify_eq.
    destruct (Hsum h) as (q & ? & ? & ? & ? & ? & Hvol). exists q.
    split; [done|]. split; [done|]. split; [done|].
    intros Hc. split; [by apply Hcs|by apply Hvol].
  - intros ?; simplify_eq.
    destruct (Hsum []) as (q & ? & ? & ? & ? & ? & Hvol). exists q.
    split; [done|]. split; [done|]. split; [done|].
    intros Hc. split; [by apply Hcs|by apply Hvol].
Qed.

Lemma match_loop_conserve s fuel commits b incoming trades b' trades' :
  book_wf b → side (node_at (nodes b) incoming) = s →
  match_loop s fuel commits b incoming trades = Some (b', trades') →
  ∃ q, (0 ≤ q)%Z
    ∧ filled_on BUY (nodes b') = (filled_on BUY (nodes b) + q)%Z
    ∧ filled_on SELL (nodes b') = (filled_on SELL (nodes b) + q)%Z
    ∧ (journaled commits → volume trades' = (volume trades + q)%Z).
Proof.
  revert commits b trades. induction fuel as [|fuel IH];
    intros commits b trades Hwf Hside; [done|].
  cbn [match_loop].
  destruct (match_step s commits b incoming trades) as [[[cs b1] ts]|] eqn:Hstep.
  2:{ intros ?; simplify_eq. exists 0%Z. repeat split; lia. }
  intros Hloop.
  pose proof (match_step_case _ _ _ _ _ _ _ _ Hstep) as Hcase.
  pose proof (step_case_frame _ _ _ _ Hcase) as Hf.
  apply match_step_conserve in Hstep as (q1 & ? & Hb1 & Hs1 & Hv1); [|done..].
  apply IH in Hloop as (q2 & ? & Hb2 & Hs2 & Hv2).
  - exists (q1 + q2)%Z. split; [lia|]. split; [lia|]. split; [lia|].
    intros Hj. destruct (Hv1 Hj) as [Hj1 Hv1']. rewrite Hv2 by done. lia.
  - by eapply book_wf_step_case.
  - by rewrite (frame_side _ _ _ Hf).
Qed.
End match_claims.

(** * The depth query *)

Module depth_facts.
Import heapq heapq_facts book_facts wf_facts.

Lemma pops_perm store heap popped heap' :
  pops store heap popped heap' → heap ≡ₚ popped ++ heap'.
Proof.
  induction 1 as [|heap x heap1 popped heap' Hpop _ IH]; [done|].
  apply heappop_Some in Hpop as [_ ->]. simpl. by rewrite IH.
Qed.

Lemma pops_snoc store heap popped heap1 x heap' :
  pops store heap popped heap1 →
  heappop (ref_lt store) heap1 = Some (x, heap') →
  pops store heap (popped ++ [x]) heap'.
Proof.
  induction 1 as [|heap y heap2 popped heap1 Hpop _ IH]; intros Hx; simpl.
  - eapply pops_cons; [done|constructor].
  - eapply pops_cons; [done|]. by apply IH.
Qed.

(** Successive pops of a heap come out in [__lt__] order, and before what
    stays in the heap. *)
Lemma pops_sorted store s heap popped heap' :
  Forall (on_side store s) heap → heap_ok (ref_lt store) heap →
  pops store heap popped heap' →
  StronglySorted (λ a c, ref_lt store c a = false) popped
  ∧ Forall (on_side store s) heap' ∧ heap_ok (ref_lt store) heap'.
Proof.
  intros HP Hok Hpops. induction Hpops as [|heap x heap1 popped heap' Hpop Hrest IH].
  { split; [constructor|done]. }
  destruct (side_heappop store s heap x heap1 HP Hok Hpop) as [HP1 Hok1].
  destruct (IH HP1 Hok1) as (Hsorted & HP' & Hok').
  split; [|done]. constructor; [done|].
  apply Forall_forall. intros y Hy.
  pose proof Hpop as [Hhead Hperm]%heappop_Some.
  eapply side_heap_top; [exact HP|exact Hok|done|].
  rewrite Hperm. right. apply pops_perm in Hrest. rewrite Hrest.
  apply elem_of_app. by left.
Qed.

(** ** The loop of one side *)

Lemma depth_loop_spec fuel store levels heap depth temp :
  length heap < fuel →
  ∃ popped heap',
    depth_loop fuel store levels heap depth temp
    = Some (heap', depth ++ (depth_entry store <$> filter (live store) popped),
            temp ++ popped)
    ∧ pops store heap popped heap'
    ∧ (heap' = []
       ∨ (levels ≤ Z.of_nat (length
            (depth ++ (depth_entry store <$> filter (live store) popped))))%Z)
    ∧ ((Z.of_nat (length depth) ≤ Z.max 0 levels)%Z →
       (Z.of_nat (length
          (depth ++ (depth_entry store <$> filter (live store) popped)))
        ≤ Z.max 0 levels)%Z).
Proof.
  revert heap depth temp. induction fuel as [|fuel IH]; intros heap depth temp Hfuel; [lia|].
  cbn [depth_loop].
  destruct (decide (heap = [])) as [->|Hne].
  { exists [], []. simpl. rewrite !app_nil_r. split; [done|].
    split; [constructor|]. split; [by left|done]. }
  rewrite bool_decide_eq_false_2 by done. cbn [negb andb].
  destruct (Z.ltb_spec (Z.of_nat (length depth)) levels) as [Hlt|Hge].
  2:{ exists [], heap. simpl. rewrite !app_nil_r. split; [done|].
      split; [constructor|]. split; [by right|done]. }
  destruct (heappop_is_Some (ref_lt store) heap Hne) as [[x heap1] Hpop].
  rewrite Hpop. cbv zeta.
  pose proof (heappop_length _ _ _ _ Hpop) as Hlen.
  destruct (is_filled (node_at store x)) eqn:Hx; cbn [negb].
  - destruct (IH heap1 depth (temp ++ [x]) ltac:(lia))
      as (popped & heap' & Hloop & Hpops & Hexit & Hbound).
    exists (x :: popped), heap'.
    rewrite filter_cons, decide_False by (unfold live; congruence).
    rewrite <-(app_assoc temp) in Hloop.
    split; [done|]. split; [by eapply pops_cons|]. by split.
  - destruct (IH heap1
      (depth ++ [(price (node_at store x), remaining_quantity (node_at store x))])
      (temp ++ [x]) ltac:(lia))
      as (popped & heap' & Hloop & Hpops & Hexit & Hbound).
    exists (x :: popped), heap'.
    rewrite filter_cons, decide_True by done. rewrite fmap_cons.
    change (depth_entry store x)
      with (price (node_at store x), remaining_quantity (node_at store x)).
    assert (∀ {A} (l : list A) e l', (l ++ [e]) ++ l' = l ++ e :: l') as Hmid
      by (intros; by rewrite <-app_assoc).
    rewrite !Hmid in Hloop. rewrite Hmid in Hexit, Hbound.
    split; [done|]. split; [by eapply pops_cons|]. split; [done|].
    intros Hd. apply Hbound. rewrite length_app. simpl. lia.
Qed.

Lemma foldl_heappush_ok store s heap l :
  Forall (on_side store s) heap → Forall (on_side store s) l →
  heap_ok (ref_lt store) heap →
  Forall (on_side store s) (foldl (heappush (ref_lt store)) heap l)
  ∧ heap_ok (ref_lt store) (foldl (heappush (ref_lt store)) heap l).
Proof.
  revert heap. induction l as [|x l IH]; intros heap HP Hl Hok; [done|].
  apply Forall_cons in Hl as [Hx Hl]. simpl.
  destruct (side_heappush store s heap x HP Hx Hok) as [HP1 Hok1].
  by apply IH.
Qed.

Lemma depth_side_spec store levels heap :
  ∃ popped heap1,
    depth_side store levels heap
    = Some (depth_entry store <$> filter (live store) popped,
            foldl (heappush (ref_lt store)) heap1 popped)
    ∧ pops store heap popped heap1
    ∧ (heap1 = []
       ∨ (levels ≤ Z.of_nat (length
            (depth_entry store <$> filter (live store) popped)))%Z)
    ∧ (Z.of_nat (length (depth_entry store <$> filter (live store) popped))
       ≤ Z.max 0 levels)%Z.
Proof.
  unfold depth_side.
  destruct (depth_loop_spec (S (length heap)) store levels heap [] [] ltac:(lia))
    as (popped & heap1 & Hloop & Hpops & Hexit & Hbound).
  simpl in *. rewrite Hloop. simpl. exists popped, heap1.
  split; [done|]. split; [done|]. split; [done|]. apply Hbound. lia.
Qed.

Lemma depth_side_perm store levels heap depth heap' :
  depth_side store levels heap = Some (depth, heap') → heap' ≡ₚ heap.
Proof.
  destruct (depth_side_spec store levels heap) as (popped & heap1 & -> & Hpops & _).
  intros ?; simplify_eq. rewrite foldl_heappush_perm.
  apply pops_perm in Hpops. rewrite Hpops. apply Permutation_app_comm.
Qed.

(** The prices of nodes listed in [__lt__] order. *)
Lemma sorted_prices_BUY store rs :
  Forall (on_side store BUY) rs →
  StronglySorted (λ a c, ref_lt store c a = false) rs →
  StronglySorted (λ p q, (q.1 ≤ p.1)%Z) (depth_entry store <$> rs).
Proof.
  intros HP Hs. induction Hs as [|a rs Hs IH Ha]; [constructor|].
  apply Forall_cons in HP as [Hside HP]. simpl. constructor; [by apply IH|].
  apply Forall_fmap, Forall_forall. intros c Hc. simpl.
  rewrite Forall_forall in Ha, HP. specialize (Ha c Hc).
  destruct (HP c Hc) as [_ Hcs].
  by apply OrderNode_not_lt_BUY in Ha as [? _].
Qed.

Lemma sorted_prices_SELL store rs :
  Forall (on_side store SELL) rs →
  StronglySorted (λ a c, ref_lt store c a = false) rs →
  StronglySorted (λ p q, (p.1 ≤ q.1)%Z) (depth_entry store <$> rs).
Proof.
  intros HP Hs. induction Hs as [|a rs Hs IH Ha]; [constructor|].
  apply Forall_cons in HP as [Hside HP]. simpl. constructor; [by apply IH|].
  apply Forall_fmap, Forall_forall. intros c Hc. simpl.
  rewrite Forall_forall in Ha, HP. specialize (Ha c Hc).
  destruct (HP c Hc) as [_ Hcs].
  by apply OrderNode_not_lt_SELL in Ha as [? _].
Qed.

Lemma StronglySorted_filter {A} (R : A → A → Prop) (P : A → Prop)
    `{∀ x, Decision (P x)} (l : list A) :
  StronglySorted R l → StronglySorted R (filter P l).
Proof.
  induction 1 as [|a l _ IH Ha]; [constructor|].
  rewrite filter_cons. destruct (decide (P a)); [|done].
  constructor; [done|]. apply Forall_forall.
  intros y [_ Hy]%list_elem_of_filter. rewrite Forall_forall in Ha. by apply Ha.
Qed.
(** What was popped comes before what stays in the heap. *)
Lemma pops_before store s heap popped heap' x y :
  Forall (on_side store s) heap → heap_ok (ref_lt store) heap →
  pops store heap popped heap' →
  x ∈ popped → y ∈ heap' → ref_lt store y x = false.
Proof.
  intros HP Hok Hpops. revert HP Hok.
  induction Hpops as [|heap z heap1 popped heap' Hpop Hrest IH]; intros HP Hok Hx Hy.
  { by apply elem_of_nil in Hx. }
  destruct (side_heappop store s heap z heap1 HP Hok Hpop) as [HP1 Hok1].
  apply elem_of_cons in Hx as [->|Hx]; [|by apply IH].
  pose proof Hpop as [Hhead Hperm]%heappop_Some.
  apply (side_heap_top store s heap); [done..|].
  rewrite Hperm. apply elem_of_cons. right.
  rewrite (pops_perm _ _ _ _ Hrest). apply elem_of_app. by right.
Qed.

(** One side of a depth query on a heap of side [s]: the entries are those
    of the nodes [rs], which have quantity left, come out of the heap in
    [__lt__] order and before the nodes left out. *)
Lemma depth_side_listing store s levels heap :
  Forall (on_side store s) heap → heap_ok (ref_lt store) heap →
  ∃ rs heap',
    depth_side store levels heap = Some (depth_entry store <$> rs, heap')
    ∧ (Z.of_nat (length rs) ≤ Z.max 0 levels)%Z
    ∧ rs ⊆+ heap
    ∧ Forall (live store) rs
    ∧ Forall (on_side store s) rs
    ∧ StronglySorted (λ r r', ref_lt store r' r = false) rs
    ∧ (∀ x r, x ∈ heap → live store x → x ∉ rs → r ∈ rs → ref_lt store x r = false)
    ∧ ((Z.of_nat (length rs) < levels)%Z → ∀ x, x ∈ heap → live store x → x ∈ rs).
Proof.
  intros HP Hok.
  destruct (depth_side_spec store levels heap)
    as (popped & heap1 & Hside & Hpops & Hexit & Hlen).
  exists (filter (live store) popped), (foldl (heappush (ref_lt store)) heap1 popped).
  rewrite length_fmap in Hexit, Hlen.
  pose proof (pops_perm _ _ _ _ Hpops) as Hperm.
  destruct (pops_sorted store s heap popped heap1 HP Hok Hpops) as (Hsorted & _ & _).
  split; [done|]. split; [done|]. split.
  { rewrite Hperm. apply submseteq_inserts_r, sublist_submseteq, sublist_filter. }
  split.
  { apply Forall_forall. by intros x [? _]%list_elem_of_filter. }
  split.
  { apply Forall_forall. intros x [_ Hx]%list_elem_of_filter.
    rewrite Forall_forall in HP. apply HP. rewrite Hperm. apply elem_of_app. by left. }
  split; [by apply StronglySorted_filter|]. split.
  - intros x r Hx Hlive Hnot [_ Hr]%list_elem_of_filter.
    rewrite Hperm in Hx. apply elem_of_app in Hx as [Hx|Hx].
    + destruct Hnot. by apply list_elem_of_filter.
    + by apply (pops_before store s heap popped heap1).
  - intros Hlt x Hx Hlive. destruct Hexit as [->|Hge]; [|lia].
    rewrite Hperm, app_nil_r in Hx. by apply list_elem_of_filter.
Qed.
End depth_facts.

(** * The id index and the symbol of a book *)

Module inv_facts.
Import heapq heapq_facts book_facts wf_facts match_facts match_claims.

Lemma live_valid store r : live store r → r < length store.
Proof. apply is_filled_valid. Qed.

Lemma set_filled_quantity_is_filled n :
  is_filled (set_filled_quantity (quantity n) n) = true.
Proof. unfold is_filled, remaining_quantity. simpl. apply Z.leb_le. lia. Qed.

Lemma nodes_push_by_side b r : nodes (push_by_side b r) = nodes b.
Proof. unfold push_by_side. by destruct (side _). Qed.

Lemma orders_by_id_push_by_side b r : orders_by_id (push_by_side b r) = orders_by_id b.
Proof. unfold push_by_side. by destruct (side _). Qed.

Lemma book_inv_init sym : book_inv sym (OrderBook_init sym).
Proof.
  split; [apply book_wf_init|..]; simpl.
  - intros r Hr. lia.
  - intros oid r Hl. by rewrite lookup_empty in Hl.
  - intros r Hr%live_valid. simpl in Hr. lia.
Qed.

(** A new order accepted by [add_order]. *)
Lemma book_inv_add_new sym b n b' :
  book_inv sym b → symbol n = sym →
  add_order (new_node b n).2 (new_node b n).1 = (true, b') →
  book_inv sym b'.
Proof.
  intros [Hwf Hsym Hids Hlive] Hn Hadd.
  assert (book_wf b') as Hwf'.
  { pose proof (book_wf_add_order (new_node b n).2 (new_node b n).1) as H.
    rewrite Hadd in H. apply H; [by apply book_wf_new_node|].
    simpl. rewrite length_app. simpl. lia. }
  revert Hadd. unfold add_order, new_node. cbn [fst snd nodes with_nodes orders_by_id].
  rewrite node_at_app_new.
  destruct (orders_by_id b !! order_id n) eqn:Hid; [done|].
  intros [= <-]. split; [done|..];
    rewrite ?nodes_push_by_side, ?orders_by_id_push_by_side;
    cbn [nodes with_nodes with_orders_by_id orders_by_id].
  - intros r. rewrite length_app. simpl. intros Hr.
    destruct (decide (r = length (nodes b))) as [->|Hne].
    + by rewrite node_at_app_new.
    + rewrite node_at_app_l by lia. apply Hsym. lia.
  - intros oid r [[<- <-]|[Hne Hl]]%lookup_insert_Some.
    + rewrite length_app, node_at_app_new. simpl. split; [lia|done].
    + destruct (Hids oid r Hl) as [Hr Ho].
      rewrite length_app, node_at_app_l by done. split; [lia|done].
  - intros r Hr. pose proof (live_valid _ _ Hr) as Hlt.
    rewrite length_app in Hlt. simpl in Hlt. unfold live in Hr.
    destruct (decide (r = length (nodes b))) as [->|Hne].
    + rewrite node_at_app_new. apply lookup_insert_eq.
    + rewrite node_at_app_l in * by lia.
      pose proof (Hlive r Hr) as Hl.
      rewrite lookup_insert_ne; [done|]. intros Heq. rewrite <-Heq in Hl. congruence.
Qed.

(** The matching loop, through what it leaves unchanged. *)
Lemma book_inv_frame sym s b b' :
  book_inv sym b → book_wf b' → step_frame s b b' → book_inv sym b'.
Proof.
  intros [Hwf Hsym Hids Hlive] Hwf' Hf. split; [done|..].
  - intros r. rewrite (frame_length _ _ _ Hf), (frame_node_symbol _ _ _ Hf). apply Hsym.
  - intros oid r. rewrite (frame_index _ _ _ Hf), (frame_length _ _ _ Hf),
      (frame_order_id _ _ _ Hf). apply Hids.
  - intros r Hr. rewrite (frame_index _ _ _ Hf), (frame_order_id _ _ _ Hf).
    apply Hlive. unfold live in *.
    destruct (is_filled (node_at (nodes b) r)) eqn:Hb; [|done].
    apply (frame_is_filled s b b') in Hb; [congruence|done].
Qed.

Lemma book_inv_match_loop sym s fuel commits b incoming trades b' trades' :
  book_inv sym b →
  match_loop s fuel commits b incoming trades = Some (b', trades') →
  book_inv sym b'.
Proof.
  intros Hinv Hloop. apply (book_inv_frame sym s b); [done|..].
  - eapply book_wf_match_loop; [|done]. by destruct Hinv.
  - by eapply match_loop_frame.
Qed.

Lemma book_inv_match_order sym commits b incoming b' trades :
  book_inv sym b → _match_order commits b incoming = Some (b', trades) →
  book_inv sym b'.
Proof. rewrite _match_order_eq. apply book_inv_match_loop. Qed.

(** The node a removed or modified order leaves behind is filled. *)
Lemma marked_not_live b r0 r :
  r0 < length (nodes b) →
  live (nodes (store_filled b r0 (quantity (node_at (nodes b) r0)))) r →
  r ≠ r0 ∧ live (nodes b) r.
Proof.
  unfold live. rewrite node_at_store_filled. intros Hr0.
  destruct (decide _) as [[-> _]|Hne].
  - by rewrite set_filled_quantity_is_filled.
  - intros Hr. split; [|done]. intros ->. apply Hne. by split.
Qed.

Lemma book_inv_remove_order sym b oid :
  book_inv sym b → book_inv sym (remove_order b oid).2.
Proof.
  intros Hinv. pose proof (book_wf_remove_order b oid (inv_wf _ _ Hinv)) as Hwf'.
  destruct Hinv as [Hwf Hsym Hids Hlive]. revert Hwf'. unfold remove_order.
  destruct (orders_by_id b !! oid) as [r0|] eqn:Hid; [|done].
  cbn [fst snd]. intros Hwf'. split; [done|..].
  - intros r. rewrite store_filled_length, store_filled_symbol. apply Hsym.
  - intros oid' r. rewrite store_filled_length, store_filled_order_id.
    cbn [orders_by_id store_filled with_nodes with_orders_by_id nodes].
    intros [_ Hl]%lookup_delete_Some. by apply Hids.
  - intros r Hr. rewrite store_filled_order_id.
    destruct (Hids oid r0 Hid) as [Hr0 Ho].
    apply (marked_not_live (with_orders_by_id b _)) in Hr as [Hne Hr]; [|done].
    cbn [orders_by_id store_filled with_nodes with_orders_by_id nodes] in *.
    pose proof (Hlive r Hr) as Hl.
    rewrite lookup_delete_ne; [done|]. intros Heq. rewrite <-Heq in Hl. congruence.
Qed.

Lemma book_inv_modify_order sym b oid q p now :
  book_inv sym b → book_inv sym (modify_order b oid q p now).2.
Proof.
  intros Hinv. pose proof (book_wf_modify_order b oid q p now (inv_wf _ _ Hinv)) as Hwf'.
  destruct Hinv as [Hwf Hsym Hids Hlive]. revert Hwf'. unfold modify_order.
  destruct (orders_by_id b !! oid) as [r0|] eqn:Hid; [|done].
  destruct (Hids oid r0 Hid) as [Hr0 Ho].
  cbv zeta. unfold new_node. cbn [fst snd]. intros Hwf'. split; [done|..];
    rewrite ?nodes_push_by_side, ?orders_by_id_push_by_side;
    cbn [orders_by_id with_nodes with_orders_by_id nodes];
    rewrite ?length_app, ?store_filled_length.
  - intros r. cbn [length]. intros Hr.
    destruct (decide (r = length (nodes b))) as [->|Hne].
    + rewrite node_at_app_new_eq by (by rewrite store_filled_length).
      simpl. by apply Hsym.
    + rewrite node_at_app_l by (rewrite store_filled_length; lia).
      rewrite store_filled_symbol. apply Hsym. lia.
  - intros oid' r [[<- <-]|[Hne Hl]]%lookup_insert_Some.
    + rewrite node_at_app_new_eq by (by rewrite store_filled_length).
      split; [cbn [length]; lia|done].
    + destruct (Hids oid' r Hl) as [Hr Ho'].
      rewrite node_at_app_l by (by rewrite store_filled_length).
      rewrite store_filled_order_id. split; [lia|done].
  - intros r Hr. pose proof (live_valid _ _ Hr) as Hlt.
    rewrite length_app, store_filled_length in Hlt. cbn [length] in Hlt.
    destruct (decide (r = length (nodes b))) as [->|Hne].
    + rewrite node_at_app_new_eq by (by rewrite store_filled_length).
      cbn [order_id]. rewrite Ho. apply lookup_insert_eq.
    + unfold live in Hr.
      rewrite node_at_app_l in * by (rewrite store_filled_length; lia).
      apply marked_not_live in Hr as [Hne0 Hr]; [|done].
      rewrite store_filled_order_id. pose proof (Hlive r Hr) as Hl.
      rewrite lookup_insert_ne; [done|]. intros Heq. rewrite <-Heq in Hl. congruence.
Qed.
End inv_facts.

(** * The engine *)

Module engine_facts.
Import heapq heapq_facts book_facts wf_facts match_facts match_claims inv_facts.

(** ** The books of the engine keep their invariants *)

Lemma engine_inv_init : engine_inv MatchingEngine_init.
Proof. intros sym b Hl. simpl in Hl. by rewrite lookup_empty in Hl. Qed.

Lemma get_order_book_inv eng sym :
  engine_inv eng →
  book_inv sym (get_order_book eng sym).1 ∧ engine_inv (get_order_book eng sym).2.
Proof.
  intros Hinv. unfold get_order_book.
  destruct (order_books eng !! sym) as [ob|] eqn:Hl; simpl.
  - split; [by apply Hinv|done].
  - split; [apply book_inv_init|].
    intros sym' b. simpl. intros [[<- <-]|[_ Hb]]%lookup_insert_Some.
    + apply book_inv_init.
    + by apply Hinv.
Qed.

Lemma engine_inv_put eng sym b :
  engine_inv eng → book_inv sym b → engine_inv (put_order_book eng sym b).
Proof.
  intros Hinv Hb sym' b'. simpl. intros [[<- <-]|[_ Hl]]%lookup_insert_Some; [done|].
  by apply Hinv.
Qed.

Lemma submit_order_total eng order_data now commits :
  is_Some (submit_order eng order_data now commits).
Proof.
  unfold submit_order. destruct (get_order_book _ _) as [ob eng1].
  unfold new_node. destruct (add_order _ _) as [[] ob2]; [|done].
  destruct (_match_order_total commits ob2 (length (nodes ob))) as [[ob3 ts] ->]. done.
Qed.

Lemma submit_order_inv eng order_data now commits res eng' :
  engine_inv eng →
  submit_order eng order_data now commits = Some (res, eng') →
  engine_inv eng'.
Proof.
  intros Hinv. unfold submit_order.
  destruct (get_order_book_inv eng (od_symbol order_data) Hinv) as [Hob Heng1].
  destruct (get_order_book _ _) as [ob eng1]. simpl in Hob, Heng1.
  destruct (new_node ob _) as [r ob1] eqn:Hnew.
  destruct (add_order ob1 r) as [[] ob2] eqn:Hadd; [|by intros ?; simplify_eq].
  destruct (_match_order commits ob2 r) as [[ob3 ts]|] eqn:Hmatch; [|done].
  simpl. intros ?; simplify_eq. apply engine_inv_put; [done|].
  eapply book_inv_match_order; [|done].
  eapply book_inv_add_new; [exact Hob| |by rewrite Hnew]. done.
Qed.

Lemma cancel_order_inv eng oid sym db_ok :
  engine_inv eng → engine_inv (cancel_order eng oid sym db_ok).2.
Proof.
  intros Hinv. unfold cancel_order.
  destruct (get_order_book_inv eng sym Hinv) as [Hob Heng1].
  destruct (get_order_book _ _) as [ob eng1]. simpl in Hob, Heng1.
  pose proof (book_inv_remove_order sym ob oid Hob) as Hrem.
  destruct (remove_order ob oid) as [[] ob1]; [|done].
  simpl in Hrem. destruct db_ok; by apply engine_inv_put.
Qed.

Lemma engine_modify_order_inv eng oid sym q p now db_ok :
  engine_inv eng → engine_inv (engine_modify_order eng oid sym q p now db_ok).2.
Proof.
  intros Hinv. unfold engine_modify_order.
  destruct (get_order_book_inv eng sym Hinv) as [Hob Heng1].
  destruct (get_order_book _ _) as [ob eng1]. simpl in Hob, Heng1.
  pose proof (book_inv_modify_order sym ob oid q p now Hob) as Hmod.
  destruct (modify_order ob oid q p now) as [[] ob1]; [|done].
  simpl in Hmod. destruct db_ok; by apply engine_inv_put.
Qed.

Lemma handle_total eng req : is_Some (handle eng req).
Proof.
  destruct req as [od now commits| |]; simpl; [|done..].
  destruct (submit_order_total eng od now commits) as [[res eng'] ->]. done.
Qed.

Lemma handle_inv eng req ts eng' :
  engine_inv eng → handle eng req = Some (ts, eng') → engine_inv eng'.
Proof.
  intros Hinv. destruct req as [od now commits|oid sym db_ok|oid sym q p now db_ok]; simpl.
  - destruct (submit_order eng od now commits) as [[res eng1]|] eqn:Hsub; [|done].
    simpl. intros ?; simplify_eq. by eapply submit_order_inv.
  - intros ?; simplify_eq. by apply cancel_order_inv.
  - intros ?; simplify_eq. by apply engine_modify_order_inv.
Qed.

Lemma run_total eng reqs : is_Some (run eng reqs).
Proof.
  revert eng. induction reqs as [|req reqs IH]; intros eng; simpl; [done|].
  destruct (handle_total eng req) as [[ts eng1] ->]. simpl.
  destruct (IH eng1) as [[ts' eng2] ->]. done.
Qed.

Lemma run_inv eng reqs ts eng' :
  engine_inv eng → run eng reqs = Some (ts, eng') → engine_inv eng'.
Proof.
  revert eng ts. induction reqs as [|req reqs IH]; intros eng ts Hinv; simpl.
  { by intros ?; simplify_eq. }
  destruct (handle eng req) as [[ts1 eng1]|] eqn:Hh; [|done]. simpl.
  destruct (run eng1 reqs) as [[ts2 eng2]|] eqn:Hr; [|done]. simpl.
  intros ?; simplify_eq. eapply IH; [|done]. by eapply handle_inv.
Qed.
End engine_facts.

(** * Filled quantities and traded volume *)

Module conserve_facts.
Import heapq heapq_facts book_facts wf_facts match_facts match_claims inv_facts
  engine_facts.

Lemma volume_app ts ts' : volume (ts ++ ts') = (volume ts + volume ts')%Z.
Proof. induction ts as [|t ts IH]; simpl; [done|]. rewrite IH. lia. Qed.

Lemma symbol_volume_app sym ts ts' :
  symbol_volume sym (ts ++ ts') = (symbol_volume sym ts + symbol_volume sym ts')%Z.
Proof. unfold symbol_volume. by rewrite filter_app, volume_app. Qed.

Lemma symbol_volume_all sym ts :
  Forall (λ t, trade_symbol t = sym) ts → symbol_volume sym ts = volume ts.
Proof.
  unfold symbol_volume. induction 1 as [|t ts Ht _ IH]; [done|].
  rewrite filter_cons_True by done. simpl. by rewrite IH.
Qed.

Lemma symbol_volume_other sym sym' ts :
  sym' ≠ sym → Forall (λ t, trade_symbol t = sym') ts → symbol_volume sym ts = 0%Z.
Proof.
  unfold symbol_volume. intros Hne. induction 1 as [|t ts Ht _ IH]; [done|].
  rewrite filter_cons_False by congruence. done.
Qed.

(** The trades of a book carry its symbol. *)
Lemma match_order_symbol sym commits b incoming b' trades :
  book_inv sym b → incoming < length (nodes b) →
  _match_order commits b incoming = Some (b', trades) →
  Forall (λ t, trade_symbol t = sym) trades.
Proof.
  intros [Hwf Hsym _ _] Hinc. rewrite _match_order_eq.
  intros (new & -> & Hnew)%match_loop_trades. simpl.
  eapply Forall_impl; [exact Hnew|]. intros t (resting & Hin & _ & _ & Hids).
  destruct (opp_orders_wf (side (node_at (nodes b) incoming)) b Hwf) as [HP _].
  rewrite Forall_forall in HP. destruct (HP resting Hin) as [Hr _].
  destruct (side (node_at (nodes b) incoming)); destruct Hids as (_ & _ & ->);
    by apply Hsym.
Qed.

Lemma add_order_nodes b r : nodes (add_order b r).2 = nodes b.
Proof.
  unfold add_order. destruct (orders_by_id b !! _); [done|].
  simpl. by rewrite nodes_push_by_side.
Qed.

Lemma book_filled_get_order_book s eng sym sym' :
  book_filled s (get_order_book eng sym).2 sym' = book_filled s eng sym'.
Proof.
  unfold get_order_book, book_filled.
  destruct (order_books eng !! sym) eqn:Hl; simpl; [done|].
  destruct (decide (sym = sym')) as [<-|Hne].
  - by rewrite lookup_insert_eq, Hl.
  - by rewrite lookup_insert_ne.
Qed.

Lemma filled_on_get_order_book s eng sym :
  filled_on s (nodes (get_order_book eng sym).1) = book_filled s eng sym.
Proof.
  unfold get_order_book, book_filled. by destruct (order_books eng !! sym).
Qed.

Lemma book_filled_put s eng sym b sym' :
  book_filled s (put_order_book eng sym b) sym'
  = if decide (sym = sym') then filled_on s (nodes b) else book_filled s eng sym'.
Proof.
  unfold put_order_book, book_filled. simpl. destruct (decide _) as [<-|Hne].
  - by rewrite lookup_insert_eq.
  - by rewrite lookup_insert_ne.
Qed.

(** A submit adds the same quantity to the bids and to the asks of its
    symbol, the quantity of its trades when the database accepts them. *)
Lemma submit_order_conserve eng order_data now commits res eng' sym :
  engine_inv eng →
  submit_order eng order_data now commits = Some (res, eng') →
  ∃ q, (0 ≤ q)%Z
    ∧ book_filled BUY eng' sym = (book_filled BUY eng sym + q)%Z
    ∧ book_filled SELL eng' sym = (book_filled SELL eng sym + q)%Z
    ∧ (journaled commits → symbol_volume sym res.2 = q).
Proof.
  intros Hinv. unfold submit_order.
  destruct (get_order_book_inv eng (od_symbol order_data) Hinv) as [Hob Heng1].
  pose proof (λ s, book_filled_get_order_book s eng (od_symbol order_data) sym) as Hget.
  pose proof (λ s, filled_on_get_order_book s eng (od_symbol order_data)) as Hbook.
  destruct (get_order_book _ _) as [ob eng1]. simpl in Hob, Heng1, Hget, Hbook.
  destruct (new_node ob _) as [r ob1] eqn:Hnew.
  destruct (add_order ob1 r) as [[] ob2] eqn:Hadd.
  2:{ intros ?; simplify_eq. exists 0%Z. rewrite !Hget. simpl.
      split; [done|]. split; [lia|]. split; [lia|done]. }
  destruct (_match_order commits ob2 r) as [[ob3 ts]|] eqn:Hmatch; [|done].
  simpl. intros ?; simplify_eq.
  assert (book_inv (od_symbol order_data) ob2) as Hob2.
  { eapply book_inv_add_new; [exact Hob| |by rewrite Hnew]. done. }
  pose proof (add_order_nodes ob1 r) as Hnodes. rewrite Hadd in Hnodes. simpl in Hnodes.
  unfold new_node in Hnew. simplify_eq. simpl in Hnodes.
  assert (∀ s, filled_on s (nodes ob2) = book_filled s eng (od_symbol order_data))
    as Hfill.
  { intros s. rewrite Hnodes, filled_on_app, <-Hbook. simpl. destruct (decide _); lia. }
  assert (length (nodes ob) < length (nodes ob2)) as Hr.
  { rewrite Hnodes, length_app. simpl. lia. }
  pose proof (match_order_symbol _ _ _ _ _ _ Hob2 Hr Hmatch) as Hsymb.
  rewrite _match_order_eq in Hmatch.
  apply match_loop_conserve in Hmatch as (q & Hq & HB & HS & HV);
    [|by destruct Hob2|done].
  rewrite !book_filled_put. destruct (decide (od_symbol order_data = sym)) as [<-|Hne].
  - exists q. rewrite HB, HS, !Hfill. split; [done|]. split; [done|]. split; [done|].
    intros Hj. rewrite symbol_volume_all by done. cbn [snd].
    rewrite HV by done. simpl. lia.
  - exists 0%Z. rewrite !Hget. split; [done|]. split; [lia|]. split; [lia|].
    intros _. by eapply symbol_volume_other.
Qed.

Lemma run_submits_conserve eng reqs ts eng' sym :
  engine_inv eng → Forall is_submit reqs →
  run eng reqs = Some (ts, eng') →
  ∃ q, (0 ≤ q)%Z
    ∧ book_filled BUY eng' sym = (book_filled BUY eng sym + q)%Z
    ∧ book_filled SELL eng' sym = (book_filled SELL eng sym + q)%Z
    ∧ (Forall journaled_request reqs → symbol_volume sym ts = q).
Proof.
  intros Hinv Hsub. revert eng ts Hinv.
  induction Hsub as [|req reqs Hreq _ IH]; intros eng ts Hinv; simpl.
  { intros ?; simplify_eq. exists 0%Z. split; [done|]. split; [lia|]. split; [lia|done]. }
  destruct req as [od now commits| |]; [|done..]. simpl.
  destruct (submit_order eng od now commits) as [[res eng1]|] eqn:Hs; [|done]. simpl.
  destruct (run eng1 reqs) as [[ts2 eng2]|] eqn:Hr; [|done]. simpl.
  intros ?; simplify_eq.
  pose proof (submit_order_inv _ _ _ _ _ _ Hinv Hs) as Hinv1.
  apply (submit_order_conserve _ _ _ _ _ _ sym Hinv) in Hs as (q1 & ? & HB1 & HS1 & HV1).
  apply (IH _ _ Hinv1) in Hr as (q2 & ? & HB2 & HS2 & HV2).
  exists (q1 + q2)%Z. split; [lia|]. split; [lia|]. split; [lia|].
  intros [Hj1 Hj2]%Forall_cons. rewrite symbol_volume_app.
  rewrite HV1 by done. rewrite HV2 by done. done.
Qed.
End conserve_facts.

(** * Best prices and the cleaning of the heaps *)

Module best_facts.
Import heapq heapq_facts book_facts wf_facts match_facts depth_facts.

(** The loop of [get_best_buy_price] and [get_best_sell_price] pops filled
    nodes until a node with quantity left is on top. *)
Lemma best_price_loop_spec fuel store heap :
  length heap < fuel →
  ∃ popped heap',
    best_price_loop fuel store heap
    = Some ((λ r, price (node_at store r)) <$> head heap', heap')
    ∧ pops store heap popped heap'
    ∧ Forall (λ x, is_filled (node_at store x) = true) popped
    ∧ (∀ top, head heap' = Some top → live store top).
Proof.
  revert heap. induction fuel as [|fuel IH]; intros heap Hlen; [lia|].
  cbn [best_price_loop]. destruct heap as [|order rest].
  { exists [], []. split; [done|]. split; [constructor|]. split; [constructor|]. done. }
  destruct (is_filled (node_at store order)) eqn:Hf; cbn [negb].
  - destruct (heappop (ref_lt store) (order :: rest)) as [[x h]|] eqn:Hpop.
    2:{ by apply heappop_None in Hpop. }
    pose proof Hpop as [Hhead Hperm]%heappop_Some. simpl in Hhead. simplify_eq.
    destruct (IH h) as (popped & heap' & -> & Hpops & Hfilled & Hlive).
    { apply heappop_length in Hpop. simpl in *. lia. }
    exists (x :: popped), heap'. split; [done|].
    split; [by eapply pops_cons|]. split; [by constructor|done].
  - exists [], (order :: rest). simpl. split; [done|]. split; [constructor|].
    split; [constructor|]. by intros top [= <-].
Qed.

Lemma best_price_side store s heap :
  Forall (on_side store s) heap → heap_ok (ref_lt store) heap →
  ∃ p heap',
    best_price_loop (S (length heap)) store heap = Some (p, heap')
    ∧ heap' ⊆+ heap
    ∧ (∀ x, x ∈ heap → live store x → x ∈ heap')
    ∧ Forall (on_side store s) heap' ∧ heap_ok (ref_lt store) heap'
    ∧ match p with
      | Some v =>
          ∃ top, top ∈ heap ∧ live store top ∧ price (node_at store top) = v
            ∧ ∀ x, x ∈ heap → live store x → ref_lt store x top = false
      | None => ∀ x, x ∈ heap → is_filled (node_at store x) = true
      end.
Proof.
  intros HP Hok.
  destruct (best_price_loop_spec (S (length heap)) store heap)
    as (popped & heap' & -> & Hpops & Hfilled & Hlive); [lia|].
  pose proof (pops_perm _ _ _ _ Hpops) as Hperm.
  destruct (pops_sorted store s heap popped heap' HP Hok Hpops) as (_ & HP' & Hok').
  assert (∀ x, x ∈ heap → live store x → x ∈ heap') as Hkeep.
  { intros x Hx Hl. rewrite Hperm in Hx. apply elem_of_app in Hx as [Hx|Hx]; [|done].
    rewrite Forall_forall in Hfilled. unfold live in Hl. rewrite Hfilled in Hl; done. }
  eexists _, heap'. split; [done|].
  split; [rewrite Hperm; by apply submseteq_inserts_l|].
  split; [done|]. split; [done|]. split; [done|].
  destruct heap' as [|top rest] eqn:Hheap'; simpl.
  - intros x Hx. destruct (is_filled (node_at store x)) eqn:Hf; [done|].
    apply Hkeep in Hx; [|done]. by apply elem_of_nil in Hx.
  - exists top. split.
    { rewrite Hperm. apply elem_of_app. right. by left. }
    split; [by apply Hlive|]. split; [done|].
    intros x Hx Hl. apply (side_heap_top store s (top :: rest)); [done..|].
    by apply Hkeep.
Qed.

(** The loop of [cleanup_filled_orders] empties the heap. *)
Lemma cleanup_loop_spec fuel store heap temp :
  length heap < fuel →
  ∃ popped,
    cleanup_loop fuel store heap temp = Some ([], temp ++ filter (live store) popped)
    ∧ pops store heap popped [].
Proof.
  revert heap temp. induction fuel as [|fuel IH]; intros heap temp Hlen; [lia|].
  cbn [cleanup_loop]. case_bool_decide as Hnil; cbn [negb].
  { subst heap. exists []. rewrite app_nil_r. split; [done|constructor]. }
  destruct (heappop (ref_lt store) heap) as [[x h]|] eqn:Hpop.
  2:{ by apply heappop_None in Hpop. }
  destruct (IH h (if negb (is_filled (node_at store x)) then temp ++ [x] else temp))
    as (popped & -> & Hpops).
  { apply heappop_length in Hpop. lia. }
  exists (x :: popped). split; [|by eapply pops_cons].
  rewrite filter_cons. destruct (decide (live store x)) as [Hl|Hl]; unfold live in Hl.
  - rewrite Hl. simpl. by rewrite <-app_assoc.
  - apply not_false_is_true in Hl. by rewrite Hl.
Qed.

Lemma cleanup_side_spec store s heap :
  ∃ heap',
    cleanup_side store heap = Some heap'
    ∧ heap' ≡ₚ filter (live store) heap
    ∧ (Forall (on_side store s) heap → heap_ok (ref_lt store) heap →
       Forall (on_side store s) heap' ∧ heap_ok (ref_lt store) heap').
Proof.
  unfold cleanup_side.
  destruct (cleanup_loop_spec (S (length heap)) store heap []) as (popped & -> & Hpops);
    [lia|].
  pose proof (pops_perm _ _ _ _ Hpops) as Hperm. rewrite app_nil_r in Hperm.
  simpl. eexists. split; [done|]. split.
  - by rewrite foldl_heappush_perm, Hperm.
  - intros HP Hok. apply foldl_heappush_ok; [done| |apply heap_ok_nil].
    apply Forall_forall. intros x [_ Hx]%list_elem_of_filter.
    rewrite Forall_forall in HP. apply HP. by rewrite Hperm.
Qed.
End best_facts.

(** * Submits and cancels leave no crossed book *)

Module cross_facts.
Import heapq heapq_facts book_facts wf_facts match_facts match_claims depth_facts
  inv_facts engine_facts conserve_facts.

Lemma uncrossed_for_iff s b : uncrossed b ↔ uncrossed_for s b.
Proof.
  unfold uncrossed, uncrossed_for. destruct s; simpl.
  - split; intros H x y Hx Hy Hlx Hly.
    + apply Z.leb_gt. by apply H.
    + apply Z.leb_gt. by apply H.
  - split; intros H x y Hx Hy Hlx Hly.
    + rewrite Z.geb_leb. apply Z.leb_gt. by apply H.
    + specialize (H y x Hy Hx Hly Hlx). rewrite Z.geb_leb in H. by apply Z.leb_gt.
Qed.

Lemma crosses_price s a a' c c' :
  price a = price a' → price c = price c' → crosses s a c = crosses s a' c'.
Proof. unfold crosses. by intros -> ->. Qed.

Lemma own_orders_wf s b :
  book_wf b → Forall (on_side (nodes b) s) (own_orders s b).
Proof. intros []. by destruct s. Qed.

(** When the loop stops with the incoming order not filled, no order of
    the opposite heap crosses it: the top does not, and it has the best
    price. *)
Lemma match_step_None s commits b incoming trades :
  book_wf b → match_step s commits b incoming trades = None →
  is_filled (node_at (nodes b) incoming) = true
  ∨ ∀ y, y ∈ opp_orders s b →
      crosses s (node_at (nodes b) y) (node_at (nodes b) incoming) = false.
Proof.
  intros Hwf. unfold match_step.
  destruct (is_filled (node_at (nodes b) incoming)) eqn:Hinc; [by left|]. cbn [negb].
  destruct (opp_orders_wf s b Hwf) as [HP Hok].
  pose proof (fill_pair_opp_orders s b incoming) as Hfp.
  destruct (opp_orders s b) as [|resting rest] eqn:Hheap.
  { intros _. right. intros y Hy. by apply elem_of_nil in Hy. }
  destruct (crosses s (node_at (nodes b) resting) (node_at (nodes b) incoming)) eqn:Hcross.
  - destruct (is_filled (node_at (nodes b) resting)).
    + destruct (heappop _ _) as [[? ?]|] eqn:Hpop; [done|].
      by apply heappop_None in Hpop.
    + destruct (next_commit commits) as [ok cs]. cbv zeta.
      destruct (is_filled (node_at (nodes (fill_pair b incoming resting)) resting));
        [|done].
      rewrite Hfp.
      destruct (heappop _ _) as [[? ?]|] eqn:Hpop; [done|].
      by apply heappop_None in Hpop.
  - intros _. right. intros y Hy.
    pose proof (side_heap_top (nodes b) (opposite s) (resting :: rest) resting y
                  HP Hok eq_refl Hy) as Hlt.
    rewrite Forall_forall in HP. destruct (HP y Hy) as [_ Hys].
    unfold ref_lt in Hlt. destruct s; simpl in *.
    + apply OrderNode_not_lt_SELL in Hlt as [Hle _]; [|done].
      apply Z.leb_gt. apply Z.leb_gt in Hcross. lia.
    + apply OrderNode_not_lt_BUY in Hlt as [Hle _]; [|done].
      rewrite Z.geb_leb in *. apply Z.leb_gt. apply Z.leb_gt in Hcross. lia.
Qed.

Lemma match_loop_exit s fuel commits b incoming trades b' trades' :
  book_wf b →
  match_loop s fuel commits b incoming trades = Some (b', trades') →
  is_filled (node_at (nodes b') incoming) = true
  ∨ ∀ y, y ∈ opp_orders s b' →
      crosses s (node_at (nodes b') y) (node_at (nodes b') incoming) = false.
Proof.
  revert commits b trades. induction fuel as [|fuel IH]; intros commits b trades Hwf; [done|].
  cbn [match_loop].
  destruct (match_step s commits b incoming trades) as [[[cs b1] ts]|] eqn:Hstep.
  - apply IH. eapply book_wf_step_case; [done|]. by eapply match_step_case.
  - intros ?; simplify_eq. by eapply match_step_None.
Qed.

Lemma add_order_heaps s b r b' :
  add_order b r = (true, b') → side (node_at (nodes b) r) = s →
  own_orders s b' ≡ₚ r :: own_orders s b ∧ opp_orders s b' = opp_orders s b.
Proof.
  unfold add_order. destruct (orders_by_id b !! _); [done|].
  intros [= <-] Hs. unfold push_by_side. cbn [nodes with_orders_by_id]. rewrite Hs.
  destruct s; simpl; (split; [apply heappush_perm|done]).
Qed.

(** A new order that is accepted and matched leaves the book uncrossed. *)
Lemma uncrossed_submit b n commits b2 b3 trades :
  book_wf b → uncrossed b →
  add_order (new_node b n).2 (new_node b n).1 = (true, b2) →
  _match_order commits b2 (length (nodes b)) = Some (b3, trades) →
  uncrossed b3.
Proof.
  intros Hwf Hun Hadd Hm.
  pose proof (add_order_nodes (new_node b n).2 (new_node b n).1) as Hnodes.
  rewrite Hadd in Hnodes. simpl in Hnodes.
  assert (book_wf b2) as Hwf2.
  { pose proof (book_wf_add_order (new_node b n).2 (new_node b n).1) as H.
    rewrite Hadd in H. apply H; [by apply book_wf_new_node|].
    simpl. rewrite length_app. simpl. lia. }
  assert (∀ z, z < length (nodes b) → node_at (nodes b2) z = node_at (nodes b) z) as Hold.
  { intros z Hz. rewrite Hnodes. by apply node_at_app_l. }
  assert (node_at (nodes b2) (length (nodes b)) = n) as Hnew.
  { rewrite Hnodes. apply node_at_app_new. }
  rewrite _match_order_eq, Hnew in Hm.
  pose proof (match_loop_frame _ _ _ _ _ _ _ _ Hm) as Hf.
  pose proof (match_loop_exit _ _ _ _ _ _ _ _ Hwf2 Hm) as Hexit.
  destruct (add_order_heaps (side n) _ _ _ Hadd) as [Hown Hopp].
  { simpl. by rewrite node_at_app_new. }
  assert (own_orders (side n) (new_node b n).2 = own_orders (side n) b) as Hown0.
  { by destruct (side n). }
  assert (opp_orders (side n) (new_node b n).2 = opp_orders (side n) b) as Hopp0.
  { by destruct (side n). }
  rewrite Hown0 in Hown. rewrite Hopp0 in Hopp. cbn [new_node fst] in Hown.
  apply (uncrossed_for_iff (side n)). intros x y Hx Hy3 Hlx Hly.
  rewrite (frame_own _ _ _ Hf), Hown in Hx.
  pose proof (frame_opp _ _ _ Hf y Hy3) as Hy. rewrite Hopp in Hy.
  pose proof (opp_orders_wf (side n) b Hwf) as [HPopp _].
  pose proof (own_orders_wf (side n) b Hwf) as HPown.
  rewrite Forall_forall in HPopp, HPown.
  destruct (HPopp y Hy) as [Hyv _].
  assert (∀ z, z < length (nodes b) → live (nodes b3) z → live (nodes b) z) as Hlive.
  { intros z Hz Hl. unfold live in *. rewrite <-(Hold z Hz).
    destruct (is_filled (node_at (nodes b2) z)) eqn:Hb; [|done].
    apply (frame_is_filled _ _ _ _ Hf) in Hb. congruence. }
  apply elem_of_cons in Hx as [->|Hx].
  - destruct Hexit as [Hfilled|Hnone]; [|by apply Hnone].
    unfold live in Hlx. congruence.
  - destruct (HPown x Hx) as [Hxv _].
    rewrite (crosses_price _ _ (node_at (nodes b) y) _ (node_at (nodes b) x)).
    + apply (uncrossed_for_iff (side n)) in Hun.
      apply (Hun x y); [done|done|by apply Hlive|by apply Hlive].
    + by rewrite (frame_price _ _ _ Hf), Hold.
    + by rewrite (frame_price _ _ _ Hf), Hold.
Qed.

(** The node [remove_order] marks is filled; the others are as before. *)
Lemma live_marked b r0 r :
  live (nodes (store_filled b r0 (quantity (node_at (nodes b) r0)))) r →
  live (nodes b) r.
Proof.
  unfold live. rewrite node_at_store_filled.
  destruct (decide _) as [[-> _]|Hne]; [|done].
  by rewrite set_filled_quantity_is_filled.
Qed.

Lemma uncrossed_remove_order b oid : uncrossed b → uncrossed (remove_order b oid).2.
Proof.
  intros Hun. unfold remove_order. destruct (orders_by_id b !! oid) as [r0|]; [|done].
  cbn [snd]. intros x y Hx Hy Hlx Hly. rewrite !store_filled_price.
  apply (live_marked (with_orders_by_id b _)) in Hlx, Hly. by apply Hun.
Qed.

Lemma uncrossed_init sym : uncrossed (OrderBook_init sym).
Proof. intros x y Hx. by apply elem_of_nil in Hx. Qed.

Lemma engine_uncrossed_init : engine_uncrossed MatchingEngine_init.
Proof. intros sym b Hl. simpl in Hl. by rewrite lookup_empty in Hl. Qed.

Lemma get_order_book_uncrossed eng sym :
  engine_uncrossed eng →
  uncrossed (get_order_book eng sym).1 ∧ engine_uncrossed (get_order_book eng sym).2.
Proof.
  intros Hun. unfold get_order_book.
  destruct (order_books eng !! sym) as [ob|] eqn:Hl; simpl.
  - split; [by apply (Hun sym)|done].
  - split; [apply uncrossed_init|].
    intros sym' b. simpl. intros [[<- <-]|[_ Hb]]%lookup_insert_Some.
    + apply uncrossed_init.
    + by apply (Hun sym').
Qed.

Lemma engine_uncrossed_put eng sym b :
  engine_uncrossed eng → uncrossed b → engine_uncrossed (put_order_book eng sym b).
Proof.
  intros Hun Hb sym' b'. simpl. intros [[<- <-]|[_ Hl]]%lookup_insert_Some; [done|].
  by apply (Hun sym').
Qed.

Lemma submit_order_uncrossed eng order_data now commits res eng' :
  engine_inv eng → engine_uncrossed eng →
  submit_order eng order_data now commits = Some (res, eng') →
  engine_uncrossed eng'.
Proof.
  intros Hinv Hun. unfold submit_order.
  destruct (get_order_book_inv eng (od_symbol order_data) Hinv) as [Hob _].
  destruct (get_order_book_uncrossed eng (od_symbol order_data) Hun) as [Hobu Heng1].
  destruct (get_order_book _ _) as [ob eng1]. simpl in Hob, Hobu, Heng1.
  unfold new_node.
  destruct (add_order _ _) as [[] ob2] eqn:Hadd; [|by intros ?; simplify_eq].
  destruct (_match_order commits ob2 _) as [[ob3 ts]|] eqn:Hmatch; [|done].
  simpl. intros ?; simplify_eq. apply engine_uncrossed_put; [done|].
  eapply (uncrossed_submit ob); [by apply (inv_wf _ _ Hob)|done|exact Hadd|exact Hmatch].
Qed.

Lemma cancel_order_uncrossed eng oid sym db_ok :
  engine_uncrossed eng → engine_uncrossed (cancel_order eng oid sym db_ok).2.
Proof.
  intros Hun. unfold cancel_order.
  destruct (get_order_book_uncrossed eng sym Hun) as [Hob Heng1].
  destruct (get_order_book _ _) as [ob eng1]. simpl in Hob, Heng1.
  pose proof (uncrossed_remove_order ob oid Hob) as Hrem.
  destruct (remove_order ob oid) as [[] ob1]; [|done].
  simpl in Hrem. destruct db_ok; by apply engine_uncrossed_put.
Qed.

Lemma run_uncrossed eng reqs ts eng' :
  engine_inv eng → engine_uncrossed eng →
  Forall (λ req, is_modify req = false) reqs →
  run eng reqs = Some (ts, eng') → engine_uncrossed eng'.
Proof.
  revert eng ts. induction reqs as [|req reqs IH]; intros eng ts Hinv Hun Hreqs; simpl.
  { by intros ?; simplify_eq. }
  apply Forall_cons in Hreqs as [Hreq Hreqs].
  destruct (handle eng req) as [[ts1 eng1]|] eqn:Hh; [|done]. simpl.
  destruct (run eng1 reqs) as [[ts2 eng2]|] eqn:Hr; [|done]. simpl.
  intros ?; simplify_eq. apply (IH eng1 ts2); [by eapply handle_inv| |done..].
  destruct req as [od now commits|oid sym db_ok|]; simpl in Hh; [| |done].
  - destruct (submit_order eng od now commits) as [[res eng0]|] eqn:Hsub; [|done].
    simpl in Hh. simplify_eq. by eapply submit_order_uncrossed.
  - simplify_eq. by apply cancel_order_uncrossed.
Qed.
End cross_facts.

(** * Market data: the depth and the best prices *)

Module market_facts.
Import heapq heapq_facts book_facts wf_facts match_facts depth_facts inv_facts
  engine_facts best_facts cross_facts.

(** A depth query pushes back what it popped: the heap is in heap order
    again. *)
Lemma depth_side_wf store s levels heap depth heap' :
  Forall (on_side store s) heap → heap_ok (ref_lt store) heap →
  depth_side store levels heap = Some (depth, heap') →
  Forall (on_side store s) heap' ∧ heap_ok (ref_lt store) heap'.
Proof.
  intros HP Hok.
  destruct (depth_side_spec store levels heap) as (popped & heap1 & -> & Hpops & _).
  intros [= _ <-].
  destruct (pops_sorted store s heap popped heap1 HP Hok Hpops) as (_ & HP1 & Hok1).
  apply foldl_heappush_ok; [done| |done].
  apply Forall_forall. intros x Hx. rewrite Forall_forall in HP. apply HP.
  rewrite (pops_perm _ _ _ _ Hpops). apply elem_of_app. by left.
Qed.

Lemma prices_equal store s a c :
  on_side store s a → on_side store s c →
  ref_lt store a c = false → ref_lt store c a = false →
  price (node_at store a) = price (node_at store c).
Proof.
  intros [_ Ha] [_ Hc]. unfold ref_lt. intros Hac Hca. destruct s.
  - apply OrderNode_not_lt_BUY in Hac as [? _]; [|done].
    apply OrderNode_not_lt_BUY in Hca as [? _]; [|done]. lia.
  - apply OrderNode_not_lt_SELL in Hac as [? _]; [|done].
    apply OrderNode_not_lt_SELL in Hca as [? _]; [|done]. lia.
Qed.

(** One side of [get_market_data]: the best price read after the depth is
    the price of the first entry of the depth. *)
Lemma depth_then_best store s levels heap :
  (0 < levels)%Z →
  Forall (on_side store s) heap → heap_ok (ref_lt store) heap →
  ∃ depth heap1 p heap2,
    depth_side store levels heap = Some (depth, heap1)
    ∧ best_price_loop (S (length heap1)) store heap1 = Some (p, heap2)
    ∧ p = fst <$> head depth
    ∧ (∀ v, p = Some v →
         ∃ x, x ∈ heap ∧ live store x ∧ price (node_at store x) = v)
    ∧ heap2 ⊆+ heap
    ∧ Forall (on_side store s) heap2 ∧ heap_ok (ref_lt store) heap2.
Proof.
  intros Hlev HP Hok.
  destruct (depth_side_listing store s levels heap HP Hok)
    as (rs & heap1 & Hd & _ & Hsub & Hlive & Hside & Hsort & Hbefore & Hall).
  pose proof (depth_side_perm _ _ _ _ _ Hd) as Hperm.
  destruct (depth_side_wf _ _ _ _ _ _ HP Hok Hd) as [HP1 Hok1].
  destruct (best_price_side store s heap1 HP1 Hok1)
    as (p & heap2 & Hbest & Hsub2 & _ & HP2 & Hok2 & Hp).
  exists (depth_entry store <$> rs), heap1, p, heap2.
  split; [done|]. split; [done|].
  assert (∀ v, p = Some v →
            ∃ x, x ∈ heap ∧ live store x ∧ price (node_at store x) = v) as Hsome.
  { intros v ->. destruct Hp as (top & Htop & Hl & Hv & _).
    exists top. by rewrite <-Hperm. }
  split; [|split; [done|split; [by rewrite <-Hperm|done]]].
  destruct rs as [|r0 rest].
  - destruct p as [v|]; [|done]. destruct (Hsome v eq_refl) as (x & Hx & Hl & _).
    apply Hall in Hx; [|simpl; lia|done]. by apply elem_of_nil in Hx.
  - apply Forall_cons in Hlive as [Hl0 _]. apply Forall_cons in Hside as [Hs0 _].
    assert (r0 ∈ heap) as Hr0.
    { eapply elem_of_submseteq; [|done]. by left. }
    destruct p as [v|].
    2:{ rewrite <-Hperm in Hr0. apply Hp in Hr0. unfold live in Hl0. congruence. }
    destruct Hp as (top & Htop & Hl & <- & Hmin). simpl. f_equal.
    rewrite Forall_forall in HP1. apply (prices_equal store s); [by apply HP1|done| |].
    + destruct (decide (top ∈ r0 :: rest)) as [Hin|Hout].
      * apply elem_of_cons in Hin as [->|Hin].
        { apply (lt_irrefl (ref_lt store) (on_side store s)); [|done].
          intros a c ? ?. by apply (ref_lt_asym store s). }
        apply StronglySorted_inv in Hsort as [_ Hrest].
        rewrite Forall_forall in Hrest. by apply Hrest.
      * apply Hbefore; [by rewrite <-Hperm|done|done|by left].
    + apply Hmin; [by rewrite Hperm|done].
Qed.

(** The three queries of [get_market_data] on a well-formed book. *)
Lemma market_data_book b :
  book_wf b →
  ∃ bd sd b1 bid b2 ask b3,
    get_market_depth b 10 = Some (bd, sd, b1)
    ∧ get_best_buy_price b1 = Some (bid, b2)
    ∧ get_best_sell_price b2 = Some (ask, b3)
    ∧ bid = fst <$> head bd ∧ ask = fst <$> head sd
    ∧ (∀ v, bid = Some v →
         ∃ x, x ∈ buy_orders b ∧ live (nodes b) x ∧ price (node_at (nodes b) x) = v)
    ∧ (∀ v, ask = Some v →
         ∃ y, y ∈ sell_orders b ∧ live (nodes b) y ∧ price (node_at (nodes b) y) = v)
    ∧ nodes b3 = nodes b ∧ orders_by_id b3 = orders_by_id b
    ∧ book_symbol b3 = book_symbol b
    ∧ buy_orders b3 ⊆+ buy_orders b ∧ sell_orders b3 ⊆+ sell_orders b
    ∧ book_wf b3.
Proof.
  intros [Hbs Hss Hbh Hsh].
  destruct (depth_then_best (nodes b) BUY 10 (buy_orders b))
    as (bd & bh1 & bid & bh2 & Hbd & Hbb & Hbid & Hbsome & Hbsub & HbP & Hbok);
    [lia|done|done|].
  destruct (depth_then_best (nodes b) SELL 10 (sell_orders b))
    as (sd & sh1 & ask & sh2 & Hsd & Hsb & Hask & Hssome & Hssub & HsP & Hsok);
    [lia|done|done|].
  exists bd, sd, (with_sell_orders (with_buy_orders b bh1) sh1), bid,
    (with_sell_orders (with_buy_orders b bh2) sh1), ask,
    (with_sell_orders (with_buy_orders b bh2) sh2).
  split.
  { unfold get_market_depth. rewrite Hbd. cbn [mbind option_bind].
    cbn [nodes sell_orders with_buy_orders]. rewrite Hsd. done. }
  split.
  { unfold get_best_buy_price. cbn [nodes buy_orders with_buy_orders with_sell_orders].
    rewrite Hbb. done. }
  split.
  { unfold get_best_sell_price. cbn [nodes sell_orders with_buy_orders with_sell_orders].
    rewrite Hsb. done. }
  do 9 (split; [done|]). by split.
Qed.

Lemma get_market_data_spec eng sym :
  engine_inv eng →
  ∃ md eng',
    get_market_data eng sym = Some (md, eng')
    ∧ best_bid md = fst <$> head (market_depth md).1
    ∧ best_ask md = fst <$> head (market_depth md).2
    ∧ (engine_uncrossed eng →
       match best_bid md, best_ask md with
       | Some bid, Some ask => (bid < ask)%Z
       | _, _ => True
       end)
    ∧ engine_inv eng'
    ∧ (engine_uncrossed eng → engine_uncrossed eng').
Proof.
  intros Hinv. unfold get_market_data.
  destruct (get_order_book_inv eng sym Hinv) as [Hob Heng1].
  pose proof (get_order_book_uncrossed eng sym) as Hunb.
  destruct (get_order_book _ _) as [ob eng1]. simpl in Hob, Heng1, Hunb.
  destruct (market_data_book ob (inv_wf _ _ Hob))
    as (bd & sd & b1 & bid & b2 & ask & b3 & -> & Hb & Hs & Hbid & Hask & Hbsome
        & Hssome & Hn & Hi & Hsym & Hbsub & Hssub & Hwf3).
  cbn [mbind option_bind]. rewrite Hb. cbn [mbind option_bind]. rewrite Hs.
  cbn [mbind option_bind]. eexists _, _. split; [done|]. cbn [best_bid best_ask market_depth].
  split; [done|]. split; [done|].
  assert (engine_uncrossed eng → uncrossed b3) as Hun3.
  { intros [Hun _]%Hunb x y Hx Hy. rewrite Hn. apply Hun.
    - by eapply elem_of_submseteq.
    - by eapply elem_of_submseteq. }
  split; [|split].
  - intros [Hun _]%Hunb. destruct bid as [v|]; [|done]. destruct ask as [w|]; [|done].
    destruct (Hbsome v eq_refl) as (x & Hx & Hlx & <-).
    destruct (Hssome w eq_refl) as (y & Hy & Hly & <-). by apply Hun.
  - apply engine_inv_put; [done|]. destruct Hob as [_ Hsy Hids Hlive].
    split; [done|..]; rewrite ?Hn, ?Hi; done.
  - intros Hun. apply engine_uncrossed_put; [by apply Hunb|by apply Hun3].
Qed.
End market_facts.

(** * Filled quantities stay within the quantities *)

Module bound_facts.
Import heapq heapq_facts book_facts wf_facts match_facts match_claims inv_facts
  engine_facts conserve_facts.

Lemma Forall_node_at (P : OrderNode → Prop) store :
  Forall P store ↔ ∀ r, r < length store → P (node_at store r).
Proof.
  rewrite Forall_lookup. split.
  - intros H r Hr. apply (H r). unfold node_at. by apply list_lookup_lookup_total_lt.
  - intros H r n Hl. pose proof (node_at_lookup _ _ _ Hl) as Hn. rewrite <-Hn.
    apply H. by eapply lookup_lt_Some.
Qed.

Lemma store_filled_bounded b r v :
  (r < length (nodes b) → (0 ≤ v ≤ quantity (node_at (nodes b) r))%Z) →
  Forall fill_bounded (nodes b) → Forall fill_bounded (nodes (store_filled b r v)).
Proof.
  intros Hv. rewrite !Forall_node_at. intros H x. rewrite store_filled_length. intros Hx.
  rewrite node_at_store_filled. destruct (decide _) as [[-> Hr]|_]; [|by apply H].
  unfold fill_bounded. simpl. by apply Hv.
Qed.

(** Marking a node filled, as [remove_order] and [modify_order] do. *)
Lemma mark_bounded b r :
  Forall fill_bounded (nodes b) →
  Forall fill_bounded (nodes (store_filled b r (quantity (node_at (nodes b) r)))).
Proof.
  intros Hb. apply store_filled_bounded; [|done]. intros Hr.
  rewrite Forall_node_at in Hb. specialize (Hb r Hr). unfold fill_bounded in Hb. lia.
Qed.

Lemma app_bounded store n :
  (0 ≤ quantity n)%Z → filled_quantity n = 0%Z →
  Forall fill_bounded store → Forall fill_bounded (store ++ [n]).
Proof.
  intros Hq Hf Hb. apply Forall_app. split; [done|]. apply Forall_singleton.
  unfold fill_bounded. lia.
Qed.

Lemma fill_pair_bounded b incoming resting :
  incoming ≠ resting →
  is_filled (node_at (nodes b) incoming) = false →
  is_filled (node_at (nodes b) resting) = false →
  Forall fill_bounded (nodes b) →
  Forall fill_bounded (nodes (fill_pair b incoming resting)).
Proof.
  intros Hne Hi Hr. rewrite !Forall_node_at. intros H x. rewrite fill_pair_length.
  intros Hx. unfold fill_bounded. rewrite fill_pair_filled, fill_pair_quantity.
  pose proof (trade_qty_pos _ _ _ Hi Hr) as Hq.
  pose proof (H x Hx) as Hbx. unfold fill_bounded in Hbx.
  unfold trade_qty, remaining_quantity in *.
  repeat case_decide; destruct_and?; subst; try done; lia.
Qed.

(** The incoming order is not the order on top of the opposite heap. *)
Lemma incoming_not_resting s b incoming resting rest :
  book_wf b → side (node_at (nodes b) incoming) = s →
  opp_orders s b = resting :: rest → incoming ≠ resting.
Proof.
  intros Hwf Hs Hheap ->. destruct (opp_orders_wf s b Hwf) as [HP _].
  rewrite Hheap in HP. apply Forall_cons in HP as [[_ Hrs] _].
  rewrite Hs in Hrs. by destruct s.
Qed.

(** A property kept by the iterations is kept by the loop. *)
Lemma match_loop_keeps (I : OrderBook → Prop) s fuel commits b incoming trades b' trades' :
  (∀ b1 b2, book_wf b1 → side (node_at (nodes b1) incoming) = s →
     I b1 → step_case s b1 incoming b2 → I b2) →
  book_wf b → side (node_at (nodes b) incoming) = s → I b →
  match_loop s fuel commits b incoming trades = Some (b', trades') → I b'.
Proof.
  intros Hstep. revert commits b trades.
  induction fuel as [|fuel IH]; intros commits b trades Hwf Hs HI; [done|].
  cbn [match_loop].
  destruct (match_step s commits b incoming trades) as [[[cs b1] ts]|] eqn:Hm.
  2:{ by intros ?; simplify_eq. }
  apply match_step_case in Hm. apply IH.
  - by eapply book_wf_step_case.
  - by rewrite (frame_side _ _ _ (step_case_frame _ _ _ _ Hm)).
  - by eapply Hstep.
Qed.

Lemma step_case_bounded s b incoming b' :
  book_wf b → side (node_at (nodes b) incoming) = s →
  Forall fill_bounded (nodes b) → step_case s b incoming b' →
  Forall fill_bounded (nodes b').
Proof.
  intros Hwf Hs Hb Hstep.
  destruct Hstep; rewrite ?nodes_with_opp_orders; [done|..];
    (apply fill_pair_bounded; [by eapply incoming_not_resting|done..]).
Qed.

Lemma match_order_bounded commits b incoming b' trades :
  book_wf b → Forall fill_bounded (nodes b) →
  _match_order commits b incoming = Some (b', trades) →
  Forall fill_bounded (nodes b').
Proof.
  intros Hwf Hb. rewrite _match_order_eq.
  apply (match_loop_keeps (λ b, Forall fill_bounded (nodes b))); [|done..].
  intros b1 b2. apply step_case_bounded.
Qed.

(** ** Filled nodes are left as they are *)

Lemma keeps_filled_refl store : keeps_filled store store.
Proof. by intros r n. Qed.

Lemma keeps_filled_trans s1 s2 s3 :
  keeps_filled s1 s2 → keeps_filled s2 s3 → keeps_filled s1 s3.
Proof. intros H1 H2 r n Hl Hf. apply H2; [|done]. by apply H1. Qed.

Lemma keeps_filled_app store n : keeps_filled store (store ++ [n]).
Proof. intros r n' Hl _. by apply lookup_app_l_Some. Qed.

Lemma fill_pair_keeps b incoming resting :
  is_filled (node_at (nodes b) incoming) = false →
  is_filled (node_at (nodes b) resting) = false →
  keeps_filled (nodes b) (nodes (fill_pair b incoming resting)).
Proof.
  intros Hi Hr r n Hl Hf. unfold fill_pair, store_filled. cbn [nodes with_nodes].
  apply node_at_lookup in Hl as Hn.
  rewrite !list_lookup_insert_ne; [done|..]; intros ->; congruence.
Qed.

Lemma step_case_keeps s b incoming b' :
  step_case s b incoming b' → keeps_filled (nodes b) (nodes b').
Proof.
  intros Hstep. destruct Hstep; rewrite ?nodes_with_opp_orders;
    [apply keeps_filled_refl|by apply fill_pair_keeps..].
Qed.

Lemma match_order_keeps commits b incoming b' trades :
  book_wf b → _match_order commits b incoming = Some (b', trades) →
  keeps_filled (nodes b) (nodes b').
Proof.
  intros Hwf. rewrite _match_order_eq.
  apply (match_loop_keeps (λ b1, keeps_filled (nodes b) (nodes b1)));
    [|done|done|apply keeps_filled_refl].
  intros b1 b2 _ _ H1 Hstep. eapply keeps_filled_trans; [done|].
  by eapply step_case_keeps.
Qed.

(** A filled node whose filled quantity is within its quantity is marked
    with the value it has. *)
Lemma mark_keeps b r :
  Forall fill_bounded (nodes b) →
  keeps_filled (nodes b) (nodes (store_filled b r (quantity (node_at (nodes b) r)))).
Proof.
  intros Hb x n Hl Hf. unfold store_filled. cbn [nodes with_nodes].
  destruct (decide (r = x)) as [->|Hne]; [|by rewrite list_lookup_insert_ne].
  rewrite list_lookup_insert_eq by (by eapply lookup_lt_Some).
  rewrite (node_at_lookup _ _ _ Hl). f_equal.
  rewrite Forall_lookup in Hb. specialize (Hb x n Hl).
  unfold fill_bounded, is_filled, remaining_quantity in *. apply Z.leb_le in Hf.
  destruct n as [? ? ? ? q ? ? f]. unfold set_filled_quantity. simpl in *.
  f_equal. lia.
Qed.

(** ** The operations of the book *)

Lemma add_new_nodes b n b' :
  add_order (new_node b n).2 (new_node b n).1 = (true, b') → nodes b' = nodes b ++ [n].
Proof.
  intros Hadd. pose proof (add_order_nodes (new_node b n).2 (new_node b n).1) as Hn.
  by rewrite Hadd in Hn.
Qed.

Lemma add_new_wf b n b' :
  book_wf b → add_order (new_node b n).2 (new_node b n).1 = (true, b') → book_wf b'.
Proof.
  intros Hwf Hadd.
  pose proof (book_wf_add_order (new_node b n).2 (new_node b n).1) as H.
  rewrite Hadd in H. apply H; [by apply book_wf_new_node|].
  simpl. rewrite length_app. simpl. lia.
Qed.

Lemma remove_order_bounded b oid :
  Forall fill_bounded (nodes b) → Forall fill_bounded (nodes (remove_order b oid).2).
Proof.
  intros Hb. unfold remove_order. destruct (orders_by_id b !! oid) as [r|]; [|done].
  cbn [snd]. by apply (mark_bounded (with_orders_by_id b _)).
Qed.

Lemma remove_order_keeps b oid :
  Forall fill_bounded (nodes b) → keeps_filled (nodes b) (nodes (remove_order b oid).2).
Proof.
  intros Hb. unfold remove_order.
  destruct (orders_by_id b !! oid) as [r|]; [|apply keeps_filled_refl].
  cbn [snd]. by apply (mark_keeps (with_orders_by_id b _)).
Qed.

Lemma modify_order_nodes b oid q p now r :
  orders_by_id b !! oid = Some r →
  nodes (modify_order b oid q p now).2
  = nodes (store_filled b r (quantity (node_at (nodes b) r)))
    ++ [replacement_node (node_at (nodes b) r) q p now].
Proof.
  intros Hid. unfold modify_order. rewrite Hid. cbv zeta. unfold new_node.
  cbn [snd]. by rewrite nodes_push_by_side.
Qed.

Lemma modify_order_bounded b oid q p now :
  (0 ≤ q)%Z →
  Forall fill_bounded (nodes b) →
  Forall fill_bounded (nodes (modify_order b oid q p now).2).
Proof.
  intros Hq Hb. destruct (orders_by_id b !! oid) as [r|] eqn:Hid.
  - rewrite (modify_order_nodes _ _ _ _ _ r Hid).
    apply app_bounded; [done|done|by apply mark_bounded].
  - unfold modify_order. by rewrite Hid.
Qed.

Lemma modify_order_keeps b oid q p now :
  Forall fill_bounded (nodes b) →
  keeps_filled (nodes b) (nodes (modify_order b oid q p now).2).
Proof.
  intros Hb. destruct (orders_by_id b !! oid) as [r|] eqn:Hid.
  - rewrite (modify_order_nodes _ _ _ _ _ r Hid).
    eapply keeps_filled_trans; [by apply mark_keeps|apply keeps_filled_app].
  - unfold modify_order. rewrite Hid. apply keeps_filled_refl.
Qed.

(** ** The engine *)

Lemma engine_bounded_init : engine_bounded MatchingEngine_init.
Proof. intros sym b Hl. simpl in Hl. by rewrite lookup_empty in Hl. Qed.

Lemma get_order_book_bounded eng sym :
  engine_bounded eng →
  Forall fill_bounded (nodes (get_order_book eng sym).1)
  ∧ engine_bounded (get_order_book eng sym).2.
Proof.
  intros Hb. unfold get_order_book.
  destruct (order_books eng !! sym) as [ob|] eqn:Hl; simpl.
  - split; [by apply (Hb sym)|done].
  - split; [done|].
    intros sym' b. simpl. intros [[<- <-]|[_ Hl']]%lookup_insert_Some; [done|].
    by apply (Hb sym').
Qed.

Lemma engine_bounded_put eng sym b :
  engine_bounded eng → Forall fill_bounded (nodes b) →
  engine_bounded (put_order_book eng sym b).
Proof.
  intros Hb Hn sym' b'. simpl. intros [[<- <-]|[_ Hl]]%lookup_insert_Some; [done|].
  by apply (Hb sym').
Qed.

Lemma engine_keeps_filled_refl eng : engine_keeps_filled eng eng.
Proof. intros sym b Hl. exists b. split; [done|apply keeps_filled_refl]. Qed.

Lemma engine_keeps_filled_trans e1 e2 e3 :
  engine_keeps_filled e1 e2 → engine_keeps_filled e2 e3 → engine_keeps_filled e1 e3.
Proof.
  intros H12 H23 sym b Hl. destruct (H12 sym b Hl) as (b2 & Hl2 & Hk2).
  destruct (H23 sym b2 Hl2) as (b3 & Hl3 & Hk3). exists b3.
  split; [done|]. by eapply keeps_filled_trans.
Qed.

(** The book handed out by [get_order_book] is the one of the engine. *)
Lemma get_order_book_lookup eng sym :
  order_books (get_order_book eng sym).2 !! sym = Some (get_order_book eng sym).1.
Proof.
  unfold get_order_book. destruct (order_books eng !! sym) as [ob|] eqn:Hl; simpl; [done|].
  apply lookup_insert_eq.
Qed.

Lemma get_order_book_keeps eng sym :
  engine_keeps_filled eng (get_order_book eng sym).2.
Proof.
  unfold get_order_book. destruct (order_books eng !! sym) as [ob|] eqn:Hl; simpl.
  { apply engine_keeps_filled_refl. }
  intros sym' b Hb. exists b. split; [|apply keeps_filled_refl]. simpl.
  rewrite lookup_insert_ne; [done|]. intros <-. congruence.
Qed.

Lemma put_order_book_keeps eng sym ob b :
  order_books eng !! sym = Some ob → keeps_filled (nodes ob) (nodes b) →
  engine_keeps_filled eng (put_order_book eng sym b).
Proof.
  intros Hob Hk sym' b' Hl. simpl. destruct (decide (sym = sym')) as [<-|Hne].
  - exists b. rewrite lookup_insert_eq. split; [done|]. by simplify_eq.
  - exists b'. rewrite lookup_insert_ne by done. split; [done|apply keeps_filled_refl].
Qed.

Lemma submit_order_keeps eng order_data now commits res eng' :
  engine_inv eng →
  submit_order eng order_data now commits = Some (res, eng') →
  engine_keeps_filled eng eng'.
Proof.
  intros Hinv. unfold submit_order.
  destruct (get_order_book_inv eng (od_symbol order_data) Hinv) as [Hob _].
  pose proof (get_order_book_keeps eng (od_symbol order_data)) as Hk1.
  pose proof (get_order_book_lookup eng (od_symbol order_data)) as Hl1.
  destruct (get_order_book _ _) as [ob eng1]. simpl in Hob, Hk1, Hl1.
  unfold new_node.
  destruct (add_order _ _) as [[] ob2] eqn:Hadd; [|by intros ?; simplify_eq].
  destruct (_match_order commits ob2 _) as [[ob3 ts]|] eqn:Hmatch; [|done].
  simpl. intros ?; simplify_eq. eapply engine_keeps_filled_trans; [done|].
  apply (put_order_book_keeps _ _ ob); [done|].
  pose proof (add_new_nodes ob _ ob2 Hadd) as Hn.
  apply (keeps_filled_trans _ (nodes ob2)); [rewrite Hn; apply keeps_filled_app|].
  eapply match_order_keeps; [|done].
  eapply add_new_wf; [exact (inv_wf _ _ Hob)|exact Hadd].
Qed.

Lemma submit_order_bounded eng order_data now commits res eng' :
  engine_inv eng → engine_bounded eng → (0 ≤ od_quantity order_data)%Z →
  submit_order eng order_data now commits = Some (res, eng') →
  engine_bounded eng'.
Proof.
  intros Hinv Hb Hq. unfold submit_order.
  destruct (get_order_book_inv eng (od_symbol order_data) Hinv) as [Hob _].
  destruct (get_order_book_bounded eng (od_symbol order_data) Hb) as [Hbob Hb1].
  destruct (get_order_book _ _) as [ob eng1]. simpl in Hob, Hbob, Hb1.
  unfold new_node.
  destruct (add_order _ _) as [[] ob2] eqn:Hadd; [|by intros ?; simplify_eq].
  destruct (_match_order commits ob2 _) as [[ob3 ts]|] eqn:Hmatch; [|done].
  simpl. intros ?; simplify_eq. apply engine_bounded_put; [done|].
  pose proof (add_new_nodes ob _ ob2 Hadd) as Hn.
  eapply match_order_bounded; [| |done].
  - eapply add_new_wf; [exact (inv_wf _ _ Hob)|exact Hadd].
  - rewrite Hn. by apply app_bounded.
Qed.

Lemma cancel_order_bounded eng oid sym db_ok :
  engine_bounded eng → engine_bounded (cancel_order eng oid sym db_ok).2.
Proof.
  intros Hb. unfold cancel_order.
  destruct (get_order_book_bounded eng sym Hb) as [Hbob Hb1].
  destruct (get_order_book _ _) as [ob eng1]. simpl in Hbob, Hb1.
  pose proof (remove_order_bounded ob oid Hbob) as Hrem.
  destruct (remove_order ob oid) as [[] ob1]; [|done].
  simpl in Hrem. destruct db_ok; by apply engine_bounded_put.
Qed.

Lemma cancel_order_keeps eng oid sym db_ok :
  engine_bounded eng → engine_keeps_filled eng (cancel_order eng oid sym db_ok).2.
Proof.
  intros Hb. unfold cancel_order.
  destruct (get_order_book_bounded eng sym Hb) as [Hbob _].
  pose proof (get_order_book_keeps eng sym) as Hk1.
  pose proof (get_order_book_lookup eng sym) as Hl1.
  destruct (get_order_book _ _) as [ob eng1]. simpl in Hbob, Hk1, Hl1.
  pose proof (remove_order_keeps ob oid Hbob) as Hrem.
  destruct (remove_order ob oid) as [[] ob1]; [|done].
  simpl in Hrem.
  destruct db_ok; (eapply engine_keeps_filled_trans; [done|]);
    by apply (put_order_book_keeps _ _ ob).
Qed.

Lemma engine_modify_order_bounded eng oid sym q p now db_ok :
  engine_bounded eng → (0 ≤ q)%Z →
  engine_bounded (engine_modify_order eng oid sym q p now db_ok).2.
Proof.
  intros Hb Hq. unfold engine_modify_order.
  destruct (get_order_book_bounded eng sym Hb) as [Hbob Hb1].
  destruct (get_order_book _ _) as [ob eng1]. simpl in Hbob, Hb1.
  pose proof (modify_order_bounded ob oid q p now Hq Hbob) as Hmod.
  destruct (modify_order ob oid q p now) as [[] ob1]; [|done].
  simpl in Hmod. destruct db_ok; by apply engine_bounded_put.
Qed.

Lemma engine_modify_order_keeps eng oid sym q p now db_ok :
  engine_bounded eng →
  engine_keeps_filled eng (engine_modify_order eng oid sym q p now db_ok).2.
Proof.
  intros Hb. unfold engine_modify_order.
  destruct (get_order_book_bounded eng sym Hb) as [Hbob _].
  pose proof (get_order_book_keeps eng sym) as Hk1.
  pose proof (get_order_book_lookup eng sym) as Hl1.
  destruct (get_order_book _ _) as [ob eng1]. simpl in Hbob, Hk1, Hl1.
  pose proof (modify_order_keeps ob oid q p now Hbob) as Hmod.
  destruct (modify_order ob oid q p now) as [[] ob1]; [|done].
  simpl in Hmod.
  destruct db_ok; (eapply engine_keeps_filled_trans; [done|]);
    by apply (put_order_book_keeps _ _ ob).
Qed.

Lemma handle_bounded eng req ts eng' :
  engine_inv eng → engine_bounded eng → request_quantity_ok req →
  handle eng req = Some (ts, eng') →
  engine_bounded eng' ∧ engine_keeps_filled eng eng'.
Proof.
  intros Hinv Hb Hq.
  destruct req as [od now commits|oid sym db_ok|oid sym q p now db_ok]; simpl in *.
  - destruct (submit_order eng od now commits) as [[res eng1]|] eqn:Hsub; [|done].
    simpl. intros ?; simplify_eq.
    split; [by eapply submit_order_bounded|by eapply submit_order_keeps].
  - intros ?; simplify_eq.
    split; [by apply cancel_order_bounded|by apply cancel_order_keeps].
  - intros ?; simplify_eq.
    split; [by apply engine_modify_order_bounded|by apply engine_modify_order_keeps].
Qed.

Lemma run_bounded eng reqs ts eng' :
  engine_inv eng → engine_bounded eng → Forall request_quantity_ok reqs →
  run eng reqs = Some (ts, eng') →
  engine_bounded eng' ∧ engine_keeps_filled eng eng'.
Proof.
  revert eng ts. induction reqs as [|req reqs IH]; intros eng ts Hinv Hb Hreqs; simpl.
  { intros ?; simplify_eq. split; [done|apply engine_keeps_filled_refl]. }
  apply Forall_cons in Hreqs as [Hreq Hreqs].
  destruct (handle eng req) as [[ts1 eng1]|] eqn:Hh; [|done]. simpl.
  destruct (run eng1 reqs) as [[ts2 eng2]|] eqn:Hr; [|done]. simpl.
  intros ?; simplify_eq.
  destruct (handle_bounded _ _ _ _ Hinv Hb Hreq Hh) as [Hb1 Hk1].
  destruct (IH eng1 ts2) as [Hb2 Hk2]; [by eapply handle_inv|done..|].
  split; [done|]. by eapply engine_keeps_filled_trans.
Qed.
End bound_facts.

(** * What a submit returns and leaves *)

Module submit_facts.
Import heapq heapq_facts book_facts wf_facts match_facts match_claims inv_facts
  engine_facts conserve_facts bound_facts.

(** The trade appended for a fill of [q]: none when the database refuses
    it. *)
Lemma append_trade_new s ok incoming resting q p trades :
  ∃ new,
    append_trade trades (execute_for s ok incoming resting q p) = trades ++ new
    ∧ Forall (λ t, trade_quantity t = q) new
    ∧ (volume new ≤ Z.max 0 q)%Z
    ∧ (ok = true → volume new = q).
Proof.
  destruct ok.
  - destruct s; simpl; eexists [_]; (split; [reflexivity|]);
      (split; [by repeat constructor|]); simpl; split; lia.
  - exists []. destruct s; simpl; rewrite app_nil_r; (split; [done|]);
      (split; [constructor|]); (split; [lia|done]).
Qed.

(** An iteration fills the incoming order by at least the quantity of
    the trade it records, and by that quantity when the trade is
    journaled. *)
Lemma match_step_incoming s commits b incoming trades commits' b' trades' :
  book_wf b → side (node_at (nodes b) incoming) = s →
  match_step s commits b incoming trades = Some (commits', b', trades') →
  ∃ new,
    trades' = trades ++ new
    ∧ Forall (λ t, (0 < trade_quantity t)%Z) new
    ∧ (filled_quantity (node_at (nodes b) incoming) + volume new
       ≤ filled_quantity (node_at (nodes b') incoming))%Z
    ∧ (journaled commits →
       journaled commits'
       ∧ filled_quantity (node_at (nodes b') incoming)
         = (filled_quantity (node_at (nodes b) incoming) + volume new)%Z).
Proof.
  intros Hwf Hside. unfold match_step.
  destruct (is_filled (node_at (nodes b) incoming)) eqn:Hinc; [done|]. cbn [negb].
  destruct (opp_orders s b) as [|resting rest] eqn:Hheap; [done|].
  destruct (crosses _ _ _) eqn:Hcross; [|done].
  destruct (is_filled (node_at (nodes b) resting)) eqn:Hrest.
  { destruct (heappop _ _) as [[x h]|]; [|done]. intros ?; simplify_eq.
    exists []. rewrite nodes_with_opp_orders, app_nil_r. simpl.
    split; [done|]. split; [done|]. split; [lia|]. intros Hj. split; [done|lia]. }
  pose proof (is_filled_valid _ _ Hinc) as Hivalid.
  pose proof (trade_qty_pos _ _ _ Hinc Hrest) as Hq.
  pose proof (incoming_not_resting _ _ _ _ _ Hwf Hside Hheap) as Hne.
  assert (filled_quantity (node_at (nodes (fill_pair b incoming resting)) incoming)
          = (filled_quantity (node_at (nodes b) incoming)
             + trade_qty b incoming resting)%Z) as Hfill.
  { rewrite fill_pair_filled, decide_True by done.
    rewrite decide_False; [lia|]. intros [? _]. by apply Hne. }
  destruct (next_commit commits) as [ok cs] eqn:Hnext. cbv zeta.
  assert (journaled commits → journaled cs ∧ ok = true) as Hcs.
  { intros Hj. destruct commits; simplify_eq/=; [done|].
    by apply Forall_cons in Hj as [? ?]. }
  destruct (append_trade_new s ok (node_at (nodes b) incoming) (node_at (nodes b) resting)
              (trade_qty b incoming resting) (price (node_at (nodes b) resting)) trades)
    as (new & -> & Hnew & Hle & Heq).
  assert (∀ h,
    nodes (with_opp_orders s (fill_pair b incoming resting) h)
    = nodes (fill_pair b incoming resting)) as Hn.
  { intros h. apply nodes_with_opp_orders. }
  assert (Forall (λ t, (0 < trade_quantity t)%Z) new) as Hpos.
  { eapply Forall_impl; [done|]. simpl. intros t ->. done. }
  destruct (is_filled (node_at (nodes (fill_pair b incoming resting)) resting)).
  - destruct (heappop _ _) as [[x h]|]; [|done]. intros ?; simplify_eq.
    exists new. rewrite Hn, Hfill. split; [done|]. split; [done|]. split; [lia|].
    intros [Hj ->]%Hcs. split; [done|]. rewrite Heq by done. lia.
  - intros ?; simplify_eq.
    exists new. rewrite Hfill. split; [done|]. split; [done|]. split; [lia|].
    intros [Hj ->]%Hcs. split; [done|]. rewrite Heq by done. lia.
Qed.

Lemma match_loop_incoming s fuel commits b incoming trades b' trades' :
  book_wf b → side (node_at (nodes b) incoming) = s →
  match_loop s fuel commits b incoming trades = Some (b', trades') →
  ∃ new,
    trades' = trades ++ new
    ∧ Forall (λ t, (0 < trade_quantity t)%Z) new
    ∧ (filled_quantity (node_at (nodes b) incoming) + volume new
       ≤ filled_quantity (node_at (nodes b') incoming))%Z
    ∧ (journaled commits →
       filled_quantity (node_at (nodes b') incoming)
       = (filled_quantity (node_at (nodes b) incoming) + volume new)%Z).
Proof.
  revert commits b trades. induction fuel as [|fuel IH];
    intros commits b trades Hwf Hside; [done|].
  cbn [match_loop].
  destruct (match_step s commits b incoming trades) as [[[cs b1] ts]|] eqn:Hstep.
  2:{ intros ?; simplify_eq. exists []. rewrite app_nil_r. simpl.
      split; [done|]. split; [done|]. split; [lia|]. intros _. lia. }
  destruct (match_step_incoming _ _ _ _ _ _ _ _ Hwf Hside Hstep)
    as (new1 & -> & Hpos1 & Hle1 & Heq1).
  pose proof (match_step_case _ _ _ _ _ _ _ _ Hstep) as Hcase.
  intros Hloop. apply IH in Hloop as (new2 & -> & Hpos2 & Hle2 & Heq2).
  - exists (new1 ++ new2). rewrite app_assoc, volume_app. split; [done|].
    split; [by apply Forall_app|]. split; [lia|].
    intros Hj. destruct (Heq1 Hj) as [Hj1 He1]. pose proof (Heq2 Hj1). lia.
  - by eapply book_wf_step_case.
  - by rewrite (frame_side _ _ _ (step_case_frame _ _ _ _ Hcase)).
Qed.

(** The incoming order is not filled beyond its quantity. *)
Lemma match_order_incoming_bounded commits b incoming b' trades :
  book_wf b → fill_bounded (node_at (nodes b) incoming) →
  _match_order commits b incoming = Some (b', trades) →
  fill_bounded (node_at (nodes b') incoming).
Proof.
  intros Hwf Hb. rewrite _match_order_eq.
  apply (match_loop_keeps (λ b, fill_bounded (node_at (nodes b) incoming)));
    [|done..].
  intros b1 b2 Hwf1 Hs1 H1 Hstep. unfold fill_bounded in *.
  destruct Hstep as [resting rest x h Hheap Hi|resting rest Hheap Hi Hc Hr
                    |resting rest x h Hheap Hi Hc Hr];
    rewrite ?nodes_with_opp_orders; [done|..];
    pose proof (incoming_not_resting _ _ _ _ _ Hwf1 Hs1 Hheap) as Hne;
    pose proof (is_filled_valid _ _ Hi) as Hv;
    pose proof (trade_qty_pos _ _ _ Hi Hr) as Hq;
    rewrite fill_pair_filled, fill_pair_quantity, decide_True by done;
    (rewrite decide_False by (intros [? _]; by apply Hne));
    unfold trade_qty, remaining_quantity in *; lia.
Qed.

(** ** Sequences of requests *)

Lemma run_app eng reqs1 reqs2 ts1 eng1 :
  run eng reqs1 = Some (ts1, eng1) →
  run eng (reqs1 ++ reqs2)
  = '(ts2, eng2) ← run eng1 reqs2; Some (ts1 ++ ts2, eng2).
Proof.
  revert eng ts1. induction reqs1 as [|req reqs1 IH]; intros eng ts1; simpl.
  { intros ?; simplify_eq. by destruct (run eng1 reqs2) as [[? ?]|]. }
  destruct (handle eng req) as [[ts eng0]|]; [|done]. simpl.
  destruct (run eng0 reqs1) as [[ts' eng']|] eqn:Hr; [|done]. simpl.
  intros ?; simplify_eq. rewrite (IH _ _ Hr).
  destruct (run eng1 reqs2) as [[? ?]|]; simpl; [|done]. by rewrite app_assoc.
Qed.

Lemma engine_after_run reqs :
  ∃ ts, run MatchingEngine_init reqs = Some (ts, engine_after reqs).
Proof.
  unfold engine_after. destruct (run_total MatchingEngine_init reqs) as [[ts eng] ->].
  by exists ts.
Qed.

Lemma engine_after_inv reqs : engine_inv (engine_after reqs).
Proof.
  destruct (engine_after_run reqs) as [ts Hrun].
  by apply (run_inv _ _ _ _ engine_inv_init Hrun).
Qed.

(** ** An accepted submit *)

(** The matching loop changes the filled quantities only. *)
Lemma match_order_same_orders commits b incoming b' trades r :
  book_wf b → _match_order commits b incoming = Some (b', trades) →
  set_filled_quantity 0 (node_at (nodes b') r)
  = set_filled_quantity 0 (node_at (nodes b) r).
Proof.
  intros Hwf. rewrite _match_order_eq.
  apply (match_loop_keeps (λ b1, set_filled_quantity 0 (node_at (nodes b1) r)
                                 = set_filled_quantity 0 (node_at (nodes b) r)));
    [|done..].
  intros b1 b2 _ _ <- Hstep.
  destruct Hstep; rewrite ?nodes_with_opp_orders; [done|..];
    unfold fill_pair; rewrite !node_at_store_filled;
    repeat case_decide; done.
Qed.

Lemma passive_trade_limit s b incoming resting t :
  passive_trade s b incoming resting t →
  match s with
  | BUY => buy_order_id t = order_id (node_at (nodes b) incoming)
           ∧ (trade_price t ≤ price (node_at (nodes b) incoming))%Z
  | SELL => sell_order_id t = order_id (node_at (nodes b) incoming)
            ∧ (price (node_at (nodes b) incoming) ≤ trade_price t)%Z
  end.
Proof.
  intros (_ & Hc & -> & Hids). destruct s; simpl in Hc.
  - destruct Hids as (-> & _). split; [done|]. by apply Z.leb_le.
  - destruct Hids as (-> & _). split; [done|]. rewrite Z.geb_leb in Hc. by apply Z.leb_le.
Qed.

Lemma submit_order_accepted eng od now commits msg trades eng' :
  engine_inv eng →
  submit_order eng od now commits = Some ((true, msg, trades), eng') →
  ∃ b' r,
    order_books eng' !! od_symbol od = Some b'
    ∧ orders_by_id (get_order_book eng (od_symbol od)).1 !! od_order_id od = None
    ∧ orders_by_id b'
      = <[od_order_id od := r]> (orders_by_id (get_order_book eng (od_symbol od)).1)
    ∧ set_filled_quantity 0 (node_at (nodes b') r) = submitted_node od now
    ∧ (volume trades ≤ filled_quantity (node_at (nodes b') r))%Z
    ∧ (journaled commits → filled_quantity (node_at (nodes b') r) = volume trades)
    ∧ ((0 ≤ od_quantity od)%Z →
       (filled_quantity (node_at (nodes b') r) ≤ od_quantity od)%Z)
    ∧ Forall (trade_of od) trades.
Proof.
  intros Hinv. unfold submit_order.
  destruct (get_order_book_inv eng (od_symbol od) Hinv) as [Hob _].
  destruct (get_order_book _ _) as [ob eng1]. simpl in Hob. unfold new_node.
  fold (submitted_node od now).
  destruct (add_order _ _) as [[] ob2] eqn:Hadd; [|by intros ?; simplify_eq].
  destruct (_match_order commits ob2 _) as [[ob3 ts]|] eqn:Hmatch; [|done].
  simpl. intros ?; simplify_eq. exists ob3, (length (nodes ob)).
  pose proof (add_new_nodes ob _ ob2 Hadd) as Hn.
  assert (book_wf ob2) as Hwf2.
  { eapply add_new_wf; [exact (inv_wf _ _ Hob)|exact Hadd]. }
  assert (book_inv (od_symbol od) ob2) as Hinv2.
  { eapply book_inv_add_new; [exact Hob| |exact Hadd]. done. }
  assert (node_at (nodes ob2) (length (nodes ob)) = submitted_node od now) as Hnew.
  { rewrite Hn. apply node_at_app_new. }
  assert (orders_by_id ob !! od_order_id od = None
          ∧ orders_by_id ob2 = <[od_order_id od := length (nodes ob)]> (orders_by_id ob))
    as [Hnone Hidx].
  { revert Hadd. unfold add_order. cbn [nodes with_nodes orders_by_id].
    rewrite node_at_app_new. cbn [submitted_node order_id].
    destruct (orders_by_id ob !! od_order_id od); [done|]. intros [= <-].
    by rewrite orders_by_id_push_by_side. }
  pose proof (match_order_same_orders _ _ _ _ _ (length (nodes ob)) Hwf2 Hmatch) as Hsame.
  assert (length (nodes ob) < length (nodes ob2)) as Hlen.
  { rewrite Hn, length_app. simpl. lia. }
  pose proof (match_order_symbol _ _ _ _ _ _ Hinv2 Hlen Hmatch) as Hsym.
  pose proof Hmatch as Hloop. rewrite _match_order_eq, Hnew in Hloop.
  cbn [submitted_node side] in Hloop.
  pose proof (match_loop_frame _ _ _ _ _ _ _ _ Hloop) as Hf.
  assert (side (node_at (nodes ob2) (length (nodes ob))) = od_side od) as Hside.
  { by rewrite Hnew. }
  destruct (match_loop_incoming _ _ _ _ _ _ _ _ Hwf2 Hside Hloop)
    as (new & Hts & Hpos & Hle & Heq).
  pose proof (match_loop_trades _ _ _ _ _ _ _ _ Hloop) as (new' & Hts' & Hpassive).
  simpl in Hts, Hts'. subst new'. subst new. rewrite Hnew in Hle, Heq. simpl in Hle, Heq.
  split; [apply lookup_insert_eq|]. split; [done|].
  split; [by rewrite (frame_index _ _ _ Hf)|].
  split; [by rewrite Hsame, Hnew|]. split; [lia|].
  split; [intros Hj; rewrite Heq by done; lia|].
  split.
  { intros Hq.
    assert (fill_bounded (node_at (nodes ob2) (length (nodes ob)))) as Hb2.
    { rewrite Hnew. unfold fill_bounded. simpl. lia. }
    pose proof (match_order_incoming_bounded _ _ _ _ _ Hwf2 Hb2 Hmatch) as Hbound.
    unfold fill_bounded in Hbound.
    rewrite (frame_quantity _ _ _ Hf (length (nodes ob))), Hnew in Hbound.
    simpl in Hbound. lia. }
  rewrite Forall_forall in Hsym, Hpos, Hpassive. apply Forall_forall. intros t Ht.
  split; [by apply Hpos|]. split; [by apply Hsym|].
  destruct (Hpassive t Ht) as (resting & Hp%passive_trade_limit).
  rewrite Hnew in Hp. simpl in Hp. done.
Qed.

(** A submit that is refused returns no trade and leaves the books. *)
Lemma submit_order_refused eng od now commits msg trades eng' :
  submit_order eng od now commits = Some ((false, msg, trades), eng') →
  trades = [] ∧ eng' = (get_order_book eng (od_symbol od)).2.
Proof.
  unfold submit_order. destruct (get_order_book _ _) as [ob eng1]. unfold new_node.
  destruct (add_order _ _) as [[] ob2]; [|by intros ?; simplify_eq].
  destruct (_match_order commits ob2 _) as [[ob3 ts]|]; [|done]. simpl. done.
Qed.
End submit_facts.

(** * The ids of the index *)

Module index_facts.
Import heapq heapq_facts book_facts wf_facts match_facts match_claims inv_facts
  engine_facts conserve_facts bound_facts submit_facts.

Lemma get_order_book_other eng sym sym' b :
  order_books eng !! sym = Some b →
  order_books (get_order_book eng sym').2 !! sym = Some b.
Proof.
  intros Hl. unfold get_order_book.
  destruct (order_books eng !! sym') as [ob|] eqn:Hl'; simpl; [done|].
  rewrite lookup_insert_ne; [done|]. intros <-. congruence.
Qed.

Lemma get_order_book_found eng sym b :
  order_books eng !! sym = Some b → get_order_book eng sym = (b, eng).
Proof. intros Hl. unfold get_order_book. by rewrite Hl. Qed.

Lemma indexed_get_order_book eng sym' sym oid :
  indexed eng sym oid → indexed (get_order_book eng sym').2 sym oid.
Proof.
  intros (b & r & Hb & Hr). exists b, r. split; [|done]. by apply get_order_book_other.
Qed.

Lemma indexed_put eng sym' b' sym oid :
  indexed eng sym oid →
  (sym' = sym → ∃ r, orders_by_id b' !! oid = Some r) →
  indexed (put_order_book eng sym' b') sym oid.
Proof.
  intros (b & r & Hb & Hr) Hsame. unfold indexed. simpl.
  destruct (decide (sym' = sym)) as [->|Hne].
  - destruct (Hsame eq_refl) as [r' Hr']. exists b', r'. by rewrite lookup_insert_eq.
  - exists b, r. by rewrite lookup_insert_ne.
Qed.

(** The id of a submit is in the index afterwards, accepted or not. *)
Lemma submit_order_indexed eng od now commits res eng' :
  submit_order eng od now commits = Some (res, eng') →
  indexed eng' (od_symbol od) (od_order_id od).
Proof.
  unfold submit_order.
  pose proof (get_order_book_lookup eng (od_symbol od)) as Hl1.
  destruct (get_order_book _ _) as [ob eng1]. simpl in Hl1. unfold new_node.
  fold (submitted_node od now).
  destruct (add_order _ _) as [[] ob2] eqn:Hadd.
  - destruct (_match_order commits ob2 _) as [[ob3 ts]|] eqn:Hmatch; [|done].
    simpl. intros ?; simplify_eq. exists ob3, (length (nodes ob)).
    split; [apply lookup_insert_eq|].
    rewrite _match_order_eq in Hmatch.
    rewrite (frame_index _ _ _ (match_loop_frame _ _ _ _ _ _ _ _ Hmatch)).
    revert Hadd. unfold add_order. cbn [nodes with_nodes orders_by_id].
    rewrite node_at_app_new. cbn [submitted_node order_id].
    destruct (orders_by_id ob !! od_order_id od); [done|]. intros [= <-].
    rewrite orders_by_id_push_by_side. apply lookup_insert_eq.
  - intros ?; simplify_eq. revert Hadd. unfold add_order.
    cbn [nodes with_nodes orders_by_id]. rewrite node_at_app_new.
    cbn [submitted_node order_id].
    destruct (orders_by_id ob !! od_order_id od) as [r|] eqn:Hr; [|done].
    intros _. by exists ob, r.
Qed.

Lemma submit_order_keeps_indexed eng od now commits res eng' sym oid :
  indexed eng sym oid →
  submit_order eng od now commits = Some (res, eng') →
  indexed eng' sym oid.
Proof.
  intros Hi Hsub. pose proof (submit_order_indexed _ _ _ _ _ _ Hsub) as Hnew.
  revert Hsub. unfold submit_order.
  pose proof (indexed_get_order_book eng (od_symbol od) sym oid Hi) as Hi1.
  pose proof (get_order_book_lookup eng (od_symbol od)) as Hl1.
  destruct (get_order_book _ _) as [ob eng1]. simpl in Hi1, Hl1. unfold new_node.
  fold (submitted_node od now).
  destruct (add_order _ _) as [[] ob2] eqn:Hadd; [|by intros ?; simplify_eq].
  destruct (_match_order commits ob2 _) as [[ob3 ts]|] eqn:Hmatch; [|done].
  simpl. intros ?; simplify_eq. apply indexed_put; [done|]. intros <-.
  destruct Hi1 as (b & r & Hb & Hr). simplify_eq.
  rewrite _match_order_eq in Hmatch.
  rewrite (frame_index _ _ _ (match_loop_frame _ _ _ _ _ _ _ _ Hmatch)).
  revert Hadd. unfold add_order. cbn [nodes with_nodes orders_by_id].
  rewrite node_at_app_new. cbn [submitted_node order_id].
  destruct (orders_by_id b !! od_order_id od); [done|]. intros [= <-].
  rewrite orders_by_id_push_by_side. cbn [orders_by_id with_orders_by_id with_nodes].
  destruct (decide (od_order_id od = oid)) as [<-|Hne].
  - eexists. apply lookup_insert_eq.
  - exists r. by rewrite lookup_insert_ne.
Qed.

Lemma cancel_order_keeps_indexed eng oid' sym' db_ok sym oid :
  indexed eng sym oid → ¬ (oid' = oid ∧ sym' = sym) →
  indexed (cancel_order eng oid' sym' db_ok).2 sym oid.
Proof.
  intros Hi Hne. unfold cancel_order.
  pose proof (indexed_get_order_book eng sym' sym oid Hi) as Hi1.
  pose proof (get_order_book_lookup eng sym') as Hl1.
  destruct (get_order_book _ _) as [ob eng1]. simpl in Hi1, Hl1.
  unfold remove_order. destruct (orders_by_id ob !! oid') as [r0|] eqn:Hr0; [|done].
  assert (indexed (put_order_book eng1 sym'
            (store_filled (with_orders_by_id ob (delete oid' (orders_by_id ob))) r0
               (quantity (node_at (nodes ob) r0)))) sym oid) as Hput.
  { apply indexed_put; [done|]. intros ->.
    destruct Hi1 as (b & r & Hb & Hr). simplify_eq. exists r.
    cbn [orders_by_id store_filled with_nodes with_orders_by_id].
    rewrite lookup_delete_ne; [done|]. intros ->. by apply Hne. }
  by destruct db_ok.
Qed.

Lemma engine_modify_order_keeps_indexed eng oid' sym' q p now db_ok sym oid :
  indexed eng sym oid →
  indexed (engine_modify_order eng oid' sym' q p now db_ok).2 sym oid.
Proof.
  intros Hi. unfold engine_modify_order.
  pose proof (indexed_get_order_book eng sym' sym oid Hi) as Hi1.
  pose proof (get_order_book_lookup eng sym') as Hl1.
  destruct (get_order_book _ _) as [ob eng1]. simpl in Hi1, Hl1.
  unfold modify_order. destruct (orders_by_id ob !! oid') as [r0|] eqn:Hr0; [|done].
  cbv zeta. unfold new_node.
  assert (∀ b', orders_by_id b'
            = <[oid' := length (nodes (store_filled ob r0 (quantity (node_at (nodes ob) r0))))]>
                (orders_by_id ob) →
          indexed (put_order_book eng1 sym' b') sym oid) as Hput.
  { intros b' Hb'. apply indexed_put; [done|]. intros ->.
    destruct Hi1 as (b & r & Hb & Hr). simplify_eq. rewrite Hb'.
    destruct (decide (oid' = oid)) as [->|Hne].
    - eexists. apply lookup_insert_eq.
    - exists r. by rewrite lookup_insert_ne. }
  destruct db_ok; simpl; apply Hput; by rewrite orders_by_id_push_by_side.
Qed.

Lemma handle_keeps_indexed eng req ts eng' sym oid :
  indexed eng sym oid → cancels oid sym req = false →
  handle eng req = Some (ts, eng') → indexed eng' sym oid.
Proof.
  intros Hi Hc. destruct req as [od now commits|oid' sym' db_ok|oid' sym' q p now db_ok];
    simpl in *.
  - destruct (submit_order eng od now commits) as [[res eng1]|] eqn:Hsub; [|done].
    simpl. intros ?; simplify_eq. by eapply submit_order_keeps_indexed.
  - intros ?; simplify_eq. apply cancel_order_keeps_indexed; [done|].
    by apply bool_decide_eq_false in Hc.
  - intros ?; simplify_eq. by apply engine_modify_order_keeps_indexed.
Qed.

Lemma run_keeps_indexed eng reqs ts eng' sym oid :
  indexed eng sym oid → Forall (λ req, cancels oid sym req = false) reqs →
  run eng reqs = Some (ts, eng') → indexed eng' sym oid.
Proof.
  revert eng ts. induction reqs as [|req reqs IH]; intros eng ts Hi Hreqs; simpl.
  { by intros ?; simplify_eq. }
  apply Forall_cons in Hreqs as [Hreq Hreqs].
  destruct (handle eng req) as [[ts1 eng1]|] eqn:Hh; [|done]. simpl.
  destruct (run eng1 reqs) as [[ts2 eng2]|] eqn:Hr; [|done]. simpl.
  intros ?; simplify_eq. apply (IH eng1 ts2); [|done..].
  by eapply handle_keeps_indexed.
Qed.

(** A submit with an id of the index is refused. *)
Lemma submit_order_duplicate eng od now commits :
  indexed eng (od_symbol od) (od_order_id od) →
  submit_order eng od now commits = Some ((false, "Order already exists", []), eng).
Proof.
  intros (b & r & Hb & Hr). unfold submit_order.
  rewrite (get_order_book_found _ _ _ Hb). unfold new_node, add_order.
  cbn [nodes with_nodes orders_by_id]. rewrite node_at_app_new. cbn [order_id].
  by rewrite Hr.
Qed.

(** ** Which ids are in the index *)

Lemma indexed_get_order_book_inv eng sym' sym oid :
  indexed (get_order_book eng sym').2 sym oid → indexed eng sym oid.
Proof.
  unfold get_order_book.
  destruct (order_books eng !! sym') as [ob|] eqn:Hl'; simpl; [done|].
  intros (b & r & Hb & Hr). simpl in Hb.
  apply lookup_insert_Some in Hb as [[<- <-]|[_ Hb]].
  - simpl in Hr. by rewrite lookup_empty in Hr.
  - by exists b, r.
Qed.

Lemma indexed_put_inv eng sym' b' sym oid :
  indexed (put_order_book eng sym' b') sym oid →
  (sym' = sym ∧ ∃ r, orders_by_id b' !! oid = Some r)
  ∨ (sym' ≠ sym ∧ indexed eng sym oid).
Proof.
  intros (b & r & Hb & Hr). simpl in Hb.
  apply lookup_insert_Some in Hb as [[<- <-]|[Hne Hb]].
  - left. split; [done|]. by exists r.
  - right. split; [done|]. by exists b, r.
Qed.

Lemma submit_order_indexed_inv eng od now commits res eng' sym oid :
  submit_order eng od now commits = Some (res, eng') →
  indexed eng' sym oid →
  indexed eng sym oid ∨ (od_order_id od = oid ∧ od_symbol od = sym).
Proof.
  unfold submit_order.
  pose proof (indexed_get_order_book_inv eng (od_symbol od) sym oid) as Hback.
  pose proof (get_order_book_lookup eng (od_symbol od)) as Hl1.
  destruct (get_order_book _ _) as [ob eng1]. simpl in Hback, Hl1. unfold new_node.
  fold (submitted_node od now).
  destruct (add_order _ _) as [[] ob2] eqn:Hadd; [|intros ?; simplify_eq; auto].
  destruct (_match_order commits ob2 _) as [[ob3 ts]|] eqn:Hmatch; [|done].
  simpl. intros ?; simplify_eq.
  intros [[<- [r Hr]]|[_ Hi]]%indexed_put_inv; [|auto].
  rewrite _match_order_eq in Hmatch.
  rewrite (frame_index _ _ _ (match_loop_frame _ _ _ _ _ _ _ _ Hmatch)) in Hr.
  revert Hadd. unfold add_order. cbn [nodes with_nodes orders_by_id].
  rewrite node_at_app_new. cbn [submitted_node order_id].
  destruct (orders_by_id ob !! od_order_id od); [done|]. intros [= <-].
  rewrite orders_by_id_push_by_side in Hr.
  cbn [orders_by_id with_orders_by_id with_nodes] in Hr.
  apply lookup_insert_Some in Hr as [[<- _]|[_ Hr]]; [by right|].
  left. apply Hback. by exists ob, r.
Qed.

Lemma cancel_order_indexed_inv eng oid' sym' db_ok sym oid :
  indexed (cancel_order eng oid' sym' db_ok).2 sym oid →
  indexed eng sym oid ∧ ¬ (oid' = oid ∧ sym' = sym).
Proof.
  unfold cancel_order.
  pose proof (indexed_get_order_book_inv eng sym' sym oid) as Hback.
  pose proof (get_order_book_lookup eng sym') as Hl1.
  destruct (get_order_book _ _) as [ob eng1]. simpl in Hback, Hl1.
  unfold remove_order. destruct (orders_by_id ob !! oid') as [r0|] eqn:Hr0.
  - assert (indexed (put_order_book eng1 sym'
              (store_filled (with_orders_by_id ob (delete oid' (orders_by_id ob))) r0
                 (quantity (node_at (nodes ob) r0)))) sym oid →
            indexed eng sym oid ∧ ¬ (oid' = oid ∧ sym' = sym)) as Hput.
    { intros [[<- [r Hr]]|[Hne Hi]]%indexed_put_inv.
      - cbn [orders_by_id store_filled with_nodes with_orders_by_id] in Hr.
        apply lookup_delete_Some in Hr as [Hne Hr]. split; [|by intros [? _]].
        apply Hback. by exists ob, r.
      - split; [by apply Hback|]. by intros [_ ?]. }
    by destruct db_ok.
  - simpl. intros Hi. split; [by apply Hback|]. intros [-> ->].
    destruct Hi as (b & r & Hb & Hr). simplify_eq.
Qed.

Lemma engine_modify_order_indexed_inv eng oid' sym' q p now db_ok sym oid :
  indexed (engine_modify_order eng oid' sym' q p now db_ok).2 sym oid →
  indexed eng sym oid.
Proof.
  unfold engine_modify_order.
  pose proof (indexed_get_order_book_inv eng sym' sym oid) as Hback.
  pose proof (get_order_book_lookup eng sym') as Hl1.
  destruct (get_order_book _ _) as [ob eng1]. simpl in Hback, Hl1.
  unfold modify_order. destruct (orders_by_id ob !! oid') as [r0|] eqn:Hr0; [|done].
  cbv zeta. unfold new_node.
  assert (∀ b', orders_by_id b'
            = <[oid' := length (nodes (store_filled ob r0 (quantity (node_at (nodes ob) r0))))]>
                (orders_by_id ob) →
          indexed (put_order_book eng1 sym' b') sym oid → indexed eng sym oid) as Hput.
  { intros b' Hb' [[<- [r Hr]]|[Hne Hi]]%indexed_put_inv; [|by apply Hback].
    apply Hback. rewrite Hb' in Hr.
    apply lookup_insert_Some in Hr as [[<- _]|[_ Hr]]; [by exists ob, r0|by exists ob, r]. }
  destruct db_ok; simpl; apply Hput; by rewrite orders_by_id_push_by_side.
Qed.

Lemma submits_not_cancels oid sym req : submits oid sym req → cancels oid sym req = false.
Proof. by destruct req. Qed.

(** A submit enters its id in the index, a cancel removes its id, and
    nothing else changes which ids are in the index. *)
Lemma handle_indexed_iff eng req ts eng' sym oid :
  handle eng req = Some (ts, eng') →
  indexed eng' sym oid
  ↔ (indexed eng sym oid ∧ cancels oid sym req = false) ∨ submits oid sym req.
Proof.
  intros Hh. split.
  - destruct req as [od now commits|oid' sym' db_ok|oid' sym' q p now db_ok];
      simpl in Hh |- *.
    + destruct (submit_order eng od now commits) as [[res eng1]|] eqn:Hsub; [|done].
      simpl in Hh. simplify_eq.
      intros [?|?]%(submit_order_indexed_inv _ _ _ _ _ _ _ _ Hsub); auto.
    + simplify_eq. intros [Hi Hne]%cancel_order_indexed_inv. left. split; [done|].
      by apply bool_decide_eq_false.
    + simplify_eq. intros Hi%engine_modify_order_indexed_inv. auto.
  - intros [[Hi Hc]|Hs]; [by eapply handle_keeps_indexed|].
    destruct req as [od now commits| |]; simpl in Hs, Hh; [|done..].
    destruct (submit_order eng od now commits) as [[res eng1]|] eqn:Hsub; [|done].
    simpl in Hh. simplify_eq. destruct Hs as [<- <-]. by eapply submit_order_indexed.
Qed.

Lemma submitted_not_cancelled_nil oid sym : ¬ submitted_not_cancelled oid sym [].
Proof. intros (reqs1 & req & reqs2 & Heq & _). by destruct reqs1. Qed.

Lemma submitted_not_cancelled_cons oid sym req reqs :
  submitted_not_cancelled oid sym (req :: reqs)
  ↔ (submits oid sym req ∧ Forall (λ req', cancels oid sym req' = false) reqs)
    ∨ submitted_not_cancelled oid sym reqs.
Proof.
  split.
  - intros (reqs1 & req' & reqs2 & Heq & Hs & Hnc). destruct reqs1 as [|r1 reqs1].
    + simpl in Heq. simplify_eq. by left.
    + simpl in Heq. simplify_eq. right. by exists reqs1, req', reqs2.
  - intros [[Hs Hnc]|(reqs1 & req' & reqs2 & -> & Hs & Hnc)].
    + by exists [], req, reqs.
    + by exists (req :: reqs1), req', reqs2.
Qed.

Lemma run_indexed_iff eng reqs ts eng' sym oid :
  run eng reqs = Some (ts, eng') →
  indexed eng' sym oid
  ↔ (indexed eng sym oid ∧ Forall (λ req, cancels oid sym req = false) reqs)
    ∨ submitted_not_cancelled oid sym reqs.
Proof.
  revert eng ts. induction reqs as [|req reqs IH]; intros eng ts; simpl.
  { intros ?; simplify_eq. pose proof (submitted_not_cancelled_nil oid sym).
    split; [by left|]. by intros [[? _]|?]. }
  destruct (handle eng req) as [[ts1 eng1]|] eqn:Hh; [|done]. simpl.
  destruct (run eng1 reqs) as [[ts2 eng2]|] eqn:Hr; [|done]. simpl.
  intros ?; simplify_eq.
  rewrite (IH _ _ Hr), (handle_indexed_iff _ _ _ _ sym oid Hh),
    submitted_not_cancelled_cons, Forall_cons.
  pose proof (submits_not_cancels oid sym req). tauto.
Qed.
End index_facts.

(** * No order with quantity left leaves its heap *)

Module full_facts.
Import heapq heapq_facts book_facts wf_facts match_facts match_claims inv_facts
  engine_facts conserve_facts cross_facts bound_facts.

Lemma opp_own s b : opp_orders s b = own_orders (opposite s) b.
Proof. by destruct s. Qed.

Lemma side_cases s s' : s' = s ∨ s' = opposite s.
Proof. destruct s, s'; auto. Qed.

Lemma opposite_ne s : opposite s ≠ s.
Proof. by destruct s. Qed.

Lemma book_full_init sym : book_full (OrderBook_init sym).
Proof.
  split.
  - intros []; simpl; constructor.
  - intros r Hr%live_valid. simpl in Hr. lia.
Qed.

(** A node is created and pushed on the heap of its side, as [add_order]
    and [modify_order] do. *)
Lemma book_full_push b m n :
  book_wf b → book_full b →
  book_full (push_by_side (with_orders_by_id (new_node b n).2 m) (new_node b n).1).
Proof.
  intros Hwf [Hnd Hlive].
  assert (∀ s, own_orders s (push_by_side (with_orders_by_id (new_node b n).2 m)
                               (new_node b n).1)
               ≡ₚ if decide (s = side n) then length (nodes b) :: own_orders s b
                  else own_orders s b) as Hheaps.
  { intros s. unfold push_by_side, new_node.
    cbn [fst snd nodes with_nodes with_orders_by_id]. rewrite node_at_app_new.
    destruct (side n), s; simpl; try done; apply heappush_perm. }
  assert (∀ s, length (nodes b) ∉ own_orders s b) as Hfresh.
  { intros s Hin. pose proof (own_orders_wf s b Hwf) as HP.
    rewrite Forall_forall in HP. destruct (HP _ Hin) as [Hlt _]. lia. }
  split.
  - intros s. rewrite Hheaps. case_decide; [|done]. by apply NoDup_cons.
  - intros r. rewrite nodes_push_by_side. unfold new_node.
    cbn [fst snd nodes with_nodes with_orders_by_id]. intros Hl.
    pose proof (live_valid _ _ Hl) as Hlt. rewrite length_app in Hlt. simpl in Hlt.
    rewrite Hheaps. destruct (decide (r = length (nodes b))) as [->|Hne].
    + rewrite node_at_app_new, decide_True by done. by left.
    + unfold live in Hl. rewrite node_at_app_l in * by lia.
      case_decide; [right|]; by apply Hlive.
Qed.

Lemma book_full_add_new b n b' :
  book_wf b → book_full b →
  add_order (new_node b n).2 (new_node b n).1 = (true, b') → book_full b'.
Proof.
  intros Hwf Hfull. unfold add_order.
  destruct (orders_by_id (new_node b n).2 !! _); [done|]. intros [= <-].
  by apply book_full_push.
Qed.

(** Filling changes no heap and brings no node back. *)
Lemma book_full_fill_pair b incoming resting :
  is_filled (node_at (nodes b) incoming) = false →
  is_filled (node_at (nodes b) resting) = false →
  book_full b → book_full (fill_pair b incoming resting).
Proof.
  intros Hi Hr [Hnd Hlive]. split.
  - intros s. by rewrite fill_pair_own_orders.
  - intros r Hl. rewrite fill_pair_side, fill_pair_own_orders. apply Hlive.
    unfold live in *. destruct (is_filled (node_at (nodes b) r)) eqn:Hf; [|done].
    apply (fill_pair_is_filled_mono b incoming resting) in Hf; [congruence|done..].
Qed.

(** A filled node is popped. *)
Lemma book_full_pop s b x h :
  heappop (ref_lt (nodes b)) (opp_orders s b) = Some (x, h) →
  is_filled (node_at (nodes b) x) = true →
  book_full b → book_full (with_opp_orders s b h).
Proof.
  intros Hpop Hx [Hnd Hlive]. apply heappop_Some in Hpop as [_ Hperm].
  rewrite opp_own in Hperm.
  assert (∀ s', own_orders s' (with_opp_orders s b h)
                = if decide (s' = s) then own_orders s' b else h) as Hheaps.
  { intros s'. by destruct s, s'. }
  split.
  - intros s'. rewrite Hheaps. case_decide; [done|].
    pose proof (Hnd (opposite s)) as Hn. rewrite Hperm in Hn.
    by apply NoDup_cons in Hn as [_ ?].
  - intros r. rewrite nodes_with_opp_orders. intros Hl. rewrite Hheaps.
    pose proof (Hlive r Hl) as Hin. case_decide as Hs; [done|].
    destruct (side_cases s (side (node_at (nodes b) r))) as [?|Ho]; [done|].
    rewrite Ho, Hperm in Hin. apply elem_of_cons in Hin as [->|?]; [|done].
    unfold live in Hl. congruence.
Qed.

Lemma step_case_full s b incoming b' :
  step_case s b incoming b' → book_full b → book_full b'.
Proof.
  intros Hstep Hfull.
  destruct Hstep as [resting rest x h Hheap Hi Hc Hr Hpop|resting rest Hheap Hi Hc Hr Hr'
                    |resting rest x h Hheap Hi Hc Hr Hr' Hpop].
  - apply (book_full_pop _ _ x); [done| |done].
    apply heappop_Some in Hpop as [Hhead _]. rewrite Hheap in Hhead.
    simpl in Hhead. by simplify_eq.
  - by apply book_full_fill_pair.
  - apply (book_full_pop _ _ x); [done| |by apply book_full_fill_pair].
    apply heappop_Some in Hpop as [Hhead _].
    rewrite fill_pair_opp_orders, Hheap in Hhead. simpl in Hhead. by simplify_eq.
Qed.

Lemma match_order_full commits b incoming b' trades :
  book_wf b → book_full b →
  _match_order commits b incoming = Some (b', trades) → book_full b'.
Proof.
  intros Hwf Hfull. rewrite _match_order_eq.
  apply (match_loop_keeps book_full); [|done..].
  intros b1 b2 _ _ H1 Hstep. by eapply step_case_full.
Qed.

Lemma book_full_mark b r :
  book_full b → book_full (store_filled b r (quantity (node_at (nodes b) r))).
Proof.
  intros [Hnd Hlive]. split.
  - intros s. exact (Hnd s).
  - intros x Hl. rewrite store_filled_side. apply live_marked in Hl.
    exact (Hlive x Hl).
Qed.

Lemma book_full_with_orders_by_id b m : book_full b → book_full (with_orders_by_id b m).
Proof. intros [Hnd Hlive]. split; [exact Hnd|exact Hlive]. Qed.

Lemma book_full_remove_order b oid : book_full b → book_full (remove_order b oid).2.
Proof.
  intros Hfull. unfold remove_order. destruct (orders_by_id b !! oid) as [r|]; [|done].
  cbn [snd]. by apply (book_full_mark (with_orders_by_id b _)), book_full_with_orders_by_id.
Qed.

Lemma book_full_modify_order b oid q p now :
  book_wf b → book_full b → book_full (modify_order b oid q p now).2.
Proof.
  intros Hwf Hfull. unfold modify_order.
  destruct (orders_by_id b !! oid) as [r|]; [|done]. cbv zeta.
  apply (book_full_push (store_filled b r (quantity (node_at (nodes b) r)))).
  - by apply book_wf_store_filled.
  - by apply book_full_mark.
Qed.

(** ** The engine *)

Lemma engine_full_init : engine_full MatchingEngine_init.
Proof. intros sym b Hl. simpl in Hl. by rewrite lookup_empty in Hl. Qed.

Lemma get_order_book_full eng sym :
  engine_full eng →
  book_full (get_order_book eng sym).1 ∧ engine_full (get_order_book eng sym).2.
Proof.
  intros Hfull. unfold get_order_book.
  destruct (order_books eng !! sym) as [ob|] eqn:Hl; simpl.
  - split; [by apply (Hfull sym)|done].
  - split; [apply book_full_init|].
    intros sym' b. simpl. intros [[<- <-]|[_ Hb]]%lookup_insert_Some.
    + apply book_full_init.
    + by apply (Hfull sym').
Qed.

Lemma engine_full_put eng sym b :
  engine_full eng → book_full b → engine_full (put_order_book eng sym b).
Proof.
  intros Hfull Hb sym' b'. simpl. intros [[<- <-]|[_ Hl]]%lookup_insert_Some; [done|].
  by apply (Hfull sym').
Qed.

Lemma submit_order_full eng order_data now commits res eng' :
  engine_inv eng → engine_full eng →
  submit_order eng order_data now commits = Some (res, eng') →
  engine_full eng'.
Proof.
  intros Hinv Hfull. unfold submit_order.
  destruct (get_order_book_inv eng (od_symbol order_data) Hinv) as [Hob _].
  destruct (get_order_book_full eng (od_symbol order_data) Hfull) as [Hobf Heng1].
  destruct (get_order_book _ _) as [ob eng1]. simpl in Hob, Hobf, Heng1.
  unfold new_node.
  destruct (add_order _ _) as [[] ob2] eqn:Hadd; [|by intros ?; simplify_eq].
  destruct (_match_order commits ob2 _) as [[ob3 ts]|] eqn:Hmatch; [|done].
  simpl. intros ?; simplify_eq. apply engine_full_put; [done|].
  eapply match_order_full; [| |done].
  - eapply add_new_wf; [exact (inv_wf _ _ Hob)|exact Hadd].
  - eapply book_full_add_new; [exact (inv_wf _ _ Hob)|done|exact Hadd].
Qed.

Lemma cancel_order_full eng oid sym db_ok :
  engine_full eng → engine_full (cancel_order eng oid sym db_ok).2.
Proof.
  intros Hfull. unfold cancel_order.
  destruct (get_order_book_full eng sym Hfull) as [Hob Heng1].
  destruct (get_order_book _ _) as [ob eng1]. simpl in Hob, Heng1.
  pose proof (book_full_remove_order ob oid Hob) as Hrem.
  destruct (remove_order ob oid) as [[] ob1]; [|done].
  simpl in Hrem. destruct db_ok; by apply engine_full_put.
Qed.

Lemma engine_modify_order_full eng oid sym q p now db_ok :
  engine_inv eng → engine_full eng →
  engine_full (engine_modify_order eng oid sym q p now db_ok).2.
Proof.
  intros Hinv Hfull. unfold engine_modify_order.
  destruct (get_order_book_inv eng sym Hinv) as [Hobi _].
  destruct (get_order_book_full eng sym Hfull) as [Hob Heng1].
  destruct (get_order_book _ _) as [ob eng1]. simpl in Hobi, Hob, Heng1.
  pose proof (book_full_modify_order ob oid q p now (inv_wf _ _ Hobi) Hob) as Hmod.
  destruct (modify_order ob oid q p now) as [[] ob1]; [|done].
  simpl in Hmod. destruct db_ok; by apply engine_full_put.
Qed.

Lemma run_full eng reqs ts eng' :
  engine_inv eng → engine_full eng →
  run eng reqs = Some (ts, eng') → engine_full eng'.
Proof.
  revert eng ts. induction reqs as [|req reqs IH]; intros eng ts Hinv Hfull; simpl.
  { by intros ?; simplify_eq. }
  destruct (handle eng req) as [[ts1 eng1]|] eqn:Hh; [|done]. simpl.
  destruct (run eng1 reqs) as [[ts2 eng2]|] eqn:Hr; [|done]. simpl.
  intros ?; simplify_eq. apply (IH eng1 ts2); [by eapply handle_inv| |done].
  destruct req as [od now commits|oid sym db_ok|oid sym q p now db_ok]; simpl in Hh.
  - destruct (submit_order eng od now commits) as [[res eng0]|] eqn:Hsub; [|done].
    simpl in Hh. simplify_eq. by eapply submit_order_full.
  - simplify_eq. by apply cancel_order_full.
  - simplify_eq. by apply engine_modify_order_full.
Qed.

(** ** A depth query with room for every order *)

Lemma heap_length_le store s heap :
  Forall (on_side store s) heap → NoDup heap → length heap ≤ length store.
Proof.
  intros HP Hnd. transitivity (length (seq 0 (length store))); [|by rewrite length_seq].
  apply submseteq_length, NoDup_submseteq; [done|].
  intros x Hx. rewrite Forall_forall in HP. destruct (HP x Hx) as [Hlt _].
  apply elem_of_seq. lia.
Qed.

Lemma submseteq_keeps_NoDup {A} (l k : list A) : l ⊆+ k → NoDup k → NoDup l.
Proof.
  intros [k' Hk]%submseteq_Permutation Hnd. rewrite Hk in Hnd.
  by apply NoDup_app in Hnd as [? _].
Qed.

Lemma depth_side_all store s levels heap :
  Forall (on_side store s) heap → heap_ok (ref_lt store) heap → NoDup heap →
  (Z.of_nat (length store) < levels)%Z →
  ∃ rs heap',
    depth_side store levels heap = Some (depth_entry store <$> rs, heap')
    ∧ NoDup rs
    ∧ StronglySorted (λ r r', ref_lt store r' r = false) rs
    ∧ ∀ r, r ∈ rs ↔ r ∈ heap ∧ live store r.
Proof.
  intros HP Hok Hnd Hlev.
  destruct (depth_facts.depth_side_listing store s levels heap HP Hok)
    as (rs & heap' & Hd & _ & Hsub & Hlive & _ & Hsort & _ & Hall).
  exists rs, heap'. split; [done|].
  pose proof (submseteq_length _ _ Hsub) as Hlen.
  pose proof (heap_length_le _ _ _ HP Hnd) as Hle.
  split; [by eapply submseteq_keeps_NoDup|]. split; [done|]. intros r. split.
  - intros Hr. split; [by eapply elem_of_submseteq|].
    rewrite Forall_forall in Hlive. by apply Hlive.
  - intros [Hr Hl]. apply Hall; [lia|done..].
Qed.
End full_facts.

(** * Loading the books from the database *)

Module rebuild_facts.
Import heapq heapq_facts book_facts wf_facts match_facts match_claims inv_facts
  engine_facts conserve_facts cross_facts bound_facts submit_facts index_facts
  full_facts.

Lemma holds_indexed eng sym oid n : holds eng sym oid n → indexed eng sym oid.
Proof. intros (b & r & Hb & Hr & _). by exists b, r. Qed.

(** The status query returns the node an id designates. *)
Lemma holds_status {D} eng sym oid n (db_order : option D) :
  holds eng sym oid n →
  get_order_status eng oid sym db_order = (Some (inl (n, status_of n)), eng).
Proof.
  intros (b & r & Hb & Hr & Hn). unfold get_order_status.
  rewrite (get_order_book_found _ _ _ Hb). unfold get_order. rewrite Hr. simpl.
  by rewrite (node_at_lookup _ _ _ Hn).
Qed.

(** What [add_order] does with a new node. *)
Lemma add_new_cases b n :
  (orders_by_id b !! order_id n = None
   ∧ ∃ b', add_order (new_node b n).2 (new_node b n).1 = (true, b')
       ∧ nodes b' = nodes b ++ [n]
       ∧ orders_by_id b' = <[order_id n := length (nodes b)]> (orders_by_id b))
  ∨ (is_Some (orders_by_id b !! order_id n)
     ∧ ∃ b', add_order (new_node b n).2 (new_node b n).1 = (false, b')).
Proof.
  unfold add_order, new_node. cbn [fst snd nodes with_nodes orders_by_id].
  rewrite node_at_app_new. destruct (orders_by_id b !! order_id n) eqn:Hid.
  - right. split; [done|]. by eexists.
  - left. split; [done|]. eexists. split; [done|].
    by rewrite nodes_push_by_side, orders_by_id_push_by_side.
Qed.

Lemma rebuild_row_inv eng o :
  engine_inv eng → engine_inv (rebuild_row eng o).
Proof.
  intros Hinv. unfold rebuild_row.
  destruct (get_order_book_inv eng (row_symbol o) Hinv) as [Hob Heng1].
  destruct (get_order_book _ _) as [ob eng1]. simpl in Hob, Heng1.
  destruct (add_new_cases ob (row_node o)) as [(_ & b' & Hadd & _)|(_ & b' & Hadd)].
  - unfold new_node in *. cbn [fst snd] in *. rewrite Hadd.
    apply engine_inv_put; [done|]. by apply (book_inv_add_new _ ob (row_node o)).
  - unfold new_node in *. cbn [fst snd] in *. by rewrite Hadd.
Qed.

Lemma rebuild_row_full eng o :
  engine_inv eng → engine_full eng → engine_full (rebuild_row eng o).
Proof.
  intros Hinv Hfull. unfold rebuild_row.
  destruct (get_order_book_inv eng (row_symbol o) Hinv) as [Hob _].
  destruct (get_order_book_full eng (row_symbol o) Hfull) as [Hobf Heng1].
  destruct (get_order_book _ _) as [ob eng1]. simpl in Hob, Hobf, Heng1.
  destruct (add_new_cases ob (row_node o)) as [(_ & b' & Hadd & _)|(_ & b' & Hadd)].
  - unfold new_node in *. cbn [fst snd] in *. rewrite Hadd.
    apply engine_full_put; [done|].
    by apply (book_full_add_new ob (row_node o) b' (inv_wf _ _ Hob)).
  - unfold new_node in *. cbn [fst snd] in *. by rewrite Hadd.
Qed.

(** A row changes nothing for the ids that are in the books. *)
Lemma rebuild_row_holds eng o sym oid n :
  holds eng sym oid n → holds (rebuild_row eng o) sym oid n.
Proof.
  intros (b & r & Hb & Hr & Hn). unfold rebuild_row.
  pose proof (get_order_book_other eng sym (row_symbol o) b Hb) as Hb1.
  pose proof (get_order_book_lookup eng (row_symbol o)) as Hl1.
  destruct (get_order_book _ _) as [ob eng1]. simpl in Hb1, Hl1.
  destruct (add_new_cases ob (row_node o))
    as [(Hnone & b' & Hadd & Hnodes & Hidx)|(_ & b' & Hadd)].
  - unfold new_node in *. cbn [fst snd] in *. rewrite Hadd. unfold holds. simpl.
    destruct (decide (row_symbol o = sym)) as [Hs|Hs].
    + rewrite Hs in *. simplify_eq. exists b', r. rewrite lookup_insert_eq.
      split; [done|]. rewrite Hidx, Hnodes. split; [|by apply lookup_app_l_Some].
      rewrite lookup_insert_ne; [done|]. simpl. intros Heq. simpl in Hnone.
      rewrite Heq in Hnone. congruence.
    + exists b, r. by rewrite lookup_insert_ne.
  - unfold new_node in *. cbn [fst snd] in *. rewrite Hadd. by exists b, r.
Qed.

(** A row whose id is not in the book of its symbol is loaded. *)
Lemma rebuild_row_loads eng o :
  ¬ indexed eng (row_symbol o) (row_id o) →
  holds (rebuild_row eng o) (row_symbol o) (row_id o) (row_node o).
Proof.
  intros Hnew. unfold rebuild_row.
  pose proof (get_order_book_lookup eng (row_symbol o)) as Hl1.
  assert (∀ r, orders_by_id (get_order_book eng (row_symbol o)).1 !! row_id o ≠ Some r)
    as Hfree.
  { intros r Hr. unfold get_order_book in Hr.
    destruct (order_books eng !! row_symbol o) as [b|] eqn:Hb; simpl in Hr.
    - apply Hnew. by exists b, r.
    - by rewrite lookup_empty in Hr. }
  destruct (get_order_book _ _) as [ob eng1]. simpl in Hl1, Hfree.
  destruct (add_new_cases ob (row_node o))
    as [(Hnone & b' & Hadd & Hnodes & Hidx)|([r Hr] & _)].
  - unfold new_node in *. cbn [fst snd] in *. rewrite Hadd.
    exists b', (length (nodes ob)). simpl. rewrite lookup_insert_eq. split; [done|].
    rewrite Hidx, Hnodes. split; [apply lookup_insert_eq|].
    rewrite lookup_app_r by done. by rewrite Nat.sub_diag.
  - by destruct (Hfree r).
Qed.

(** The ids in the books after a row are those before and the row's. *)
Lemma rebuild_row_indexed eng o sym oid :
  indexed (rebuild_row eng o) sym oid →
  indexed eng sym oid ∨ (sym = row_symbol o ∧ oid = row_id o).
Proof.
  unfold rebuild_row, indexed.
  pose proof (get_order_book_lookup eng (row_symbol o)) as Hl1.
  assert (∀ b, order_books (get_order_book eng (row_symbol o)).2 !! sym = Some b →
            order_books eng !! sym = Some b
            ∨ (sym = row_symbol o ∧ b = OrderBook_init sym
               ∧ (get_order_book eng (row_symbol o)).1 = b)) as Hback.
  { intros b. unfold get_order_book.
    destruct (order_books eng !! row_symbol o) as [b0|] eqn:Hb0; simpl; [by left|].
    intros [[<- <-]|[_ ?]]%lookup_insert_Some; [by right|by left]. }
  destruct (get_order_book _ _) as [ob eng1]. simpl in Hl1, Hback.
  destruct (add_new_cases ob (row_node o))
    as [(Hnone & b' & Hadd & Hnodes & Hidx)|(_ & b' & Hadd)];
    unfold new_node in *; cbn [fst snd] in *; rewrite Hadd.
  - simpl. intros (b & r & [[<- <-]|[Hne Hb]]%lookup_insert_Some & Hr).
    + rewrite Hidx in Hr. apply lookup_insert_Some in Hr as [[<- _]|[_ Hr]]; [by right|].
      destruct (Hback ob Hl1) as [?|(_ & -> & _)]; [left; by exists ob, r|].
      simpl in Hr. by rewrite lookup_empty in Hr.
    + destruct (Hback b Hb) as [?|(-> & _)]; [left; by exists b, r|done].
  - intros (b & r & Hb & Hr). destruct (Hback b Hb) as [?|(_ & -> & _)].
    + left. by exists b, r.
    + simpl in Hr. by rewrite lookup_empty in Hr.
Qed.

Lemma rebuild_loop_spec eng count rows :
  engine_inv eng → engine_full eng →
  NoDup (row_id <$> rows) →
  (∀ sym oid, indexed eng sym oid → oid ∉ row_id <$> rows) →
  (rebuild_loop eng count rows).1 = count + length rows
  ∧ engine_inv (rebuild_loop eng count rows).2
  ∧ engine_full (rebuild_loop eng count rows).2
  ∧ (∀ sym oid n, holds eng sym oid n → holds (rebuild_loop eng count rows).2 sym oid n)
  ∧ ∀ o, o ∈ rows →
      holds (rebuild_loop eng count rows).2 (row_symbol o) (row_id o) (row_node o).
Proof.
  revert eng count. induction rows as [|o rows IH]; intros eng count Hinv Hfull Hnd Hnew.
  { simpl. split; [lia|]. split; [done|]. split; [done|]. split; [done|].
    intros o Ho. by apply elem_of_nil in Ho. }
  cbn [rebuild_loop]. rewrite fmap_cons in Hnd, Hnew. apply NoDup_cons in Hnd as [Hid Hnd].
  destruct (IH (rebuild_row eng o) (S count)) as (Hc & Hi & Hf & Hkeep & Hload).
  - by apply rebuild_row_inv.
  - by apply rebuild_row_full.
  - done.
  - intros sym oid [Hold|[-> ->]]%rebuild_row_indexed; [|done].
    intros Hin. apply (Hnew sym oid Hold). by right.
  - split; [rewrite Hc; simpl; lia|]. split; [done|]. split; [done|]. split.
    + intros sym oid n Hh. by apply Hkeep, rebuild_row_holds.
    + intros o' [->|Ho']%elem_of_cons; [|by apply Hload].
      apply Hkeep, rebuild_row_loads. intros Hi0. apply (Hnew _ _ Hi0). by left.
Qed.
End rebuild_facts.

(** * The properties of the specification *)

Module scenario_facts.
Import engine_facts.

(** The book of [X] after requests to a fresh engine keeps the invariants. *)
Lemma book_after_inv reqs : book_inv "X" (book_after reqs).
Proof.
  unfold book_after, engine_after.
  destruct (run_total MatchingEngine_init reqs) as [[ts eng] Hrun]. rewrite Hrun. simpl.
  destruct (order_books eng !! "X") as [b|] eqn:Hb; simpl; [|apply inv_facts.book_inv_init].
  by apply (run_inv _ _ _ _ engine_inv_init Hrun).
Qed.

Lemma book_after_wf reqs : book_wf (book_after reqs).
Proof. apply (inv_wf "X"), book_after_inv. Qed.
End scenario_facts.

Import heapq heapq_facts book_facts wf_facts match_facts match_claims depth_facts
  inv_facts engine_facts conserve_facts scenario_facts.

(** ** Matching *)

(** C1: matching an incoming order returns, and takes the resting orders of
    the opposite heap in price-time priority: when a resting order [r] has
    received a fill, every resting order [x] that comes before it (a
    better price, or the same price and an earlier timestamp) is filled. *)
Theorem match_order_price_time_priority commits b incoming :
  book_wf b →
  ∃ b' trades,
    _match_order commits b incoming = Some (b', trades)
    ∧ ∀ r x,
        r ∈ opp_orders (side (node_at (nodes b) incoming)) b →
        x ∈ opp_orders (side (node_at (nodes b) incoming)) b →
        priority_over (node_at (nodes b) x) (node_at (nodes b) r) →
        filled_quantity (node_at (nodes b') r) ≠ filled_quantity (node_at (nodes b) r) →
        is_filled (node_at (nodes b') x) = true.
Proof.
  intros Hwf. destruct (_match_order_total commits b incoming) as [[b' trades] Hm].
  exists b', trades. split; [done|]. rewrite _match_order_eq in Hm.
  pose proof (prio_inv_loop _ b _ _ b incoming [] b' trades Hwf eq_refl
                (prio_inv_init _ b Hwf) Hm) as [_ _ _ Hprio].
  intros r x Hr Hx Hp Hf. apply (Hprio r x); [done..|].
  by apply OrderNode_lt_priority.
Qed.

(** C3: every trade made for an incoming order is a trade with a resting
    order of the opposite heap whose price crosses the incoming order's,
    at the price of that resting order. *)
Theorem match_order_passive_price commits b incoming :
  ∃ b' trades,
    _match_order commits b incoming = Some (b', trades)
    ∧ Forall (λ t, ∃ resting,
        passive_trade (side (node_at (nodes b) incoming)) b incoming resting t) trades.
Proof.
  destruct (_match_order_total commits b incoming) as [[b' trades] Hm].
  exists b', trades. split; [done|]. rewrite _match_order_eq in Hm.
  by apply match_loop_trades in Hm as (new & -> & Hnew).
Qed.



Lemma match_order_price_time_priority_witness :
  book_wf bid_on_three_asks
  ∧ ∃ b' trades,
      _match_order [] bid_on_three_asks 3 = Some (b', trades)
      ∧ filled_quantity (node_at (nodes b') 1) = 2%Z
      ∧ is_filled (node_at (nodes b') 0) = true.
Proof.
  assert (book_wf bid_on_three_asks) as Hwf.
  { apply book_wf_add_order; [apply book_wf_new_node, book_after_wf|].
    vm_compute. lia. }
  split; [exact Hwf|].
  destruct (match_order_price_time_priority [] bid_on_three_asks 3 Hwf)
    as (b' & trades & Hm & Hprio).
  exists b', trades. split; [exact Hm|].
  assert (filled_quantity (node_at (nodes b') 1) = 2%Z) as Hfill.
  { vm_compute in Hm. injection Hm as <- _. reflexivity. }
  split; [exact Hfill|]. apply (Hprio 1 0).
  - vm_compute. apply list_elem_of_lookup. by exists 1.
  - vm_compute. apply list_elem_of_lookup. by exists 0.
  - right. vm_compute. split; reflexivity.
  - rewrite Hfill. vm_compute. discriminate.
Defined.

(** Four asks are accepted at the same price with the same clock reading;
    a bid of 10 then trades with the first and the third: the second,
    accepted before the third, gets nothing. *)
Lemma tied_asks_not_in_acceptance_order :
  ∃ eng eng' b',
    run MatchingEngine_init tied_asks = Some ([], eng)
    ∧ submit_order eng (limit_order "b1" BUY 10 100) 2 []
      = Some ((true, "Order submitted successfully",
               [mkTrade "b1" "s1" "X" 5 100; mkTrade "b1" "s3" "X" 5 100]), eng')
    ∧ order_books eng' !! "X" = Some b'
    ∧ filled_quantity <$> nodes b' = [5; 0; 5; 0; 10]%Z.
Proof.
  eexists _, _, _. split; [vm_compute; reflexivity|].
  split; [vm_compute; reflexivity|]. split; vm_compute; reflexivity.
Qed.

(** ** Market depth *)

(** C10: a depth query returns and leaves the book as it found it: each
    heap holds the same references as before, up to their order in the
    array, hence the same nodes, and the nodes, the id index and the symbol
    are unchanged. *)
Theorem get_market_depth_frame b levels :
  ∃ buy_depth sell_depth b',
    get_market_depth b levels = Some (buy_depth, sell_depth, b')
    ∧ buy_orders b' ≡ₚ buy_orders b
    ∧ sell_orders b' ≡ₚ sell_orders b
    ∧ node_at (nodes b') <$> buy_orders b' ≡ₚ node_at (nodes b) <$> buy_orders b
    ∧ node_at (nodes b') <$> sell_orders b' ≡ₚ node_at (nodes b) <$> sell_orders b
    ∧ orders_by_id b' = orders_by_id b
    ∧ nodes b' = nodes b
    ∧ book_symbol b' = book_symbol b.
Proof.
  unfold get_market_depth.
  destruct (depth_side_spec (nodes b) levels (buy_orders b)) as (pb & hb & Hb & _).
  pose proof (depth_side_perm _ _ _ _ _ Hb) as Hpb. rewrite Hb. simpl.
  destruct (depth_side_spec (nodes b) levels (sell_orders b)) as (ps & hs & Hs & _).
  pose proof (depth_side_perm _ _ _ _ _ Hs) as Hps. rewrite Hs. simpl.
  eexists _, _, _. split; [done|]. simpl.
  split; [done|]. split; [done|]. split; [by rewrite Hpb|]. split; [by rewrite Hps|].
  done.
Qed.

(** C5: on a well-formed book a depth query returns, for each side, one
    (price, remaining quantity) pair per listed order: at most
    [max 0 levels] orders of that side's heap, each with quantity left,
    in [__lt__] order (bids by descending price, asks by ascending price),
    no order left out coming before a listed one, and none left out when
    fewer than [levels] are listed. *)
Theorem get_market_depth_listing b levels :
  book_wf b →
  ∃ bids asks b',
    get_market_depth b levels
    = Some (depth_entry (nodes b) <$> bids, depth_entry (nodes b) <$> asks, b')
    ∧ (Z.of_nat (length bids) ≤ Z.max 0 levels)%Z
    ∧ (Z.of_nat (length asks) ≤ Z.max 0 levels)%Z
    ∧ bids ⊆+ buy_orders b ∧ asks ⊆+ sell_orders b
    ∧ Forall (live (nodes b)) bids ∧ Forall (live (nodes b)) asks
    ∧ StronglySorted (λ r r', ref_lt (nodes b) r' r = false) bids
    ∧ StronglySorted (λ r r', ref_lt (nodes b) r' r = false) asks
    ∧ StronglySorted (λ p q, (q.1 ≤ p.1)%Z) (depth_entry (nodes b) <$> bids)
    ∧ StronglySorted (λ p q, (p.1 ≤ q.1)%Z) (depth_entry (nodes b) <$> asks)
    ∧ (∀ x r, x ∈ buy_orders b → live (nodes b) x → x ∉ bids → r ∈ bids →
         ref_lt (nodes b) x r = false)
    ∧ (∀ x r, x ∈ sell_orders b → live (nodes b) x → x ∉ asks → r ∈ asks →
         ref_lt (nodes b) x r = false)
    ∧ ((Z.of_nat (length bids) < levels)%Z →
         ∀ x, x ∈ buy_orders b → live (nodes b) x → x ∈ bids)
    ∧ ((Z.of_nat (length asks) < levels)%Z →
         ∀ x, x ∈ sell_orders b → live (nodes b) x → x ∈ asks).
Proof.
  intros [Hbs Hss Hbh Hsh]. unfold get_market_depth.
  destruct (depth_side_listing (nodes b) BUY levels (buy_orders b) Hbs Hbh)
    as (bids & hb & -> & Hbl & Hbsub & Hblive & Hbside & Hbsort & Hbbest & Hball).
  destruct (depth_side_listing (nodes b) SELL levels (sell_orders b) Hss Hsh)
    as (asks & hs & Hs & Hsl & Hssub & Hslive & Hsside & Hssort & Hsbest & Hsall).
  simpl. rewrite Hs. simpl. exists bids, asks. eexists. split; [done|].
  split; [done|]. split; [done|]. split; [done|]. split; [done|].
  split; [done|]. split; [done|]. split; [done|]. split; [done|].
  split; [by apply sorted_prices_BUY|]. split; [by apply sorted_prices_SELL|].
  done.
Qed.

Lemma get_market_depth_listing_witness :
  book_wf (book_after two_bids)
  ∧ ∃ bids asks b',
      get_market_depth (book_after two_bids) 10
      = Some (depth_entry (nodes (book_after two_bids)) <$> bids,
              depth_entry (nodes (book_after two_bids)) <$> asks, b')
      ∧ Forall (live (nodes (book_after two_bids))) bids.
Proof.
  split; [apply book_after_wf|].
  destruct (get_market_depth_listing (book_after two_bids) 10 (book_after_wf two_bids))
    as (bids & asks & b' & Hd & _ & _ & _ & _ & Hlive & _).
  exists bids, asks, b'. split; [exact Hd|exact Hlive].
Defined.

(** Two bids resting at 100 are listed as two entries of 5 and 7, not as
    one level of 12. *)
Lemma depth_lists_orders_of_one_price :
  ∃ eng b b',
    run MatchingEngine_init two_bids = Some ([], eng)
    ∧ order_books eng !! "X" = Some b
    ∧ get_market_depth b 10 = Some ([(100, 5); (100, 7)]%Z, [], b').
Proof.
  eexists _, _, _. split; [vm_compute; reflexivity|].
  split; vm_compute; reflexivity.
Qed.

(** ** The id index *)

Import bound_facts index_facts.

(** C6: after any sequence of requests to a fresh engine, an id is in the
    id index of the book of a symbol exactly when it has been submitted
    for the symbol and no later request has cancelled it; in every book
    an order with quantity left to trade is the one its id designates in
    the index, and every id of the index designates an order carrying
    that id. *)
Theorem run_index_consistent reqs :
  ∃ trades eng,
    run MatchingEngine_init reqs = Some (trades, eng)
    ∧ (∀ sym oid, indexed eng sym oid ↔ submitted_not_cancelled oid sym reqs)
    ∧ ∀ sym b, order_books eng !! sym = Some b →
        (∀ r, (0 < remaining_quantity (node_at (nodes b) r))%Z →
           orders_by_id b !! order_id (node_at (nodes b) r) = Some r)
        ∧ (∀ oid r, orders_by_id b !! oid = Some r →
             r < length (nodes b) ∧ order_id (node_at (nodes b) r) = oid).
Proof.
  destruct (run_total MatchingEngine_init reqs) as [[trades eng] Hrun].
  exists trades, eng. split; [done|]. split.
  - intros sym oid. rewrite (run_indexed_iff _ _ _ _ sym oid Hrun). split; [|auto].
    intros [[(b & r & Hb & _) _]|?]; [|done]. simpl in Hb. by rewrite lookup_empty in Hb.
  - intros sym b Hb.
    destruct (run_inv _ _ _ _ engine_inv_init Hrun sym b Hb) as [_ _ Hids Hlive].
    split; [|done]. intros r Hr. apply Hlive. by apply is_filled_remaining.
Qed.

(** A bid filled in full by an ask is still in the id index. *)
Lemma filled_order_stays_in_index :
  ∃ trades eng b r,
    run MatchingEngine_init filled_pair = Some (trades, eng)
    ∧ order_books eng !! "X" = Some b
    ∧ orders_by_id b !! "b1" = Some r
    ∧ remaining_quantity (node_at (nodes b) r) = 0%Z.
Proof.
  eexists _, _, _, _. split; [vm_compute; reflexivity|].
  split; [vm_compute; reflexivity|]. split; vm_compute; reflexivity.
Qed.

(** ** Modification and cancellation *)

(** C7: a modify request for an id that designates an order with
    quantity left is carried out whatever the new quantity: the node the
    id designated is marked filled and the id designates a new node with
    the new quantity and price and nothing filled. The request reports
    success when the database update goes through and failure when it
    raises, the book being changed in both cases. For an id that is not
    in the index the request returns
    [(False, 'Order not found or already filled')] and leaves every book
    as it is. *)
Theorem modify_request_replaces eng oid sym new_quantity new_price now db_ok :
  ∃ res eng',
    engine_modify_order eng oid sym new_quantity new_price now db_ok = (res, eng')
    ∧ (∀ b r, order_books eng !! sym = Some b → orders_by_id b !! oid = Some r →
         live (nodes b) r →
         res.1 = db_ok
         ∧ (db_ok = true → res.2 = "Order modified successfully")
         ∧ ∃ b', order_books eng' !! sym = Some b'
             ∧ get_order b' oid
               = Some (replacement_node (node_at (nodes b) r)
                         new_quantity new_price now)
             ∧ is_filled (node_at (nodes b') r) = true)
    ∧ (¬ indexed eng sym oid →
         res = (false, "Order not found or already filled")
         ∧ eng' = (get_order_book eng sym).2
         ∧ ∀ sym' b, order_books eng !! sym' = Some b →
             order_books eng' !! sym' = Some b).
Proof.
  destruct (engine_modify_order eng oid sym new_quantity new_price now db_ok)
    as [res eng'] eqn:Hmod.
  exists res, eng'. split; [done|]. revert Hmod. unfold engine_modify_order. split.
  - intros b r Hb Hid Hlive. pose proof (live_valid _ _ Hlive) as Hr. revert Hmod.
    rewrite (get_order_book_found _ _ _ Hb). unfold modify_order. rewrite Hid.
    cbv zeta. unfold new_node.
    assert (∀ b1, b1 = push_by_side
              (with_orders_by_id
                 (with_nodes (store_filled b r (quantity (node_at (nodes b) r)))
                    (nodes (store_filled b r (quantity (node_at (nodes b) r)))
                     ++ [replacement_node (node_at (nodes b) r)
                           new_quantity new_price now]))
                 (<[oid := length (nodes (store_filled b r
                                            (quantity (node_at (nodes b) r))))]>
                    (orders_by_id b)))
              (length (nodes (store_filled b r (quantity (node_at (nodes b) r))))) →
            get_order b1 oid
            = Some (replacement_node (node_at (nodes b) r) new_quantity new_price now)
            ∧ is_filled (node_at (nodes b1) r) = true) as Hnew.
    { intros b1 ->. unfold get_order.
      rewrite orders_by_id_push_by_side, nodes_push_by_side.
      cbn [orders_by_id nodes with_orders_by_id with_nodes].
      rewrite lookup_insert_eq. split.
      - cbn [fmap option_fmap option_map]. by rewrite node_at_app_new.
      - rewrite node_at_app_l by (by rewrite store_filled_length).
        rewrite node_at_store_filled, decide_True by done.
        apply set_filled_quantity_is_filled. }
    destruct db_ok; intros [= <- <-]; (split; [done|]); (split; [done|]);
      (eexists; split; [apply lookup_insert_eq|by apply Hnew]).
  - intros Hni. pose proof (get_order_book_lookup eng sym) as Hl1.
    pose proof (λ sym' b, get_order_book_other eng sym' sym b) as Hother.
    pose proof (indexed_get_order_book_inv eng sym sym oid) as Hback.
    revert Hmod. destruct (get_order_book eng sym) as [ob eng1].
    simpl in Hl1, Hother, Hback.
    unfold modify_order. destruct (orders_by_id ob !! oid) as [r|] eqn:Hid.
    + destruct Hni. apply Hback. by exists ob, r.
    + intros [= <- <-]. done.
Qed.

Lemma modify_request_replaces_witness :
  order_books (engine_after partial_fill) !! "X" = Some (book_after partial_fill)
  ∧ orders_by_id (book_after partial_fill) !! "b1" = Some 0
  ∧ live (nodes (book_after partial_fill)) 0
  ∧ ∃ res eng',
      engine_modify_order (engine_after partial_fill) "b1" "X" 2 100 3 true
      = (res, eng')
      ∧ res = (true, "Order modified successfully").
Proof.
  assert (order_books (engine_after partial_fill) !! "X" = Some (book_after partial_fill))
    as H1.
  { vm_compute. reflexivity. }
  assert (orders_by_id (book_after partial_fill) !! "b1" = Some 0) as H2.
  { vm_compute. reflexivity. }
  assert (live (nodes (book_after partial_fill)) 0) as H3.
  { vm_compute. reflexivity. }
  split; [exact H1|]. split; [exact H2|]. split; [exact H3|].
  destruct (modify_request_replaces (engine_after partial_fill) "b1" "X" 2 100 3 true)
    as (res & eng' & Hm & Hfound & _).
  exists res, eng'. split; [exact Hm|].
  destruct (Hfound _ _ H1 H2 H3) as (Hflag & Hmsg & _).
  destruct res as [flag msg]. simpl in Hflag, Hmsg. rewrite Hflag, (Hmsg eq_refl).
  reflexivity.
Defined.

(** A bid of 10 filled for 4 is modified to a quantity of 2: the request
    succeeds and the id designates an order of 2 with nothing filled. *)
Lemma modify_below_filled_quantity_succeeds :
  ∃ trades eng b r eng' b',
    run MatchingEngine_init partial_fill = Some (trades, eng)
    ∧ order_books eng !! "X" = Some b
    ∧ orders_by_id b !! "b1" = Some r
    ∧ filled_quantity (node_at (nodes b) r) = 4%Z
    ∧ engine_modify_order eng "b1" "X" 2 100 3 true
      = ((true, "Order modified successfully"), eng')
    ∧ order_books eng' !! "X" = Some b'
    ∧ quantity <$> get_order b' "b1" = Some 2%Z
    ∧ filled_quantity <$> get_order b' "b1" = Some 0%Z.
Proof.
  eexists _, _, _, _, _, _. split; [vm_compute; reflexivity|].
  split; [vm_compute; reflexivity|]. split; [vm_compute; reflexivity|].
  split; [vm_compute; reflexivity|]. split; [vm_compute; reflexivity|].
  split; [vm_compute; reflexivity|]. split; vm_compute; reflexivity.
Qed.

(** C8: cancelling the id of an order that is filled in full is reported
    as a success. *)
Lemma cancel_filled_order_succeeds :
  ∃ trades eng b r,
    run MatchingEngine_init filled_pair = Some (trades, eng)
    ∧ order_books eng !! "X" = Some b
    ∧ orders_by_id b !! "b1" = Some r
    ∧ is_filled (node_at (nodes b) r) = true
    ∧ (cancel_order eng "b1" "X" true).1 = (true, "Order cancelled successfully").
Proof.
  eexists _, _, _, _. split; [vm_compute; reflexivity|].
  split; [vm_compute; reflexivity|]. split; [vm_compute; reflexivity|].
  split; vm_compute; reflexivity.
Qed.

(** C2: a bid resting at 90 below an ask at 100 is modified to 110; the
    book then shows a best bid of 110 above a best ask of 100. *)
Lemma modify_leaves_crossed_book :
  ∃ trades eng md eng',
    run MatchingEngine_init crossing_modify = Some (trades, eng)
    ∧ get_market_data eng "X" = Some (md, eng')
    ∧ trades = []
    ∧ best_bid md = Some 110%Z
    ∧ best_ask md = Some 100%Z.
Proof.
  eexists _, _, _, _. split; [vm_compute; reflexivity|].
  split; [vm_compute; reflexivity|]. split; [reflexivity|].
  split; vm_compute; reflexivity.
Qed.

(** ** Quantities *)

(** C9: after any sequence of submits to a fresh engine, for every symbol
    the filled quantities of the bids and of the asks have the same sum,
    which is the quantity of the trades returned for the symbol when every
    database transaction went through; and the quantity of every order is
    its filled quantity plus its remaining quantity. *)
Theorem submits_conserve_quantity reqs :
  Forall is_submit reqs →
  ∃ trades eng,
    run MatchingEngine_init reqs = Some (trades, eng)
    ∧ ∀ sym,
        book_filled BUY eng sym = book_filled SELL eng sym
        ∧ (Forall journaled_request reqs →
           book_filled BUY eng sym = symbol_volume sym trades)
        ∧ (∀ b, order_books eng !! sym = Some b →
           Forall (λ n, quantity n = (filled_quantity n + remaining_quantity n)%Z)
             (nodes b)).
Proof.
  intros Hsub. destruct (run_total MatchingEngine_init reqs) as [[trades eng] Hrun].
  exists trades, eng. split; [done|]. intros sym.
  destruct (run_submits_conserve _ _ _ _ sym engine_inv_init Hsub Hrun)
    as (q & _ & HB & HS & HV).
  assert (∀ s, book_filled s MatchingEngine_init sym = 0%Z) as Hinit.
  { intros s. unfold book_filled. simpl. by rewrite lookup_empty. }
  rewrite Hinit in HB, HS. split; [lia|]. split.
  - intros Hj. rewrite HV by done. lia.
  - intros b _. apply Forall_forall. intros n _. unfold remaining_quantity. lia.
Qed.

Lemma submits_conserve_quantity_witness :
  Forall is_submit filled_pair
  ∧ ∃ trades eng,
      run MatchingEngine_init filled_pair = Some (trades, eng)
      ∧ book_filled BUY eng "X" = book_filled SELL eng "X".
Proof.
  assert (Forall is_submit filled_pair) as Hsub.
  { repeat constructor. }
  split; [exact Hsub|].
  destruct (submits_conserve_quantity filled_pair Hsub) as (trades & eng & Hrun & Hsym).
  exists trades, eng. split; [exact Hrun|]. exact (proj1 (Hsym "X")).
Defined.

(** A bid of 5 that is cancelled without any trade counts as filled for
    5, with nothing filled on the asks. *)
Lemma cancel_counts_as_filled :
  ∃ eng b,
    run MatchingEngine_init cancelled_bid = Some ([], eng)
    ∧ order_books eng !! "X" = Some b
    ∧ filled_on BUY (nodes b) = 5%Z
    ∧ filled_on SELL (nodes b) = 0%Z.
Proof.
  eexists _, _. split; [vm_compute; reflexivity|].
  split; [vm_compute; reflexivity|]. split; vm_compute; reflexivity.
Qed.

(** * Further properties of the code *)

Import best_facts cross_facts market_facts bound_facts submit_facts index_facts.

(** ** The book stays uncrossed *)

(** X1: after any sequence of submits and cancels to a fresh engine, no
    book is crossed: every bid with quantity left is priced below every
    ask with quantity left. *)
Theorem submits_and_cancels_keep_uncrossed reqs :
  Forall (λ req, is_modify req = false) reqs →
  ∃ trades eng,
    run MatchingEngine_init reqs = Some (trades, eng)
    ∧ ∀ sym b, order_books eng !! sym = Some b → uncrossed b.
Proof.
  intros Hreqs. destruct (run_total MatchingEngine_init reqs) as [[trades eng] Hrun].
  exists trades, eng. split; [done|].
  by apply (run_uncrossed _ _ _ _ engine_inv_init engine_uncrossed_init Hreqs Hrun).
Qed.

Lemma submits_and_cancels_keep_uncrossed_witness :
  Forall (λ req, is_modify req = false) resting_spread
  ∧ ∃ trades eng,
      run MatchingEngine_init resting_spread = Some (trades, eng)
      ∧ ∀ sym b, order_books eng !! sym = Some b → uncrossed b.
Proof.
  assert (Forall (λ req, is_modify req = false) resting_spread) as Hreqs.
  { repeat constructor. }
  split; [exact Hreqs|]. exact (submits_and_cancels_keep_uncrossed resting_spread Hreqs).
Defined.

(** ** Best prices *)

(** X2: on a well-formed book [get_best_buy_price] returns the highest
    price among the bids with quantity left, and nothing when every bid of
    the heap is filled; it drops only filled bids from the heap and leaves
    the rest of the book as it is. *)
Theorem get_best_buy_price_highest_bid b :
  book_wf b →
  ∃ p b',
    get_best_buy_price b = Some (p, b')
    ∧ match p with
      | Some v =>
          (∃ x, x ∈ buy_orders b ∧ live (nodes b) x ∧ price (node_at (nodes b) x) = v)
          ∧ ∀ x, x ∈ buy_orders b → live (nodes b) x →
              (price (node_at (nodes b) x) ≤ v)%Z
      | None => ∀ x, x ∈ buy_orders b → is_filled (node_at (nodes b) x) = true
      end
    ∧ buy_orders b' ⊆+ buy_orders b
    ∧ (∀ x, x ∈ buy_orders b → live (nodes b) x → x ∈ buy_orders b')
    ∧ sell_orders b' = sell_orders b
    ∧ nodes b' = nodes b
    ∧ orders_by_id b' = orders_by_id b
    ∧ book_symbol b' = book_symbol b
    ∧ book_wf b'.
Proof.
  intros [Hbs Hss Hbh Hsh]. unfold get_best_buy_price.
  destruct (best_price_side (nodes b) BUY (buy_orders b) Hbs Hbh)
    as (p & heap' & -> & Hsub & Hkeep & HP' & Hok' & Hp).
  exists p, (with_buy_orders b heap'). split; [done|]. split.
  { destruct p as [v|]; [|done]. destruct Hp as (top & Htop & Hl & Hv & Hmin).
    split; [by exists top|]. intros x Hx Hlx. rewrite <-Hv.
    rewrite Forall_forall in Hbs. destruct (Hbs x Hx) as [_ Hside].
    by apply (OrderNode_not_lt_BUY _ _ Hside), Hmin. }
  do 6 (split; [done|]). by split.
Qed.

Lemma get_best_buy_price_highest_bid_witness :
  book_wf (book_after two_bids)
  ∧ ∃ p b',
      get_best_buy_price (book_after two_bids) = Some (p, b')
      ∧ nodes b' = nodes (book_after two_bids).
Proof.
  split; [apply book_after_wf|].
  destruct (get_best_buy_price_highest_bid (book_after two_bids) (book_after_wf two_bids))
    as (p & b' & Hbest & _ & _ & _ & _ & Hn & _).
  exists p, b'. split; [exact Hbest|exact Hn].
Defined.

(** X3: on a well-formed book [get_best_sell_price] returns the lowest
    price among the asks with quantity left, and nothing when every ask of
    the heap is filled; it drops only filled asks from the heap and leaves
    the rest of the book as it is. *)
Theorem get_best_sell_price_lowest_ask b :
  book_wf b →
  ∃ p b',
    get_best_sell_price b = Some (p, b')
    ∧ match p with
      | Some v =>
          (∃ x, x ∈ sell_orders b ∧ live (nodes b) x ∧ price (node_at (nodes b) x) = v)
          ∧ ∀ x, x ∈ sell_orders b → live (nodes b) x →
              (v ≤ price (node_at (nodes b) x))%Z
      | None => ∀ x, x ∈ sell_orders b → is_filled (node_at (nodes b) x) = true
      end
    ∧ sell_orders b' ⊆+ sell_orders b
    ∧ (∀ x, x ∈ sell_orders b → live (nodes b) x → x ∈ sell_orders b')
    ∧ buy_orders b' = buy_orders b
    ∧ nodes b' = nodes b
    ∧ orders_by_id b' = orders_by_id b
    ∧ book_symbol b' = book_symbol b
    ∧ book_wf b'.
Proof.
  intros [Hbs Hss Hbh Hsh]. unfold get_best_sell_price.
  destruct (best_price_side (nodes b) SELL (sell_orders b) Hss Hsh)
    as (p & heap' & -> & Hsub & Hkeep & HP' & Hok' & Hp).
  exists p, (with_sell_orders b heap'). split; [done|]. split.
  { destruct p as [v|]; [|done]. destruct Hp as (top & Htop & Hl & Hv & Hmin).
    split; [by exists top|]. intros x Hx Hlx. rewrite <-Hv.
    rewrite Forall_forall in Hss. destruct (Hss x Hx) as [_ Hside].
    by apply (OrderNode_not_lt_SELL _ _ Hside), Hmin. }
  do 6 (split; [done|]). by split.
Qed.

Lemma get_best_sell_price_lowest_ask_witness :
  book_wf (book_after three_asks)
  ∧ ∃ p b',
      get_best_sell_price (book_after three_asks) = Some (p, b')
      ∧ nodes b' = nodes (book_after three_asks).
Proof.
  split; [apply book_after_wf|].
  destruct (get_best_sell_price_lowest_ask (book_after three_asks)
              (book_after_wf three_asks))
    as (p & b' & Hbest & _ & _ & _ & _ & Hn & _).
  exists p, b'. split; [exact Hbest|exact Hn].
Defined.

(** ** Market data *)

(** X4: after any sequence of requests to a fresh engine,
    [get_market_data] returns, and the best bid and the best ask it
    reports are the prices of the first entries of the two depth lists
    (none when the list is empty). *)
Theorem get_market_data_best_is_first_level reqs sym :
  ∃ trades eng md eng',
    run MatchingEngine_init reqs = Some (trades, eng)
    ∧ get_market_data eng sym = Some (md, eng')
    ∧ best_bid md = fst <$> head (market_depth md).1
    ∧ best_ask md = fst <$> head (market_depth md).2.
Proof.
  destruct (run_total MatchingEngine_init reqs) as [[trades eng] Hrun].
  pose proof (run_inv _ _ _ _ engine_inv_init Hrun) as Hinv.
  destruct (get_market_data_spec eng sym Hinv) as (md & eng' & Hmd & Hbid & Hask & _).
  by exists trades, eng, md, eng'.
Qed.

(** X5: after any sequence of submits and cancels to a fresh engine, the
    best bid that [get_market_data] reports is below the best ask, when
    both are there. *)
Theorem get_market_data_bid_below_ask reqs sym :
  Forall (λ req, is_modify req = false) reqs →
  ∃ trades eng md eng',
    run MatchingEngine_init reqs = Some (trades, eng)
    ∧ get_market_data eng sym = Some (md, eng')
    ∧ ∀ bid ask, best_bid md = Some bid → best_ask md = Some ask → (bid < ask)%Z.
Proof.
  intros Hreqs. destruct (run_total MatchingEngine_init reqs) as [[trades eng] Hrun].
  pose proof (run_inv _ _ _ _ engine_inv_init Hrun) as Hinv.
  pose proof (run_uncrossed _ _ _ _ engine_inv_init engine_uncrossed_init Hreqs Hrun)
    as Hun.
  destruct (get_market_data_spec eng sym Hinv) as (md & eng' & Hmd & _ & _ & Hlt & _).
  exists trades, eng, md, eng'. split; [done|]. split; [done|].
  intros bid ask Hb Ha. specialize (Hlt Hun). by rewrite Hb, Ha in Hlt.
Qed.

Lemma get_market_data_bid_below_ask_witness :
  Forall (λ req, is_modify req = false) resting_spread
  ∧ ∃ trades eng md eng',
      run MatchingEngine_init resting_spread = Some (trades, eng)
      ∧ get_market_data eng "X" = Some (md, eng')
      ∧ ∀ bid ask, best_bid md = Some bid → best_ask md = Some ask → (bid < ask)%Z.
Proof.
  assert (Forall (λ req, is_modify req = false) resting_spread) as Hreqs.
  { repeat constructor. }
  split; [exact Hreqs|]. exact (get_market_data_bid_below_ask resting_spread "X" Hreqs).
Defined.

(** ** Cleaning the heaps *)

(** X6: [cleanup_filled_orders] returns; each heap then holds the orders
    of the old heap that have quantity left, and only those; the nodes, the
    id index and the symbol are unchanged, and a well-formed book stays
    well formed. *)
Theorem cleanup_filled_orders_keeps_live b :
  ∃ b',
    cleanup_filled_orders b = Some b'
    ∧ buy_orders b' ≡ₚ filter (live (nodes b)) (buy_orders b)
    ∧ sell_orders b' ≡ₚ filter (live (nodes b)) (sell_orders b)
    ∧ nodes b' = nodes b
    ∧ orders_by_id b' = orders_by_id b
    ∧ book_symbol b' = book_symbol b
    ∧ (book_wf b → book_wf b').
Proof.
  unfold cleanup_filled_orders.
  destruct (cleanup_side_spec (nodes b) BUY (buy_orders b)) as (bh & -> & Hb & Hbwf).
  destruct (cleanup_side_spec (nodes b) SELL (sell_orders b)) as (sh & Hs & Hsp & Hswf).
  cbn [mbind option_bind nodes sell_orders with_buy_orders]. rewrite Hs.
  eexists. split; [done|]. cbn [mbind option_bind].
  do 5 (split; [done|]). intros [Hbs Hss Hbh Hsh].
  destruct (Hbwf Hbs Hbh). destruct (Hswf Hss Hsh). by split.
Qed.

(** ** Cancelling *)

(** X7: once [cancel_order] has been called for an id, the id is not in
    the book of the symbol: a second cancel is refused and changes
    nothing, and the status query answers with what the database holds
    for the id, not from the book. *)
Theorem cancel_order_twice {D} eng oid sym db_ok db_ok' (db_order : option D) :
  ∃ res eng1,
    cancel_order eng oid sym db_ok = (res, eng1)
    ∧ cancel_order eng1 oid sym db_ok'
      = ((false, "Order not found or already filled"), eng1)
    ∧ get_order_status eng1 oid sym db_order = (inr <$> db_order, eng1).
Proof.
  unfold cancel_order at 1.
  pose proof (get_order_book_lookup eng sym) as Hl1.
  destruct (get_order_book eng sym) as [ob eng1]. simpl in Hl1.
  assert (∀ e b, order_books e !! sym = Some b → orders_by_id b !! oid = None →
    cancel_order e oid sym db_ok' = ((false, "Order not found or already filled"), e)
    ∧ get_order_status e oid sym db_order = (inr <$> db_order, e)) as Hgone.
  { intros e b He Hb. unfold cancel_order, get_order_status.
    rewrite (get_order_book_found _ _ _ He). unfold remove_order, get_order.
    by rewrite Hb. }
  unfold remove_order. destruct (orders_by_id ob !! oid) as [r|] eqn:Hr.
  - assert (∀ m, ∃ res, (if db_ok
        then ((true, "Order cancelled successfully"), put_order_book eng1 sym m)
        else ((false, "Error cancelling order"), put_order_book eng1 sym m))
        = (res, put_order_book eng1 sym m)) as Hres.
    { intros m. destruct db_ok; by eexists. }
    destruct (Hres (store_filled (with_orders_by_id ob (delete oid (orders_by_id ob))) r
                      (quantity (node_at (nodes ob) r)))) as [res Heq].
    eexists res, _. split; [exact Heq|].
    eapply Hgone; [apply lookup_insert_eq|].
    cbn [orders_by_id store_filled with_nodes with_orders_by_id].
    apply lookup_delete_eq.
  - eexists _, eng1. split; [done|]. by eapply Hgone.
Qed.

(** ** Order ids *)

(** X8: an id that has been submitted for a symbol is refused for that
    symbol from then on, also when the order is filled, as long as no
    request cancels it: the later submit returns
    [(False, 'Order already exists', [])] and leaves the engine as it
    is. *)
Theorem order_id_is_not_reused reqs1 od now commits reqs2 od' now' commits' :
  Forall (λ req, cancels (od_order_id od) (od_symbol od) req = false) reqs2 →
  od_order_id od' = od_order_id od → od_symbol od' = od_symbol od →
  ∃ trades eng,
    run MatchingEngine_init (reqs1 ++ Submit od now commits :: reqs2)
    = Some (trades, eng)
    ∧ submit_order eng od' now' commits'
      = Some ((false, "Order already exists", []), eng).
Proof.
  intros Hreqs Hid Hsym.
  destruct (run_total MatchingEngine_init reqs1) as [[ts1 eng1] Hrun1].
  destruct (submit_order_total eng1 od now commits) as [[res eng2] Hsub].
  destruct (run_total eng2 reqs2) as [[ts2 eng3] Hrun2].
  exists (ts1 ++ (res.2 ++ ts2)), eng3. split.
  { rewrite (run_app _ _ _ _ _ Hrun1). cbn [run handle]. rewrite Hsub.
    cbn [mbind option_bind]. rewrite Hrun2. done. }
  apply submit_order_duplicate. rewrite Hid, Hsym.
  eapply run_keeps_indexed; [|done|done]. by eapply submit_order_indexed.
Qed.

Lemma order_id_is_not_reused_witness :
  Forall (λ req, cancels "b1" "X" req = false)
    [Submit (limit_order "s1" SELL 5 100) 2 []]
  ∧ ∃ trades eng,
      run MatchingEngine_init filled_pair = Some (trades, eng)
      ∧ submit_order eng (limit_order "b1" SELL 1 1) 3 []
        = Some ((false, "Order already exists", []), eng).
Proof.
  assert (Forall (λ req, cancels "b1" "X" req = false)
            [Submit (limit_order "s1" SELL 5 100) 2 []]) as Hreqs.
  { repeat constructor. }
  split; [exact Hreqs|].
  exact (order_id_is_not_reused [] (limit_order "b1" BUY 5 100) 1 []
           [Submit (limit_order "s1" SELL 5 100) 2 []]
           (limit_order "b1" SELL 1 1) 3 [] Hreqs eq_refl eq_refl).
Defined.

(** ** Submitting *)

(** X9: right after a submit that is accepted, the status query finds the
    order under its id: it carries the submitted id, user, symbol, side,
    quantity and price and the time of the submit; its filled quantity is
    at least the quantity of the trades returned, is that quantity when
    every trade was recorded, and is not above the order's quantity. *)
Theorem submit_order_then_status {D} reqs ts0 eng od now commits msg trades eng'
    (db_order : option D) :
  run MatchingEngine_init reqs = Some (ts0, eng) →
  submit_order eng od now commits = Some ((true, msg, trades), eng') →
  ∃ n,
    get_order_status eng' (od_order_id od) (od_symbol od) db_order
    = (Some (inl (n, status_of n)), eng')
    ∧ set_filled_quantity 0 n = submitted_node od now
    ∧ (volume trades ≤ filled_quantity n)%Z
    ∧ (journaled commits → filled_quantity n = volume trades)
    ∧ ((0 ≤ od_quantity od)%Z → (filled_quantity n ≤ od_quantity od)%Z).
Proof.
  intros Hrun Hsub. pose proof (run_inv _ _ _ _ engine_inv_init Hrun) as Hinv.
  destruct (submit_order_accepted _ _ _ _ _ _ _ Hinv Hsub)
    as (b' & r & Hb' & _ & Hidx & Hnode & Hle & Heq & Hbound & _).
  exists (node_at (nodes b') r). split; [|done].
  unfold get_order_status. rewrite (get_order_book_found _ _ _ Hb').
  unfold get_order. by rewrite Hidx, lookup_insert_eq.
Qed.

Lemma submit_order_then_status_witness :
  run MatchingEngine_init resting_ask = Some ([], engine_after resting_ask)
  ∧ submit_order (engine_after resting_ask) (limit_order "b1" BUY 7 100) 2 []
    = Some ((true, "Order submitted successfully",
             [mkTrade "b1" "s1" "X" 5 100]),
            engine_after (resting_ask ++ [Submit (limit_order "b1" BUY 7 100) 2 []]))
  ∧ ∃ n,
      get_order_status
        (engine_after (resting_ask ++ [Submit (limit_order "b1" BUY 7 100) 2 []]))
        "b1" "X" (@None unit)
      = (Some (inl (n, status_of n)),
         engine_after (resting_ask ++ [Submit (limit_order "b1" BUY 7 100) 2 []]))
      ∧ filled_quantity n = 5%Z.
Proof.
  assert (run MatchingEngine_init resting_ask = Some ([], engine_after resting_ask))
    as Hrun.
  { vm_compute. reflexivity. }
  assert (submit_order (engine_after resting_ask) (limit_order "b1" BUY 7 100) 2 []
          = Some ((true, "Order submitted successfully",
                   [mkTrade "b1" "s1" "X" 5 100]),
                  engine_after
                    (resting_ask ++ [Submit (limit_order "b1" BUY 7 100) 2 []])))
    as Hsub.
  { vm_compute. reflexivity. }
  split; [exact Hrun|]. split; [exact Hsub|].
  destruct (submit_order_then_status _ _ _ _ _ _ _ _ _ (@None unit) Hrun Hsub)
    as (n & Hst & _ & _ & Heq & _).
  exists n. split; [exact Hst|]. apply Heq. constructor.
Defined.

(** X10: every trade a submit returns has a quantity above zero, the
    symbol of the submitted order and its id on the order's side, and a
    price within its limit: at most the price of a bid, at least the price
    of an ask. When the order's quantity is not negative the trades do not
    add up to more than it. *)
Theorem submit_order_trades_within_limit reqs ts0 eng od now commits res eng' :
  run MatchingEngine_init reqs = Some (ts0, eng) →
  submit_order eng od now commits = Some (res, eng') →
  Forall (trade_of od) res.2
  ∧ ((0 ≤ od_quantity od)%Z → (volume res.2 ≤ od_quantity od)%Z).
Proof.
  intros Hrun Hsub. pose proof (run_inv _ _ _ _ engine_inv_init Hrun) as Hinv.
  destruct res as [[[] msg] trades]; cbn [snd].
  - destruct (submit_order_accepted _ _ _ _ _ _ _ Hinv Hsub)
      as (b' & r & _ & _ & _ & _ & Hle & _ & Hbound & Htrades).
    split; [done|]. intros Hq. specialize (Hbound Hq). lia.
  - destruct (submit_order_refused _ _ _ _ _ _ _ Hsub) as [-> _].
    split; [constructor|done].
Qed.

Lemma submit_order_trades_within_limit_witness :
  run MatchingEngine_init resting_ask = Some ([], engine_after resting_ask)
  ∧ submit_order (engine_after resting_ask) (limit_order "b1" BUY 7 100) 2 []
    = Some ((true, "Order submitted successfully",
             [mkTrade "b1" "s1" "X" 5 100]),
            engine_after (resting_ask ++ [Submit (limit_order "b1" BUY 7 100) 2 []]))
  ∧ Forall (trade_of (limit_order "b1" BUY 7 100)) [mkTrade "b1" "s1" "X" 5 100].
Proof.
  assert (run MatchingEngine_init resting_ask = Some ([], engine_after resting_ask))
    as Hrun.
  { vm_compute. reflexivity. }
  assert (submit_order (engine_after resting_ask) (limit_order "b1" BUY 7 100) 2 []
          = Some ((true, "Order submitted successfully",
                   [mkTrade "b1" "s1" "X" 5 100]),
                  engine_after
                    (resting_ask ++ [Submit (limit_order "b1" BUY 7 100) 2 []])))
    as Hsub.
  { vm_compute. reflexivity. }
  split; [exact Hrun|]. split; [exact Hsub|].
  exact (proj1 (submit_order_trades_within_limit _ _ _ _ _ _ _ _ Hrun Hsub)).
Defined.

(** ** Filled quantities *)

(** X11: when no request brings in a negative quantity, no order is ever
    filled beyond its quantity: after any sequence of requests to a fresh
    engine every node of every book has a filled quantity between zero and
    its quantity. *)
Theorem orders_never_overfilled reqs :
  Forall request_quantity_ok reqs →
  ∃ trades eng,
    run MatchingEngine_init reqs = Some (trades, eng)
    ∧ ∀ sym b, order_books eng !! sym = Some b → Forall fill_bounded (nodes b).
Proof.
  intros Hreqs. destruct (run_total MatchingEngine_init reqs) as [[trades eng] Hrun].
  exists trades, eng. split; [done|].
  by apply (run_bounded _ _ _ _ engine_inv_init engine_bounded_init Hreqs Hrun).
Qed.

Lemma orders_never_overfilled_witness :
  Forall request_quantity_ok partial_fill
  ∧ ∃ trades eng,
      run MatchingEngine_init partial_fill = Some (trades, eng)
      ∧ ∀ sym b, order_books eng !! sym = Some b → Forall fill_bounded (nodes b).
Proof.
  assert (Forall request_quantity_ok partial_fill) as Hreqs.
  { repeat constructor; simpl; lia. }
  split; [exact Hreqs|]. exact (orders_never_overfilled partial_fill Hreqs).
Defined.

(** X12: when no request brings in a negative quantity, an order that is
    filled or cancelled is final: whatever requests follow, for as long as
    a heap or the id index of the book refers to its node, the node has
    the contents it had. *)
Theorem filled_orders_are_final reqs1 reqs2 :
  Forall request_quantity_ok reqs1 → Forall request_quantity_ok reqs2 →
  ∃ ts1 eng1 ts2 eng2,
    run MatchingEngine_init reqs1 = Some (ts1, eng1)
    ∧ run eng1 reqs2 = Some (ts2, eng2)
    ∧ ∀ sym b r,
        order_books eng1 !! sym = Some b →
        referenced b r → is_filled (node_at (nodes b) r) = true →
        ∃ b', order_books eng2 !! sym = Some b'
          ∧ (referenced b' r → node_at (nodes b') r = node_at (nodes b) r).
Proof.
  intros Hreqs1 Hreqs2.
  destruct (run_total MatchingEngine_init reqs1) as [[ts1 eng1] Hrun1].
  destruct (run_total eng1 reqs2) as [[ts2 eng2] Hrun2].
  exists ts1, eng1, ts2, eng2. split; [done|]. split; [done|].
  pose proof (run_inv _ _ _ _ engine_inv_init Hrun1) as Hinv1.
  destruct (run_bounded _ _ _ _ engine_inv_init engine_bounded_init Hreqs1 Hrun1)
    as [Hb1 _].
  destruct (run_bounded _ _ _ _ Hinv1 Hb1 Hreqs2 Hrun2) as [_ Hkeep].
  intros sym b r Hb Href Hf. destruct (Hkeep sym b Hb) as (b' & Hb' & Hk).
  exists b'. split; [done|]. intros _.
  destruct (Hinv1 sym b Hb) as [[Hbs Hss _ _] _ Hids _].
  assert (r < length (nodes b)) as Hr.
  { rewrite Forall_forall in Hbs, Hss.
    destruct Href as [Hin|[Hin|[oid Hid]]];
      [by destruct (Hbs r Hin)|by destruct (Hss r Hin)|by destruct (Hids oid r Hid)]. }
  apply node_at_lookup, Hk; [|done].
  unfold node_at. by apply list_lookup_lookup_total_lt.
Qed.

Lemma filled_orders_are_final_witness :
  Forall request_quantity_ok filled_pair
  ∧ Forall request_quantity_ok [Cancel "b1" "X" true]
  ∧ ∃ ts1 eng1 ts2 eng2,
      run MatchingEngine_init filled_pair = Some (ts1, eng1)
      ∧ run eng1 [Cancel "b1" "X" true] = Some (ts2, eng2)
      ∧ ∀ sym b r,
          order_books eng1 !! sym = Some b →
          referenced b r → is_filled (node_at (nodes b) r) = true →
          ∃ b', order_books eng2 !! sym = Some b'
            ∧ (referenced b' r → node_at (nodes b') r = node_at (nodes b) r).
Proof.
  assert (Forall request_quantity_ok filled_pair) as H1.
  { repeat constructor; simpl; lia. }
  assert (Forall request_quantity_ok [Cancel "b1" "X" true]) as H2.
  { repeat constructor. }
  split; [exact H1|]. split; [exact H2|].
  exact (filled_orders_are_final filled_pair [Cancel "b1" "X" true] H1 H2).
Defined.

(** ** Resting orders and the heaps *)

Import full_facts.

(** X13: after any sequence of requests to a fresh engine, every book is
    well formed, no heap holds a node twice, and every order with quantity
    left is in the heap of its side: matching and the lazy removal of
    cancelled orders lose no resting order. *)
Theorem live_orders_stay_in_heaps reqs :
  ∃ trades eng,
    run MatchingEngine_init reqs = Some (trades, eng)
    ∧ ∀ sym b, order_books eng !! sym = Some b →
        book_wf b
        ∧ NoDup (buy_orders b) ∧ NoDup (sell_orders b)
        ∧ ∀ r, live (nodes b) r → r ∈ own_orders (side (node_at (nodes b) r)) b.
Proof.
  destruct (run_total MatchingEngine_init reqs) as [[trades eng] Hrun].
  exists trades, eng. split; [done|]. intros sym b Hb.
  pose proof (run_inv _ _ _ _ engine_inv_init Hrun sym b Hb) as Hinv.
  destruct (run_full _ _ _ _ engine_inv_init engine_full_init Hrun sym b Hb)
    as [Hnd Hlive].
  split; [by apply (inv_wf sym)|]. split; [exact (Hnd BUY)|].
  split; [exact (Hnd SELL)|done].
Qed.

(** X14: after any sequence of requests to a fresh engine, a depth query
    with more levels than the book has nodes lists every order with
    quantity left, each once: the bids are the buy orders with quantity
    left and the asks the sell orders with quantity left. *)
Theorem get_market_depth_lists_every_order reqs sym levels :
  ∃ trades eng,
    run MatchingEngine_init reqs = Some (trades, eng)
    ∧ ∀ b, order_books eng !! sym = Some b →
        (Z.of_nat (length (nodes b)) < levels)%Z →
        ∃ bids asks b',
          get_market_depth b levels
          = Some (depth_entry (nodes b) <$> bids, depth_entry (nodes b) <$> asks, b')
          ∧ NoDup bids ∧ NoDup asks
          ∧ (∀ r, r ∈ bids ↔ live (nodes b) r ∧ side (node_at (nodes b) r) = BUY)
          ∧ (∀ r, r ∈ asks ↔ live (nodes b) r ∧ side (node_at (nodes b) r) = SELL).
Proof.
  destruct (run_total MatchingEngine_init reqs) as [[trades eng] Hrun].
  exists trades, eng. split; [done|]. intros b Hb Hlev.
  destruct (inv_wf _ _ (run_inv _ _ _ _ engine_inv_init Hrun sym b Hb))
    as [Hbs Hss Hbh Hsh].
  destruct (run_full _ _ _ _ engine_inv_init engine_full_init Hrun sym b Hb)
    as [Hnd Hlive].
  destruct (depth_side_all (nodes b) BUY levels (buy_orders b) Hbs Hbh (Hnd BUY) Hlev)
    as (bids & bh & Hbd & Hbnd & _ & Hbids).
  destruct (depth_side_all (nodes b) SELL levels (sell_orders b) Hss Hsh (Hnd SELL) Hlev)
    as (asks & sh & Hsd & Hsnd & _ & Hasks).
  exists bids, asks, (with_sell_orders (with_buy_orders b bh) sh). split.
  { unfold get_market_depth. rewrite Hbd. cbn [mbind option_bind].
    cbn [nodes sell_orders with_buy_orders]. by rewrite Hsd. }
  split; [done|]. split; [done|].
  rewrite Forall_forall in Hbs, Hss. split.
  - intros r. rewrite Hbids. split.
    + intros [Hr Hl]. split; [done|]. by destruct (Hbs r Hr).
    + intros [Hl Hs]. split; [|done]. specialize (Hlive r Hl). by rewrite Hs in Hlive.
  - intros r. rewrite Hasks. split.
    + intros [Hr Hl]. split; [done|]. by destruct (Hss r Hr).
    + intros [Hl Hs]. split; [|done]. specialize (Hlive r Hl). by rewrite Hs in Hlive.
Qed.

(** ** Loading the books from the database *)

Import rebuild_facts.

(** X15: [rebuild_from_db] on a fresh engine, for rows with distinct ids,
    returns the number of rows, and every row is then found by the status
    query under its id and symbol, with the row's fields, its [created_at]
    (or the time of loading) as timestamp and its filled quantity (zero
    when there is none). The books are well formed and every loaded order
    with quantity left is in the heap of its side. *)
Theorem rebuild_from_db_loads_rows {D} rows (db_order : option D) :
  NoDup (row_id <$> rows) →
  ∃ count eng,
    rebuild_from_db MatchingEngine_init rows = (count, eng)
    ∧ count = length rows
    ∧ (∀ o, o ∈ rows →
         get_order_status eng (row_id o) (row_symbol o) db_order
         = (Some (inl (row_node o, status_of (row_node o))), eng))
    ∧ ∀ sym b, order_books eng !! sym = Some b →
        book_wf b
        ∧ ∀ r, live (nodes b) r → r ∈ own_orders (side (node_at (nodes b) r)) b.
Proof.
  intros Hnd. unfold rebuild_from_db.
  destruct (rebuild_loop_spec MatchingEngine_init 0 rows engine_inv_init engine_full_init
              Hnd) as (Hc & Hinv & Hfull & _ & Hload).
  { intros sym oid (b & r & Hb & _). simpl in Hb. by rewrite lookup_empty in Hb. }
  destruct (rebuild_loop MatchingEngine_init 0 rows) as [count eng].
  simpl in Hc, Hinv, Hfull, Hload. exists count, eng. split; [done|]. split; [done|].
  split.
  - intros o Ho. by apply holds_status, Hload.
  - intros sym b Hb. split; [apply (inv_wf sym), (Hinv sym b Hb)|].
    apply (full_live _ (Hfull sym b Hb)).
Qed.

Lemma rebuild_from_db_loads_rows_witness :
  NoDup (row_id <$> two_rows)
  ∧ ∃ count eng,
      rebuild_from_db MatchingEngine_init two_rows = (count, eng)
      ∧ count = 2
      ∧ (get_order_status eng "b1" "X" (@None unit)).1
        = Some (inl (mkOrderNode "b1" "u" "X" BUY 5 90 1 2, "PARTIALLY_FILLED")).
Proof.
  assert (NoDup (row_id <$> two_rows)) as Hnd.
  { apply (bool_decide_unpack _). vm_compute. exact I. }
  split; [exact Hnd|].
  destruct (rebuild_from_db_loads_rows two_rows (@None unit) Hnd)
    as (count & eng & Hr & Hc & Hst & _).
  exists count, eng. split; [exact Hr|]. split; [exact Hc|].
  pose proof (Hst (mkOrderRow "b1" "u" "X" BUY 5 90 (Some 1%Z) (Some 2%Z) 7)
                (list_elem_of_here _ _)) as Hb1.
  cbn [row_id row_symbol] in Hb1. rewrite Hb1. reflexivity.
Defined.
